(** * Pyretic: policy evaluation, match meet, negation, count buckets,
      dynamic policies and the path-token generator.

    A shallow embedding of [pyretic/core/language.py] and of the
    [CharacterGenerator] class of [pyretic/lib/path.py].  Python dictionaries
    are finite maps, Python sets are finite sets, exceptions are explicit
    results, and the mutable state of an object is passed explicitly. *)

From Stdlib Require Import ZArith Lia.
From stdpp Require Import gmap strings list fin_maps fin_sets.

Local Open Scope string_scope.
Local Open Scope Z_scope.

(** * Values, packets and IPv4 networks *)

(** Python exceptions raised by the embedded code. *)
Inductive Exn : Type :=
| TypeError | IndexError | KeyError | NameError
| AssertionError | RuntimeError | AddressValueError.

(** The outcome of a call that may raise. *)
Inductive Result (A : Type) : Type :=
| Ok (a : A)
| Raise (e : Exn).
Arguments Ok {A} a.
Arguments Raise {A} e.

Definition rbind {A B : Type} (r : Result A) (k : A -> Result B) : Result B :=
  match r with
  | Ok a => k a
  | Raise e => Raise e
  end.

(** Packet field values.  Addresses are kept in parsed form: [VIP a] is the
    32-bit address [a]. *)
Inductive Value : Type :=
| VInt (n : Z)
| VStr (s : string)
| VIP (a : Z).

#[global] Instance Value_eq_dec : EqDecision Value.
Proof. solve_decision. Defined.

Definition Value_to_sum (v : Value) : Z + string + Z :=
  match v with
  | VInt n => inl (inl n)
  | VStr s => inl (inr s)
  | VIP a => inr a
  end.

Definition Value_of_sum (x : Z + string + Z) : Value :=
  match x with
  | inl (inl n) => VInt n
  | inl (inr s) => VStr s
  | inr a => VIP a
  end.

#[global] Instance Value_countable : Countable Value.
Proof.
  apply (inj_countable' Value_to_sum Value_of_sum).
  intros []; reflexivity.
Defined.

(** What a match holds for a field: a value to be equal to, or the CIDR
    prefix [a/len], kept in parsed form. *)
Inductive Pat : Type :=
| PExact (v : Value)
| PNet (a : Z) (len : Z).

#[global] Instance Pat_eq_dec : EqDecision Pat.
Proof. solve_decision. Defined.

(** A pattern of a match: [None] is Python's [None]. *)
Abbreviation Pattern := (option Pat).
(** The [map] of a [match]: a frozendict from field names to patterns. *)
Abbreviation Map := (gmap string (option Pat)).
(** The [map] of a [modify]: field names to new values, [None] included. *)
Abbreviation ModMap := (gmap string (option Value)).
(** A packet: its header fields.  A packet never holds [None]. *)
Abbreviation Packet := (gmap string Value).

(** [ipaddr.IPv4Network]: the address with its prefix length. *)
Record IPv4Net : Type := mkNet { net_ip : Z; net_prefixlen : Z }.

Definition hostmask (n : IPv4Net) : Z := Z.ones (32 - net_prefixlen n).
Definition netmask (n : IPv4Net) : Z := Z.lxor (Z.ones 32) (hostmask n).
Definition network (n : IPv4Net) : Z := Z.land (net_ip n) (netmask n).
Definition broadcast (n : IPv4Net) : Z := Z.lor (net_ip n) (hostmask n).

(** [other in self] for two networks ([_BaseNet.__contains__]). *)
Definition net_contains (self other : IPv4Net) : bool :=
  (network self <=? network other) && (broadcast other <=? broadcast self).

(** [addr in self] for an address. *)
Definition net_contains_addr (self : IPv4Net) (addr : Z) : bool :=
  (network self <=? addr) && (addr <=? broadcast self).

(** The constructor [IPv4Network(x)] on patterns already in parsed form: a
    prefix, or a single address (a /32 network); any other argument, among
    them [None], raises. *)
Definition IPv4Network (x : Pattern) : Result IPv4Net :=
  match x with
  | Some (PNet a len) =>
      if (0 <=? a) && (a <? 2 ^ 32) && (0 <=? len) && (len <=? 32)
      then Ok (mkNet a len) else Raise AddressValueError
  | Some (PExact (VIP a)) =>
      if (0 <=? a) && (a <? 2 ^ 32) then Ok (mkNet a 32)
      else Raise AddressValueError
  | _ => Raise AddressValueError
  end.

(** Modelled from the spec: the comparison [pattern != v] of a pattern with
    the value of a packet field.  The value classes are declared in
    pyretic.core.network, which is not part of the sources; section 3 of the
    specification fixes their contract: a CIDR prefix is compared with an
    address by containment, every other pattern by equality. *)
Definition value_ne (pattern : Pat) (v : Value) : bool :=
  match pattern with
  | PExact u => bool_decide (u <> v)
  | PNet a len =>
      match v with
      | VIP x => negb (net_contains_addr (mkNet a len) x)
      | _ => true
      end
  end.

(** [p != q] between two patterns of one field, as [match.intersect]
    compares them. *)
Definition py_ne (p q : Pattern) : bool := bool_decide (p <> q).

(** Modelled from the spec: [Packet.modifymany] of pyretic.core.network, the
    bulk field modification; a field set to [None] is removed. *)
Definition modifymany (pkt : Packet) (d : ModMap) : Packet :=
  map_fold (fun k v acc =>
              match v with
              | Some x => <[k := x]> acc
              | None => delete k acc
              end) pkt d.

(** * Header names *)

Definition basic_headers : list string :=
  ["srcmac"; "dstmac"; "srcip"; "dstip"; "tos"; "srcport"; "dstport";
   "ethtype"; "protocol"].
Definition tagging_headers : list string := ["vlan_id"; "vlan_pcp"].
Definition native_headers : list string := basic_headers ++ tagging_headers.
Definition location_headers : list string := ["switch"; "inport"; "outport"].
Definition compilable_headers : list string :=
  native_headers ++ location_headers.
Definition content_headers : list string :=
  ["raw"; "header_len"; "payload_len"].

Definition is_compilable (f : string) : bool :=
  bool_decide (f ∈ compilable_headers).

(** * The policy language *)

(** The policy classes of [language.py].  A combinator holds its list
    [policies]; a [DerivedPolicy] holds, besides its own fields, the inner
    [policy] it was built with; a query bucket is named by the identity of
    its object. *)
#[warnings="-register-all"]
Inductive Policy : Type :=
| identity
| drop
| Controller
| match_ (map : Map)
| _match (map : Map)
| modify (map : ModMap)
| _modify (map : ModMap)
| FwdBucket (b : nat)
| PathBucket (b : nat)
| CountBucket (b : nat)
| negate (policies : list Policy)
| parallel (policies : list Policy)
| union (policies : list Policy)
| sequential (policies : list Policy)
| intersection (policies : list Policy)
| difference (f1 f2 : Policy) (policy : Policy)
| if_ (pred t_branch f_branch : Policy) (policy : Policy)
| fwd (outport : option Value) (policy : Policy)
| xfwd (outport : option Value) (policy : Policy)
| DynamicPolicy (policy : Policy)
| DynamicFilter (policy : Policy).

(** Induction over policies that also reaches the members of [policies]. *)
Section Policy_induction.
Variable P : Policy -> Prop.
Hypothesis Hidentity : P identity.
Hypothesis Hdrop : P drop.
Hypothesis HController : P Controller.
Hypothesis Hmatch : forall m, P (match_ m).
Hypothesis H_match : forall m, P (_match m).
Hypothesis Hmodify : forall m, P (modify m).
Hypothesis H_modify : forall m, P (_modify m).
Hypothesis HFwdBucket : forall b, P (FwdBucket b).
Hypothesis HPathBucket : forall b, P (PathBucket b).
Hypothesis HCountBucket : forall b, P (CountBucket b).
Hypothesis Hnegate : forall ps, Forall P ps -> P (negate ps).
Hypothesis Hparallel : forall ps, Forall P ps -> P (parallel ps).
Hypothesis Hunion : forall ps, Forall P ps -> P (union ps).
Hypothesis Hsequential : forall ps, Forall P ps -> P (sequential ps).
Hypothesis Hintersection : forall ps, Forall P ps -> P (intersection ps).
Hypothesis Hdifference :
    forall f1 f2 p, P f1 -> P f2 -> P p -> P (difference f1 f2 p).
Hypothesis Hif :
    forall c t f p, P c -> P t -> P f -> P p -> P (if_ c t f p).
Hypothesis Hfwd : forall o p, P p -> P (fwd o p).
Hypothesis Hxfwd : forall o p, P p -> P (xfwd o p).
Hypothesis HDynamicPolicy : forall p, P p -> P (DynamicPolicy p).
Hypothesis HDynamicFilter : forall p, P p -> P (DynamicFilter p).

Fixpoint Policy_nested_ind (p : Policy) : P p :=
    let fix all (ps : list Policy) : Forall P ps :=
      match ps with
      | [] => Forall_nil_2 P
      | q :: r => Forall_cons_2 P q r (Policy_nested_ind q) (all r)
      end in
    match p with
    | identity => Hidentity
    | drop => Hdrop
    | Controller => HController
    | match_ m => Hmatch m
    | _match m => H_match m
    | modify m => Hmodify m
    | _modify m => H_modify m
    | FwdBucket b => HFwdBucket b
    | PathBucket b => HPathBucket b
    | CountBucket b => HCountBucket b
    | negate ps => Hnegate ps (all ps)
    | parallel ps => Hparallel ps (all ps)
    | union ps => Hunion ps (all ps)
    | sequential ps => Hsequential ps (all ps)
    | intersection ps => Hintersection ps (all ps)
    | difference f1 f2 q =>
        Hdifference f1 f2 q (Policy_nested_ind f1) (Policy_nested_ind f2)
          (Policy_nested_ind q)
    | if_ c t f q =>
        Hif c t f q (Policy_nested_ind c) (Policy_nested_ind t)
          (Policy_nested_ind f) (Policy_nested_ind q)
    | fwd o q => Hfwd o q (Policy_nested_ind q)
    | xfwd o q => Hxfwd o q (Policy_nested_ind q)
    | DynamicPolicy q => HDynamicPolicy q (Policy_nested_ind q)
    | DynamicFilter q => HDynamicFilter q (Policy_nested_ind q)
    end.
End Policy_induction.

(** [isinstance(pol, Filter)]: the classes that derive from [Filter]. *)
Definition isinstance_Filter (pol : Policy) : bool :=
  match pol with
  | identity | drop | Controller | match_ _ | _match _
  | FwdBucket _ | PathBucket _ | CountBucket _
  | negate _ | union _ | intersection _ | difference _ _ _
  | DynamicFilter _ => true
  | _ => false
  end.

(** [isinstance(pol, match)]; [_match] derives from [match]. *)
Definition isinstance_match (pol : Policy) : option Map :=
  match pol with
  | match_ m | _match m => Some m
  | _ => None
  end.

(** [isinstance(pol, sequential)]; [intersection] derives from it. *)
Definition isinstance_sequential (pol : Policy) : option (list Policy) :=
  match pol with
  | sequential ps | intersection ps => Some ps
  | _ => None
  end.

(** [pol == identity], through the [__eq__] of the class of [pol]: the
    singleton itself, or a match whose map is empty. *)
Definition eq_identity (pol : Policy) : bool :=
  match pol with
  | identity => true
  | match_ m | _match m => bool_decide (m = ∅)
  | _ => false
  end.

(** [pol == drop]: only the singleton itself. *)
Definition eq_drop (pol : Policy) : bool :=
  match pol with
  | drop => true
  | _ => false
  end.

(** * Matches *)

(** One turn of the loop of [_match.eval]: the field read, the comparison,
    and the handler of the failed read. *)
Definition field_ok (pkt : Packet) (field : string) (pattern : Pattern) : bool :=
  match pkt !! field with
  | Some v =>
      match pattern with
      | None => false
      | Some p => negb (value_ne p v)
      end
  | None =>
      match pattern with
      | None => true
      | Some _ => false
      end
  end.

Fixpoint _match_loop (pkt : Packet) (items : list (string * Pattern))
  : gset Packet :=
  match items with
  | [] => {[ pkt ]}
  | (field, pattern) :: rest =>
      if field_ok pkt field pattern then _match_loop pkt rest else ∅
  end.

(** [_match.eval], on the map the object holds. *)
Definition _match_eval (map : Map) (pkt : Packet) : gset Packet :=
  _match_loop pkt (map_to_list map).

Section VirtualFields.
(** The packing of virtual fields into the VLAN headers is registered at run
    time (pyretic.core.runtime.virtual_field): one packing for the patterns
    of a match, one for the values of a modify. *)
Variable vlan_encode : Map -> Map.
Variable vlan_encode_mod : ModMap -> ModMap.

(** Modelled from the spec: [virtual_field.map_to_vlan] after
    [virtual_field.compress], of pyretic.core.runtime.  Section 4.8: the
    non-compilable field names of a match or modify are translated into the
    VLAN fields; a map without such names has nothing to translate. *)
Definition map_to_vlan_compress {A : Type} (encode : gmap string A -> gmap string A)
  (vf : gmap string A) : gmap string A :=
  if decide (dom vf = ∅) then ∅ else encode vf.

(** [translate_virtual_fields] of [_match] and [_modify]: the compilable
    fields are kept, the dictionary of the others is packed and merged in. *)
Definition translate_virtual_fields {A : Type}
  (encode : gmap string A -> gmap string A) (map : gmap string A)
  : gmap string A :=
  let _map := filter (fun kv => is_compilable kv.1 = true) map in
  let _vf := filter (fun kv => is_compilable kv.1 <> true) map in
  map_to_vlan_compress encode _vf ∪ _map.

(** [match.eval]: build the [_match] of the same map and evaluate it. *)
Definition match_eval (map : Map) (pkt : Packet) : gset Packet :=
  _match_eval (translate_virtual_fields vlan_encode map) pkt.

(** [_modify.eval] and [modify.eval]. *)
Definition _modify_eval (map : ModMap) (pkt : Packet) : gset Packet :=
  {[ modifymany pkt map ]}.

Definition modify_eval (map : ModMap) (pkt : Packet) : gset Packet :=
  _modify_eval (translate_virtual_fields vlan_encode_mod map) pkt.

End VirtualFields.

(** ** [match.intersect] *)

(** The inner function [_intersect_ip]: the prefix contained in the other,
    or [None].  The constructor may raise on either argument. *)
Definition _intersect_ip (ipfx opfx : Pattern) : Result Pattern :=
  rbind (IPv4Network ipfx) (fun i =>
  rbind (IPv4Network opfx) (fun o =>
  if net_contains o i then Ok ipfx
  else if net_contains i o then Ok opfx
  else Ok None)).

(** The loop over the shared fields.  [Ok None] is the early [return drop];
    [Ok (Some (src, dst))] carries [most_specific_src] and
    [most_specific_dst] out of the loop. *)
Fixpoint intersect_loop (self_map pol_map : Map) (shared : list string)
  (most_specific_src most_specific_dst : Pattern)
  : Result (option (Pattern * Pattern)) :=
  match shared with
  | [] => Ok (Some (most_specific_src, most_specific_dst))
  | f :: rest =>
      if decide (f = "srcip") then
        rbind (_intersect_ip (self_map !!! f) (pol_map !!! f)) (fun r =>
        match r with
        | None => Ok None
        | Some _ => intersect_loop self_map pol_map rest r most_specific_dst
        end)
      else if decide (f = "dstip") then
        rbind (_intersect_ip (self_map !!! f) (pol_map !!! f)) (fun r =>
        match r with
        | None => Ok None
        | Some _ => intersect_loop self_map pol_map rest most_specific_src r
        end)
      else if py_ne (self_map !!! f) (pol_map !!! f) then Ok None
      else intersect_loop self_map pol_map rest
             most_specific_src most_specific_dst
  end.

(** [match.intersect(self, pol)] for a [match] whose map is [self_map]. *)
Definition intersect (self_map : Map) (pol : Policy) : Result Policy :=
  if eq_identity pol then Ok (match_ self_map)
  else if eq_drop pol then Ok drop
  else match isinstance_match pol with
       | None => Raise TypeError
       | Some pol_map =>
           let shared := elements (dom self_map ∩ dom pol_map) in
           rbind (intersect_loop self_map pol_map shared None None) (fun r =>
           match r with
           | None => Ok drop
           | Some (most_specific_src, most_specific_dst) =>
               let d := pol_map ∪ self_map in
               let d := match most_specific_src with
                        | Some _ => <["srcip" := most_specific_src]> d
                        | None => d
                        end in
               let d := match most_specific_dst with
                        | Some _ => <["dstip" := most_specific_dst]> d
                        | None => d
                        end in
               Ok (match_ d)
           end)
       end.

(** A map keeps a packet when [_match.eval] returns it. *)
Definition keeps (map : Map) (pkt : Packet) : Prop :=
  _match_eval map pkt = {[ pkt ]}.

Definition ip24 (a b c d : Z) : Z := ((a * 256 + b) * 256 + c) * 256 + d.


(** * Evaluation *)

(** The capture sets of the query buckets: [(b, pkt)] is in the store when
    the [bucket] set of the query object [b] holds [pkt]. *)
Abbreviation Store := (gset (nat * Packet)).

(** A computation that reads and grows the capture sets and may raise. *)
Definition M (A : Type) : Type := Store -> Result (A * Store).

Definition ret {A : Type} (a : A) : M A := fun s => Ok (a, s).

Definition bind {A B : Type} (m : M A) (k : A -> M B) : M B :=
  fun s => match m s with
           | Ok (a, s') => k a s'
           | Raise e => Raise e
           end.

Definition raise {A : Type} (e : Exn) : M A := fun _ => Raise e.

(** [Query.eval]: the packet is added to [self.bucket], nothing is
    returned.  The three bucket classes inherit it unchanged. *)
Definition Query_eval (b : nat) (pkt : Packet) : M (gset Packet) :=
  fun s => Ok (∅, {[ (b, pkt) ]} ∪ s).

(** The packets a query object holds. *)
Definition bucket_of (s : Store) (b : nat) : gset Packet :=
  set_omap (fun bp : nat * Packet =>
              if decide (bp.1 = b) then Some bp.2 else None) s.

(** [for p in prev_output: output |= policy.eval(p)]. *)
Fixpoint eval_each (f : Packet -> M (gset Packet)) (l : list Packet)
  (output : gset Packet) : M (gset Packet) :=
  match l with
  | [] => ret output
  | p :: rest => bind (f p) (fun o => eval_each f rest (output ∪ o))
  end.

(** The truth value of a set: it is not empty. *)
Definition truthy (s : gset Packet) : bool := bool_decide (s <> ∅).

Section Eval.
Variable vlan_encode : Map -> Map.
Variable vlan_encode_mod : ModMap -> ModMap.

(** The [eval] method of every class.  [par] is the loop of
    [parallel.eval], [seq] the loop of [sequential.eval]; at the head of each
    turn of [seq] the variables [output] and [prev_output] hold the same
    set. *)
Fixpoint eval (p : Policy) (pkt : Packet) {struct p} : M (gset Packet) :=
  let fix par (ps : list Policy) (output : gset Packet) : M (gset Packet) :=
    match ps with
    | [] => ret output
    | q :: rest => bind (eval q pkt) (fun o => par rest (output ∪ o))
    end in
  let fix seq (ps : list Policy) (prev_output : gset Packet)
    : M (gset Packet) :=
    match ps with
    | [] => ret prev_output
    | q :: rest =>
        if truthy prev_output then
          if eq_identity q then seq rest prev_output
          else if eq_drop q then ret ∅
          else bind (eval_each (eval q) (elements prev_output) ∅) (seq rest)
        else ret ∅
    end in
  match p with
  | identity => ret {[ pkt ]}
  | drop => ret ∅
  | Controller => ret ∅
  | match_ m => ret (match_eval vlan_encode m pkt)
  | _match m => ret (_match_eval m pkt)
  | modify m => ret (modify_eval vlan_encode_mod m pkt)
  | _modify m => ret (_modify_eval m pkt)
  | FwdBucket b => Query_eval b pkt
  | PathBucket b => Query_eval b pkt
  | CountBucket b => Query_eval b pkt
  | negate ps =>
      match ps with
      | [] => raise IndexError
      | q :: _ =>
          bind (eval q pkt) (fun o =>
          if truthy o then ret ∅ else ret {[ pkt ]})
      end
  | parallel ps => par ps ∅
  | union ps => par ps ∅
  | sequential ps => seq ps {[ pkt ]}
  | intersection ps => seq ps {[ pkt ]}
  | difference _ _ q => eval q pkt
  | if_ c t f _ =>
      bind (eval c pkt) (fun o =>
      if truthy o then eval t pkt else eval f pkt)
  | fwd _ q => eval q pkt
  | xfwd _ q => eval q pkt
  | DynamicPolicy q => eval q pkt
  | DynamicFilter q => eval q pkt
  end.

(** The two loops, as functions of their own. *)
Fixpoint par_loop (pkt : Packet) (ps : list Policy) (output : gset Packet)
  : M (gset Packet) :=
  match ps with
  | [] => ret output
  | q :: rest => bind (eval q pkt) (fun o => par_loop pkt rest (output ∪ o))
  end.

Fixpoint seq_loop (ps : list Policy) (prev_output : gset Packet)
  : M (gset Packet) :=
  match ps with
  | [] => ret prev_output
  | q :: rest =>
      if truthy prev_output then
        if eq_identity q then seq_loop rest prev_output
        else if eq_drop q then ret ∅
        else bind (eval_each (eval q) (elements prev_output) ∅)
               (seq_loop rest)
      else ret ∅
  end.

End Eval.

(** ** Constructors and operators *)

(** [sequential(policies)]: the empty composition is [identity]. *)
Definition sequential_new (policies : list Policy) : Policy :=
  match policies with
  | [] => identity
  | _ => sequential policies
  end.

(** [intersection(policies)]. *)
Definition intersection_new (policies : list Policy) : Policy :=
  match policies with
  | [] => identity
  | _ => intersection policies
  end.

(** [parallel(policies)] and [union(policies)]: empty is [drop]. *)
Definition parallel_new (policies : list Policy) : Policy :=
  match policies with
  | [] => drop
  | _ => parallel policies
  end.

Definition union_new (policies : list Policy) : Policy :=
  match policies with
  | [] => drop
  | _ => union policies
  end.

(** [self >> other]: [sequential.__rshift__] when [self] is a sequential
    (or an intersection, which inherits it), [Policy.__rshift__]
    otherwise. *)
Definition rshift (self other : Policy) : Policy :=
  match isinstance_sequential self with
  | Some policies =>
      match isinstance_sequential other with
      | Some others => sequential_new (policies ++ others)
      | None => sequential_new (policies ++ [other])
      end
  | None =>
      match isinstance_sequential other with
      | Some others => sequential_new ([self] ++ others)
      | None => sequential_new [self; other]
      end
  end.

(** [~self], [Filter.__invert__]. *)
Definition invert (self : Policy) : Policy := negate [self].

(** [Filter.__and__], for the classes that do not override it. *)
Definition Filter_and (self pol : Policy) : Result Policy :=
  if isinstance_Filter pol then Ok (intersection_new [self; pol])
  else Raise TypeError.

(** [difference(f1, f2)]: the inner policy is [~f2 & f1]. *)
Definition difference_new (f1 f2 : Policy) : Result Policy :=
  rbind (Filter_and (invert f2) f1) (fun q => Ok (difference f1 f2 q)).

(** [fwd(outport)]: the inner policy is [modify(outport=outport)]. *)
Definition fwd_new (outport : option Value) : Policy :=
  fwd outport (modify {[ "outport" := outport ]}).

(** [xfwd(outport)]: [(~match(inport=outport)) >> fwd(outport)]. *)
Definition xfwd_new (outport : option Value) : Policy :=
  xfwd outport
    (rshift (invert (match_ {[ "inport" := PExact <$> outport ]}))
       (fwd_new outport)).

(** The policies that are filters all the way down: every policy that a
    filter holds is itself a filter. *)
Fixpoint filter_tree (p : Policy) : bool :=
  match p with
  | identity | drop | Controller | match_ _ | _match _ => true
  | FwdBucket _ | PathBucket _ | CountBucket _ => true
  | negate ps =>
      match ps with
      | [] => false
      | q :: _ => filter_tree q
      end
  | union ps | intersection ps => forallb filter_tree ps
  | difference f1 f2 q => filter_tree q
  | DynamicFilter q => filter_tree q
  | _ => false
  end.

(** ** Vocabulary for the statements about [intersect] *)

(** The two fields that [intersect] treats as networks. *)
Definition is_ip (f : string) : bool :=
  bool_decide (f = "srcip") || bool_decide (f = "dstip").

(** Both maps list [f]. *)
Definition shared_field (m1 m2 : Map) (f : string) : Prop :=
  is_Some (m1 !! f) /\ is_Some (m2 !! f).

(** The two patterns of a shared field cannot be met: they differ, for a
    field that is not an address; neither prefix contains the other, for an
    address field. *)
Definition conflict_at (m1 m2 : Map) (f : string) : Prop :=
  shared_field m1 m2 f /\
  if is_ip f then
    exists n1 n2, IPv4Network (m1 !!! f) = Ok n1 /\
                  IPv4Network (m2 !!! f) = Ok n2 /\
                  net_contains n2 n1 = false /\ net_contains n1 n2 = false
  else m1 !!! f <> m2 !!! f.

(** Every shared address field holds, in both maps, a prefix or an
    address that [IPv4Network] accepts. *)
Definition cidr_shared (m1 m2 : Map) : Prop :=
  forall f, is_ip f = true -> shared_field m1 m2 f ->
    exists n1 n2, IPv4Network (m1 !!! f) = Ok n1 /\
                  IPv4Network (m2 !!! f) = Ok n2.

(** [p] is the more specific of [p1] and [p2]: one of the two, and its
    network lies within the networks of both. *)
Definition more_specific (p p1 p2 : Pattern) : Prop :=
  (p = p1 \/ p = p2) /\
  exists n n1 n2, IPv4Network p = Ok n /\ IPv4Network p1 = Ok n1 /\
                  IPv4Network p2 = Ok n2 /\
                  net_contains n1 n = true /\ net_contains n2 n = true.

(** ** The meaning of an evaluation *)

(** What an evaluation amounts to: the packets it returns together with the
    captures it adds, or an exception. *)
Abbreviation Den := (option (gset Packet * Store)).

(** A denotation, run on a store. *)
Definition run (d : Den) : M (gset Packet) :=
  fun s => match d with
           | Some (o, c) => Ok (o, c ∪ s)
           | None => Raise IndexError
           end.

(** The denotation of a computation: what it does on the empty store. *)
Definition den (m : M (gset Packet)) : Den :=
  match m ∅ with
  | Ok r => Some r
  | Raise _ => None
  end.

(** A computation that only adds captures, whatever the store. *)
Definition framed (m : M (gset Packet)) : Prop := forall s, m s = run (den m) s.

Definition dbind (d : Den) (k : gset Packet -> Den) : Den :=
  match d with
  | Some (o, c) =>
      match k o with
      | Some (o', c') => Some (o', c' ∪ c)
      | None => None
      end
  | None => None
  end.

Definition d_out (d : Den) : gset Packet :=
  match d with Some (o, _) => o | None => ∅ end.

Definition d_cap (d : Den) : Store :=
  match d with Some (_, c) => c | None => ∅ end.

(** The union of the denotations [g x] for [x] in [A]; an exception when
    one of them is an exception. *)
Definition dbig (g : Packet -> Den) (A : gset Packet) : Den :=
  if forallb (fun x => bool_decide (is_Some (g x))) (elements A)
  then Some (⋃ ((fun x => d_out (g x)) <$> elements A),
             ⋃ ((fun x => d_cap (g x)) <$> elements A))
  else None.

(** The packets returned, without the store. *)
Definition output {A : Type} (r : Result (A * Store)) : Result A :=
  match r with
  | Ok (a, _) => Ok a
  | Raise e => Raise e
  end.

(** Sequential composition of two evaluations: the second runs on every
    packet the first returns, and the results are united. *)
Definition kleisli (f g : Packet -> M (gset Packet)) : Packet -> M (gset Packet) :=
  fun pkt => bind (f pkt) (fun out => eval_each g (elements out) ∅).

(** The policies a composition takes from an operand: its own list for a
    sequential, the operand itself otherwise. *)
Definition operand_policies (p : Policy) : list Policy :=
  match isinstance_sequential p with
  | Some ps => ps
  | None => [p]
  end.

(** An evaluation that returns, with the packet itself or nothing. *)
Definition passes_or_drops (m : M (gset Packet)) (pkt : Packet) (s : Store)
  : Prop :=
  exists o s', m s = Ok (o, s') /\ (o = {[ pkt ]} \/ o = ∅).

(** What is shown of every filter tree. *)
Definition filter_ok (enc : Map -> Map) (enc_mod : ModMap -> ModMap)
  (p : Policy) : Prop :=
  filter_tree p = true ->
  forall pkt s, passes_or_drops (eval enc enc_mod p pkt) pkt s.

(** A filter to try the statements on: the packets at switch 1 that did
    not come in on port 2, as [difference] builds it. *)
Definition at_switch_1_not_port_2 : Policy :=
  difference (match_ {[ "switch" := Some (PExact (VInt 1)) ]})
             (match_ {[ "inport" := Some (PExact (VInt 2)) ]})
             (intersection
                [negate [match_ {[ "inport" := Some (PExact (VInt 2)) ]}];
                 match_ {[ "switch" := Some (PExact (VInt 1)) ]}]).

(** * Classifiers and the negation of a classifier *)

(** [Rule(match, actions)] and [Classifier(rules)] of
    pyretic.core.classifier: a rule pairs a match with an ordered list of
    actions, both policies; a classifier is an ordered list of rules. *)
Record Rule : Type := mkRule { rule_match : Policy; rule_actions : list Policy }.
Record Classifier : Type := mkClassifier { rules : list Rule }.

(** The loop of [negate.generate_classifier] over the rules of the inner
    classifier; [acc] holds [classifier.rules].  [r.actions[0]] raises on
    an empty list. *)
Fixpoint negate_rules (inner : list Rule) (acc : list Rule)
  : Result (list Rule) :=
  match inner with
  | [] => Ok acc
  | r :: rest =>
      match rule_actions r with
      | [] => Raise IndexError
      | action :: _ =>
          if eq_identity action then
            negate_rules rest (acc ++ [mkRule (rule_match r) [drop]])
          else if eq_drop action then
            negate_rules rest (acc ++ [mkRule (rule_match r) [identity]])
          else Raise TypeError
      end
  end.

(** [negate.generate_classifier], given the classifier that
    [self.policies[0].compile()] returned. *)
Definition negate_generate_classifier (inner_classifier : Classifier)
  : Result Classifier :=
  rbind (negate_rules (rules inner_classifier) [])
        (fun rs => Ok (mkClassifier rs)).

(** The rule that negation makes of a rule whose first action is
    [identity] or [drop]. *)
Definition negated_rule (r : Rule) : Rule :=
  match rule_actions r with
  | action :: _ =>
      if eq_identity action then mkRule (rule_match r) [drop]
      else mkRule (rule_match r) [identity]
  | [] => r
  end.

(** The first action of the rule is [identity] or [drop]. *)
Definition filter_rule (r : Rule) : bool :=
  match rule_actions r with
  | action :: _ => eq_identity action || eq_drop action
  | [] => false
  end.

(** "Every action of every rule is [identity] or [drop]". *)
Definition filter_actions (c : Classifier) : Prop :=
  forall r a, r ∈ rules c -> a ∈ rule_actions r -> a = identity \/ a = drop.

(** Each action of the rule swapped, [identity] for [drop]. *)
Definition swap_action (a : Policy) : Policy :=
  if eq_identity a then drop else if eq_drop a then identity else a.

Definition swapped_rule (r : Rule) : Rule :=
  mkRule (rule_match r) (swap_action <$> rule_actions r).

(** * Count buckets *)

(** How a call on a bucket ends: it returns, it raises (the state reached
    by then stays), or it waits on [in_update_cv] for an update to finish. *)
Inductive Outcome (A : Type) : Type :=
| Returned (a : A)
| Raised (e : Exn) (a : A)
| Waits.
Arguments Returned {A} a.
Arguments Raised {A} e a.
Arguments Waits {A}.

(** [CountBucket.match_entry]: the key of [matches], compared by its three
    fields. *)
Record match_entry : Type := mk_match_entry {
  me_match : gmap string Value;
  me_priority : Z;
  me_version : Z
}.

#[global] Instance match_entry_eq_dec : EqDecision match_entry.
Proof. solve_decision. Defined.

#[global] Instance match_entry_countable : Countable match_entry.
Proof.
  apply (inj_countable'
           (fun k => (me_match k, me_priority k, me_version k))
           (fun t => mk_match_entry t.1.1 t.1.2 t.2)).
  intros []; reflexivity.
Defined.

(** [CountBucket.match_status]. *)
Record match_status : Type := mk_match_status {
  to_be_deleted : bool;
  existing_rule : bool
}.

(** One entry of a flow-stats reply; the key ['match'] may be missing. *)
Record flow_stat : Type := mk_flow_stat {
  fs_match : option (gmap string Value);
  fs_priority : Z;
  fs_cookie : Z;
  fs_packet_count : Z;
  fs_byte_count : Z
}.

(** The fields of a [CountBucket] that the counter protocol uses.
    [callbacks] counts the registered callbacks, [fired] lists the
    arguments of the calls made to them. *)
Record count_bucket : Type := mk_count_bucket {
  matches : gmap match_entry match_status;
  outstanding_switches : list Value;
  packet_count : Z;
  byte_count : Z;
  packet_count_persistent : Z;
  byte_count_persistent : Z;
  in_update : bool;
  new_bucket : bool;
  callbacks : nat;
  fired : list (Z * Z)
}.

Definition set_matches (b : count_bucket) (m : gmap match_entry match_status)
  : count_bucket :=
  mk_count_bucket m (outstanding_switches b) (packet_count b) (byte_count b)
    (packet_count_persistent b) (byte_count_persistent b) (in_update b)
    (new_bucket b) (callbacks b) (fired b).

Definition set_outstanding (b : count_bucket) (l : list Value) : count_bucket :=
  mk_count_bucket (matches b) l (packet_count b) (byte_count b)
    (packet_count_persistent b) (byte_count_persistent b) (in_update b)
    (new_bucket b) (callbacks b) (fired b).

Definition set_counts (b : count_bucket) (p y : Z) : count_bucket :=
  mk_count_bucket (matches b) (outstanding_switches b) p y
    (packet_count_persistent b) (byte_count_persistent b) (in_update b)
    (new_bucket b) (callbacks b) (fired b).

Definition set_persistent (b : count_bucket) (p y : Z) : count_bucket :=
  mk_count_bucket (matches b) (outstanding_switches b) (packet_count b)
    (byte_count b) p y (in_update b) (new_bucket b) (callbacks b) (fired b).

Definition set_fired (b : count_bucket) (l : list (Z * Z)) : count_bucket :=
  mk_count_bucket (matches b) (outstanding_switches b) (packet_count b)
    (byte_count b) (packet_count_persistent b) (byte_count_persistent b)
    (in_update b) (new_bucket b) (callbacks b) l.

(** [add_match]. *)
Definition add_match (b : count_bucket) (m : gmap string Value)
  (priority version : Z) : count_bucket :=
  let k := mk_match_entry m priority version in
  match matches b !! k with
  | Some _ => b
  | None => set_matches b (<[k := mk_match_status false false]> (matches b))
  end.

(** [delete_match]: the entry is only marked. *)
Definition delete_match (b : count_bucket) (m : gmap string Value)
  (priority version : Z) : count_bucket :=
  let k := mk_match_entry m priority version in
  match matches b !! k with
  | Some st =>
      set_matches b
        (<[k := mk_match_status true (existing_rule st)]> (matches b))
  | None => b
  end.

(** [handle_flow_removed], with the two counters of [flow_stat]. *)
Definition handle_flow_removed (b : count_bucket) (m : gmap string Value)
  (priority version : Z) (flow_packet_count flow_byte_count : Z)
  : Outcome count_bucket :=
  if in_update b then Waits
  else
    let k := mk_match_entry m priority version in
    match matches b !! k with
    | Some status =>
        if to_be_deleted status then
          let b1 :=
            if existing_rule status then b
            else set_persistent b
                   (packet_count_persistent b + flow_packet_count)
                   (byte_count_persistent b + flow_byte_count) in
          Returned (set_matches b1 (delete k (matches b1)))
        else Raised AssertionError b
    | None => Returned b
    end.

(** [fmt % args] raises when the conversions of the format and the
    arguments differ in number. *)
Definition py_format (conversions args : nat) : Result unit :=
  if Nat.eqb conversions args then Ok tt else Raise TypeError.

(** [clear_existing_rule_flag(entry)]: its body names [k], which is bound
    neither in the method nor in the module, so the first statement
    raises. *)
Definition clear_existing_rule_flag (b : count_bucket) (entry : match_entry)
  : Outcome count_bucket :=
  Raised NameError b.

(** The inner function [stat_in_bucket]: the entry of [matches] for an
    entry of the reply, the switch added to its match. *)
Definition stat_in_bucket (b : count_bucket) (flow_match : gmap string Value)
  (priority cookie : Z) (s : Value) : option match_entry :=
  let fme := mk_match_entry (<["switch" := s]> flow_match) priority cookie in
  match matches b !! fme with
  | Some _ => Some fme
  | None => None
  end.

(** The loop of [handle_flow_stats_reply] over the entries of the reply. *)
Fixpoint reply_loop (switch : Value) (flow_stats : list flow_stat)
  (b : count_bucket) : Outcome count_bucket :=
  match flow_stats with
  | [] => Returned b
  | f :: rest =>
      match fs_match f with
      | None => Raised RuntimeError b
      | Some flow_match =>
          match stat_in_bucket b flow_match (fs_priority f) (fs_cookie f)
                  switch with
          | None => reply_loop switch rest b
          | Some me =>
              match matches b !! me with
              | None => Raised KeyError b
              | Some status =>
                  if existing_rule status then
                    match py_format 3 1 with
                    | Raise e => Raised e b
                    | Ok _ =>
                        let b1 :=
                          set_persistent b
                            (packet_count_persistent b - fs_packet_count f)
                            (byte_count_persistent b - fs_byte_count f) in
                        match clear_existing_rule_flag b1 me with
                        | Returned b2 => reply_loop switch rest b2
                        | other => other
                        end
                    end
                  else
                    reply_loop switch rest
                      (set_counts b (packet_count b + fs_packet_count f)
                                    (byte_count b + fs_byte_count f))
              end
          end
      end
  end.

(** [list.remove(x)]: the first occurrence goes. *)
Fixpoint list_remove (x : Value) (l : list Value) : list Value :=
  match l with
  | [] => []
  | y :: rest => if decide (x = y) then rest else y :: list_remove x rest
  end.

(** The calls to the callbacks once no switch is outstanding. *)
Definition fire_callbacks (b : count_bucket) : count_bucket :=
  match outstanding_switches b with
  | [] =>
      set_fired b
        (fired b ++ replicate (callbacks b) (packet_count b, byte_count b))
  | _ => b
  end.

(** [handle_flow_stats_reply]. *)
Definition handle_flow_stats_reply (b : count_bucket) (switch : Value)
  (flow_stats : list flow_stat) : Outcome count_bucket :=
  if in_update b then Waits
  else
    let b0 := set_counts b (packet_count_persistent b)
                (byte_count_persistent b) in
    if bool_decide (switch ∈ outstanding_switches b0) then
      match reply_loop switch flow_stats b0 with
      | Returned b1 =>
          Returned
            (fire_callbacks
               (set_outstanding b1
                  (list_remove switch (outstanding_switches b1))))
      | other => other
      end
    else Returned (fire_callbacks b0).

(** A bucket to try the statements on: one rule installed on switch 1,
    with its status given, a stats request outstanding at the switch, and
    one callback registered. *)
Definition rule_at_switch_1 : match_entry :=
  mk_match_entry (<["switch" := VInt 1]> ∅) 10 1.

Definition bucket_with (status : match_status) : count_bucket :=
  mk_count_bucket {[ rule_at_switch_1 := status ]} [VInt 1] 0 0 7 700
    false false 1 [].

(** The entry of the reply of switch 1 for that rule: 5 packets, 100
    bytes. *)
Definition reply_entry : flow_stat := mk_flow_stat (Some ∅) 10 1 5 100.

(** * Dynamic policies and cached classifiers *)

(** [Singleton.generate_classifier]: one rule that matches everything,
    with the singleton itself as its action. *)
Definition Singleton_generate_classifier (self : Policy) : Classifier :=
  mkClassifier [mkRule identity [self]].

(** Modelled from the spec: the truth value of a [Classifier], a class of
    pyretic.core.classifier.  Section 3: a classifier is an ordered list of
    rules; like a Python list it is true when it holds a rule. *)
Definition classifier_truthy (c : Classifier) : bool :=
  match rules c with
  | [] => false
  | _ => true
  end.

(** [not self._classifier]. *)
Definition not_classifier (cache : option Classifier) : bool :=
  match cache with
  | None => true
  | Some c => negb (classifier_truthy c)
  end.

(** A [DynamicPolicy] together with a [DerivedPolicy] above it, whose
    [policy] is the dynamic node: the inner policy of the node and the
    [_classifier] field of each of the two. *)
Record dynamic_objects : Type := mk_dynamic_objects {
  _policy : Policy;
  _classifier : option Classifier;
  parent_classifier : option Classifier
}.

(** The objects and the callback attached to the node, if any.  The
    callback is code of the subscriber: it is handed the node and may
    change the objects as it likes. *)
Record dynamic_world : Type := mk_dynamic_world {
  objects : dynamic_objects;
  notify : option (dynamic_objects -> dynamic_objects)
}.

(** [DynamicPolicy.__init__(policy=drop)]. *)
Definition DynamicPolicy_init (policy : Policy) : dynamic_world :=
  mk_dynamic_world (mk_dynamic_objects policy None None) None.

(** [attach] and [detach]. *)
Definition attach (w : dynamic_world)
  (f : dynamic_objects -> dynamic_objects) : dynamic_world :=
  mk_dynamic_world (objects w) (Some f).

Definition detach (w : dynamic_world) : dynamic_world :=
  mk_dynamic_world (objects w) None.

(** [changed]: the callback, when one is attached, is called with the
    node. *)
Definition changed (w : dynamic_world) : dynamic_world :=
  match notify w with
  | Some f => mk_dynamic_world (f (objects w)) (notify w)
  | None => w
  end.

(** The setter of [policy]: the new inner policy is stored, then
    [changed] runs. *)
Definition set_policy (w : dynamic_world) (policy : Policy) : dynamic_world :=
  changed
    (mk_dynamic_world
       (mk_dynamic_objects policy (_classifier (objects w))
          (parent_classifier (objects w)))
       (notify w)).

(** [Policy.invalidate_classifier], on the node and on its parent. *)
Definition invalidate_classifier (o : dynamic_objects) : dynamic_objects :=
  mk_dynamic_objects (_policy o) None (parent_classifier o).

Definition invalidate_parent_classifier (o : dynamic_objects)
  : dynamic_objects :=
  mk_dynamic_objects (_policy o) (_classifier o) None.

(** A subscriber that invalidates the node and the policy above it. *)
Definition invalidate_spine (o : dynamic_objects) : dynamic_objects :=
  invalidate_parent_classifier (invalidate_classifier o).

Section DynamicCompile.
(** What the [compile] of the inner policy returns. *)
Variable compile_of : Policy -> Classifier.

(** [DerivedPolicy.compile] on the dynamic node: the cached classifier
    when there is one, the classifier of the inner policy, now cached,
    otherwise. *)
Definition compile (o : dynamic_objects) : Classifier * dynamic_objects :=
  if not_classifier (_classifier o) then
    let c := compile_of (_policy o) in
    (c, mk_dynamic_objects (_policy o) (Some c) (parent_classifier o))
  else
    match _classifier o with
    | Some c => (c, o)
    | None => (compile_of (_policy o), o)
    end.

(** [DerivedPolicy.compile] on the parent, whose [policy] is the node. *)
Definition compile_parent (o : dynamic_objects)
  : Classifier * dynamic_objects :=
  if not_classifier (parent_classifier o) then
    let '(c, o') := compile o in
    (c, mk_dynamic_objects (_policy o') (_classifier o') (Some c))
  else
    match parent_classifier o with
    | Some c => (c, o)
    | None => compile o
    end.

End DynamicCompile.

(** * The character generator of the path language *)

Definition TOKEN_START_VALUE : Z := 48.
Definition TOK_INGRESS : string := "ingress".
Definition TOK_EGRESS : string := "egress".
Definition TOK_DROP : string := "drop".
Definition TOK_END_PATH : string := "end_path".
Definition TOK_HOOK : string := "ingress_hook".
Definition default_toktype : string := TOK_INGRESS.

(** The codes of the twenty-two characters of the lexer language, in the
    order of the list in [char_in_lexer_language]: star, plus, bar, the
    braces, the parentheses, minus, caret, dot, ampersand, question mark,
    the two quotes, percent, dollar, comma, slash, backslash, equals,
    greater and less. *)
Definition lexer_codes : list Z :=
  [42; 43; 124; 123; 125; 40; 41; 45; 94; 46; 38; 63; 34; 39; 37; 36; 44;
   47; 92; 61; 62; 60].

(** [char_in_lexer_language], on the code of the character. *)
Definition char_in_lexer_language (c : Z) : bool :=
  bool_decide (c ∈ lexer_codes).

(** [__new_token__] on the counter alone: it is advanced until the
    character it stands for is outside the lexer language.  No code above
    125 is in the language, which bounds the recursion. *)
Fixpoint new_token_from (fuel : nat) (token : Z) : Z :=
  let token' := token + 1 in
  if char_in_lexer_language token' then
    match fuel with
    | O => token'
    | S fuel' => new_token_from fuel' token'
    end
  else token'.

Section CharacterGenerator.
(** The filters handed to the generator, with the operators the generator
    applies to them: [&], [|], [~], the policy [drop], the comparison
    [== drop], and the classifier [get_classifier] finds for a filter. *)
Context {F : Type} `{Countable F}.
Variable f_and : F -> F -> F.
Variable f_or : F -> F -> F.
Variable f_not : F -> F.
Variable f_drop : F.
Variable f_eq_drop : F -> bool.
Variable get_classifier : F -> Classifier.

(** The class attributes of [CharacterGenerator]. *)
Record generator : Type := mk_generator {
  token : Z;
  toktypes : list string;
  filter_to_token : gmap string (gmap F Z);
  token_to_filter : gmap string (gmap Z F);
  token_to_tokens : gmap string (gmap Z (list Z));
  token_to_toktype : gmap Z string
}.

(** [clear], which also gives the attributes their initial values. *)
Definition clear : generator :=
  mk_generator TOKEN_START_VALUE [default_toktype]
    {[ default_toktype := ∅ ]} {[ default_toktype := ∅ ]}
    {[ default_toktype := ∅ ]} ∅.

(** [has_nonempty_intersection]: some rule of the classifier of [p1 & p2]
    has no [drop] among its actions. *)
Definition has_nonempty_intersection (p1 p2 : F) : bool :=
  existsb (fun rule => negb (existsb eq_drop (rule_actions rule)))
          (rules (get_classifier (f_and p1 p2))).

(** [__ensure_toktype]. *)
Definition ensure_toktype (g : generator) (toktype : string) : generator :=
  if bool_decide (toktype ∈ toktypes g) then g
  else mk_generator (token g) (toktypes g ++ [toktype])
         (<[toktype := ∅]> (filter_to_token g))
         (<[toktype := ∅]> (token_to_filter g))
         (<[toktype := ∅]> (token_to_tokens g))
         (token_to_toktype g).

(** [__new_token__]. *)
Definition new_token (g : generator) : Z * generator :=
  let t := new_token_from (Z.to_nat (126 - token g)) (token g) in
  (t, mk_generator t (toktypes g) (filter_to_token g) (token_to_filter g)
        (token_to_tokens g) (token_to_toktype g)).

(** [__add_new_token].  A subscript by a token type that the dictionaries
    do not hold raises [KeyError]. *)
Definition add_new_token (g : generator) (pol : F) (toktype : string)
  : Result (Z * generator) :=
  let '(new, g1) := new_token g in
  let g2 := ensure_toktype g1 toktype in
  match filter_to_token g2 !! toktype, token_to_filter g2 !! toktype with
  | Some f2t, Some t2f =>
      Ok (new,
          mk_generator (token g2) (toktypes g2)
            (<[toktype := <[pol := new]> f2t]> (filter_to_token g2))
            (<[toktype := <[new := pol]> t2f]> (token_to_filter g2))
            (token_to_tokens g2)
            (<[new := toktype]> (token_to_toktype g2)))
  | _, _ => Raise KeyError
  end.

(** [cls.token_to_tokens[toktype][tok] = toks]. *)
Definition set_token_to_tokens (g : generator) (toktype : string) (tok : Z)
  (toks : list Z) : Result generator :=
  match token_to_tokens g !! toktype with
  | Some t2t =>
      Ok (mk_generator (token g) (toktypes g) (filter_to_token g)
            (token_to_filter g)
            (<[toktype := <[tok := toks]> t2t]> (token_to_tokens g))
            (token_to_toktype g))
  | None => Raise KeyError
  end.

(** The two [del] statements of the split. *)
Definition delete_filter (g : generator) (toktype : string) (existing : F)
  (tok : Z) : Result generator :=
  match filter_to_token g !! toktype, token_to_filter g !! toktype with
  | Some f2t, Some t2f =>
      match f2t !! existing, t2f !! tok with
      | Some _, Some _ =>
          Ok (mk_generator (token g) (toktypes g)
                (<[toktype := delete existing f2t]> (filter_to_token g))
                (<[toktype := delete tok t2f]> (token_to_filter g))
                (token_to_tokens g) (token_to_toktype g))
      | _, _ => Raise KeyError
      end
  | _, _ => Raise KeyError
  end.

(** The state of the loop of [__add_new_filter]: the class attributes,
    [diff_list] and [new_intersecting_tokens]. *)
Record filter_loop : Type := mk_filter_loop {
  fl_generator : generator;
  diff_list : F;
  new_intersecting_tokens : list Z
}.

(** One turn of the loop, for one existing filter. *)
Definition add_new_filter_step (new_filter : F) (toktype : string)
  (st : filter_loop) (existing_filter : F) : Result filter_loop :=
  let g := fl_generator st in
  if has_nonempty_intersection existing_filter new_filter then
    match filter_to_token g !! toktype with
    | None => Raise KeyError
    | Some f2t =>
        match f2t !! existing_filter with
        | None => Raise KeyError
        | Some tok =>
            rbind
              (if has_nonempty_intersection existing_filter (f_not new_filter)
               then
                 rbind (delete_filter g toktype existing_filter tok) (fun g1 =>
                 rbind (add_new_token g1
                          (f_and existing_filter (f_not new_filter)) toktype)
                       (fun '(new_tok1, g2) =>
                 rbind (add_new_token g2
                          (f_and existing_filter new_filter) toktype)
                       (fun '(new_tok2, g3) =>
                 rbind (set_token_to_tokens g3 toktype tok
                          [new_tok1; new_tok2])
                       (fun g4 =>
                 Ok (g4, (new_intersecting_tokens st ++ [new_tok2])%list)))))
               else Ok (g, (new_intersecting_tokens st ++ [tok])%list))
              (fun '(g', toks) =>
                 Ok (mk_filter_loop g'
                       (if f_eq_drop (diff_list st) then existing_filter
                        else f_or (diff_list st) existing_filter)
                       toks))
        end
    end
  else Ok st.

Fixpoint add_new_filter_loop (new_filter : F) (toktype : string)
  (existing : list F) (st : filter_loop) : Result filter_loop :=
  match existing with
  | [] => Ok st
  | e :: rest =>
      rbind (add_new_filter_step new_filter toktype st e)
            (add_new_filter_loop new_filter toktype rest)
  end.

(** [__add_new_filter]. *)
Definition add_new_filter (g : generator) (new_filter : F) (toktype : string)
  : Result (Z * generator) :=
  match token_to_filter g !! toktype with
  | None => Raise KeyError
  | Some t2f =>
      let values := (map_to_list t2f).*2 in
      rbind (add_new_filter_loop new_filter toktype values
               (mk_filter_loop g f_drop []))
            (fun st =>
      let g1 := fl_generator st in
      if negb (f_eq_drop (diff_list st)) then
        let '(new, g2) := new_token g1 in
        rbind
          (if has_nonempty_intersection new_filter (f_not (diff_list st))
           then
             rbind (add_new_token g2
                      (f_and new_filter (f_not (diff_list st))) toktype)
                   (fun '(t, g3) => Ok ([t], g3))
           else Ok ([], g2))
          (fun '(new_disjoint_token, g3) =>
        rbind (set_token_to_tokens g3 toktype new
                 (new_intersecting_tokens st ++ new_disjoint_token)%list)
              (fun g4 =>
        Ok (new,
            mk_generator (token g4) (toktypes g4) (filter_to_token g4)
              (token_to_filter g4) (token_to_tokens g4)
              (<[new := toktype]> (token_to_toktype g4)))))
      else add_new_token g1 new_filter toktype)
  end.

(** [not toktype]: the argument is [None] or the empty string. *)
Definition toktype_or_default (toktype : option string) : string :=
  match toktype with
  | None => default_toktype
  | Some s => if bool_decide (s = "") then default_toktype else s
  end.

(** [get_token]. *)
Definition get_token (g : generator) (pol : F) (toktype : option string)
  (nonoverlapping_filters : bool) : Result (Z * generator) :=
  let toktype := toktype_or_default toktype in
  let g1 := ensure_toktype g toktype in
  if nonoverlapping_filters then
    match filter_to_token g1 !! toktype with
    | None => Raise KeyError
    | Some f2t =>
        match f2t !! pol with
        | Some t => Ok (t, g1)
        | None => add_new_filter g1 pol toktype
        end
    end
  else add_new_token g1 pol toktype.

(** [get_filter_from_token]; the alias lists are followed at most [fuel]
    levels deep. *)
Fixpoint get_filter_from_token (fuel : nat) (g : generator) (tok : Z)
  (toktype : string) : Result F :=
  match token_to_filter g !! toktype with
  | None => Raise KeyError
  | Some t2f =>
      match t2f !! tok with
      | Some f => Ok f
      | None =>
          match token_to_tokens g !! toktype with
          | None => Raise KeyError
          | Some t2t =>
              match t2t !! tok with
              | None => Raise TypeError
              | Some toklist =>
                  match fuel with
                  | O => Raise RuntimeError
                  | S fuel' =>
                      match toklist with
                      | [] => Raise IndexError
                      | tok0 :: rest =>
                          rbind (get_filter_from_token fuel' g tok0 toktype)
                                (fun output_filter =>
                          foldl (fun acc new_tok =>
                                   rbind acc (fun out =>
                                   rbind (get_filter_from_token fuel' g
                                            new_tok toktype)
                                         (fun f => Ok (f_or out f))))
                                (Ok output_filter) rest)
                      end
                  end
              end
          end
      end
  end.

(** A sequence of [get_token] calls with [nonoverlapping_filters=True]:
    the tokens returned, in order, and the attributes at the end. *)
Fixpoint get_tokens (g : generator) (calls : list (F * option string))
  : Result (list Z * generator) :=
  match calls with
  | [] => Ok ([], g)
  | (pol, toktype) :: rest =>
      rbind (get_token g pol toktype true) (fun '(t, g1) =>
      rbind (get_tokens g1 rest) (fun '(ts, g2) => Ok (t :: ts, g2)))
  end.

End CharacterGenerator.

Arguments generator F {_ _}.
Arguments filter_loop F {_ _}.

(** ** Vocabulary for the statements about the character generator *)

Section GeneratorVocabulary.
Context {F : Type} `{Countable F}.
(** The packets, and which packets a filter keeps. *)
Context {P : Type}.
Variable sem : F -> P -> bool.
Variable f_or : F -> F -> F.

(** The three dictionaries of a token type; empty for a type that is not
    registered. *)
Definition keys (g : generator F) (ty : string) : gmap F Z :=
  default ∅ (filter_to_token g !! ty).
Definition leaves (g : generator F) (ty : string) : gmap Z F :=
  default ∅ (token_to_filter g !! ty).
Definition aliases (g : generator F) (ty : string) : gmap Z (list Z) :=
  default ∅ (token_to_tokens g !! ty).

(** The token types of [toktypes] are those the dictionaries hold. *)
Definition registered (g : generator F) (ty : string) : Prop :=
  is_Some (filter_to_token g !! ty) /\ is_Some (token_to_filter g !! ty) /\
  is_Some (token_to_tokens g !! ty).

Definition unregistered (g : generator F) (ty : string) : Prop :=
  filter_to_token g !! ty = None /\ token_to_filter g !! ty = None /\
  token_to_tokens g !! ty = None.

Definition well_formed (g : generator F) : Prop :=
  forall ty, (ty ∈ toktypes g -> registered g ty) /\
             (ty ∉ toktypes g -> unregistered g ty).

(** [filter_to_token] and [token_to_filter] are inverse to each other. *)
Definition inverse (g : generator F) (ty : string) : Prop :=
  forall f t, keys g ty !! f = Some t <-> leaves g ty !! t = Some f.

(** The filters of two leaf tokens keep no packet in common. *)
Definition disjoint_leaves (g : generator F) (ty : string) : Prop :=
  forall t1 t2 f1 f2,
    t1 <> t2 -> leaves g ty !! t1 = Some f1 -> leaves g ty !! t2 = Some f2 ->
    forall p, ~ (sem f1 p = true /\ sem f2 p = true).

(** Some leaf token keeps the packet. *)
Definition covered (g : generator F) (ty : string) (p : P) : Prop :=
  exists t f, leaves g ty !! t = Some f /\ sem f p = true.

(** The leaf filters keep together what the filters of [ins] keep. *)
Definition union_is (g : generator F) (ty : string) (ins : list F) : Prop :=
  forall p, covered g ty p <-> exists f, f ∈ ins /\ sem f p = true.

(** No token of the type is beyond the counter. *)
Definition bounded (g : generator F) (ty : string) : Prop :=
  forall t, is_Some (leaves g ty !! t) \/ is_Some (aliases g ty !! t) ->
            t <= token g.

(** The token expands, through the alias lists, to leaf tokens whose
    filters keep together what [f] keeps: [get_filter_from_token] returns a
    filter that keeps the same packets as [f]. *)
Definition denotes (g : generator F) (ty : string) (t : Z) (f : F) : Prop :=
  exists fuel f',
    get_filter_from_token f_or fuel g t ty = Ok f' /\
    forall p, sem f' p = sem f p.

(** The filters passed for a token type, in a list of calls. *)
Definition filters_of (ty : string) (calls : list (F * option string))
  : list F :=
  (filter (fun c => toktype_or_default c.2 = ty) calls).*1.

End GeneratorVocabulary.

(** ** Vocabulary for the proofs about the character generator *)

Section GeneratorInvariants.
Context {F : Type} `{Countable F} {P : Type}.
Variable sem : F -> P -> bool.
Variable f_or : F -> F -> F.
Variable f_drop : F.
Variable f_eq_drop : F -> bool.

(** The dictionaries of [g'] refine those of [g]: a leaf of [g] expands
    in [g'], one level deep at most, to the same packets, and the alias
    lists of [g] are still there. *)
Definition refines (g g' : generator F) (ty : string) : Prop :=
  (forall t f, leaves g ty !! t = Some f ->
     exists f', get_filter_from_token f_or 1 g' t ty = Ok f' /\ forall p, sem f' p = sem f p) /\
  (forall t l, leaves g ty !! t = None -> aliases g ty !! t = Some l ->
     leaves g' ty !! t = None /\ aliases g' ty !! t = Some l).

(** The two dictionaries of one type, as maps. *)
Definition inverse_maps (K : gmap F Z) (L : gmap Z F) : Prop :=
  forall f t, K !! f = Some t <-> L !! t = Some f.

Definition disjoint_map (L : gmap Z F) : Prop :=
  forall t1 t2 f1 f2,
    t1 <> t2 -> L !! t1 = Some f1 -> L !! t2 = Some f2 ->
    forall p, ~ (sem f1 p = true /\ sem f2 p = true).

(** [f] keeps no packet that a filter of [L] keeps. *)
Definition apart_from (L : gmap Z F) (f : F) : Prop :=
  forall t f', L !! t = Some f' ->
    forall p, ~ (sem f p = true /\ sem f' p = true).

(** No token type is ever forgotten. *)
Definition types_kept (g g' : generator F) : Prop :=
  forall ty, ty ∈ toktypes g -> ty ∈ toktypes g'.

(** What holds at the head of each turn of the loop of [__add_new_filter]
    that started from [g0]: [todo] are the existing filters still to be
    visited. *)
Record loop_inv (g0 : generator F) (ty : string) (n : F) (todo : list F)
  (st : filter_loop F) : Prop := mk_loop_inv {
  li_wf : well_formed (fl_generator st);
  li_reg : registered (fl_generator st) ty;
  li_tok : token g0 <= token (fl_generator st);
  li_frame : forall ty', ty' <> ty ->
    keys (fl_generator st) ty' = keys g0 ty' /\
    leaves (fl_generator st) ty' = leaves g0 ty' /\
    aliases (fl_generator st) ty' = aliases g0 ty';
  li_inv : inverse (fl_generator st) ty;
  li_disj : disjoint_leaves sem (fl_generator st) ty;
  li_bnd : bounded (fl_generator st) ty;
  li_cov : forall p, covered sem (fl_generator st) ty p <-> covered sem g0 ty p;
  li_den : forall t f, denotes sem f_or g0 ty t f ->
                       denotes sem f_or (fl_generator st) ty t f;
  li_todo : forall e, e ∈ todo -> exists t, leaves (fl_generator st) ty !! t = Some e;
  li_nodup : NoDup todo;
  li_done : forall t f, leaves (fl_generator st) ty !! t = Some f ->
    f ∈ todo \/
    (forall p, sem f p = true -> sem n p = false) \/
    (t ∈ new_intersecting_tokens st /\
     forall p, sem f p = true ->
               sem n p = true /\ sem (diff_list st) p = true);
  li_nit : forall t, t ∈ new_intersecting_tokens st ->
    exists f, leaves (fl_generator st) ty !! t = Some f /\
              forall p, sem f p = true ->
                        sem n p = true /\ sem (diff_list st) p = true;
  li_diff : forall p, sem n p = true -> sem (diff_list st) p = true ->
    exists t f, t ∈ new_intersecting_tokens st /\
                leaves (fl_generator st) ty !! t = Some f /\ sem f p = true;
  li_none : new_intersecting_tokens st = [] ->
            diff_list st = f_drop /\ fl_generator st = g0;
  li_some : new_intersecting_tokens st <> [] ->
            f_eq_drop (diff_list st) = false
}.

(** What a call of [__add_new_filter] or [get_token] for the filter [n]
    that returned the token [t] has done to the dictionaries of the
    type. *)
Record added (g : generator F) (ty : string) (n : F) (t : Z)
  (g' : generator F) : Prop := mk_added {
  ad_wf : well_formed g';
  ad_reg : registered g' ty;
  ad_tok : token g <= token g';
  ad_inv : inverse g' ty;
  ad_disj : disjoint_leaves sem g' ty;
  ad_bnd : bounded g' ty;
  ad_cov : forall p, covered sem g' ty p <->
                     covered sem g ty p \/ sem n p = true;
  ad_den : forall t0 f, denotes sem f_or g ty t0 f ->
                        denotes sem f_or g' ty t0 f;
  ad_new : denotes sem f_or g' ty t n;
  ad_frame : forall ty', ty' <> ty ->
    keys g' ty' = keys g ty' /\ leaves g' ty' = leaves g ty' /\
    aliases g' ty' = aliases g ty'
}.

(** What holds of the class attributes between two calls of
    [get_token]. *)
Record gen_inv (g : generator F) : Prop := mk_gen_inv {
  gi_wf : well_formed g;
  gi_inv : forall ty, inverse g ty;
  gi_disj : forall ty, disjoint_leaves sem g ty;
  gi_bnd : forall ty, bounded g ty
}.

End GeneratorInvariants.

(** ** Filters over two packets *)

(** A world with two packets, [true] and [false]: a filter is the pair of
    its answers on them, the operators act on each answer, and the
    classifier of a filter has one rule, which drops when the filter keeps
    neither packet. *)
Module TwoPackets.
Definition filter : Type := bool * bool.
Definition sem (f : filter) (p : bool) : bool := if p then f.1 else f.2.
Definition f_and (a b : filter) : filter := (a.1 && b.1, a.2 && b.2).
Definition f_or (a b : filter) : filter := (a.1 || b.1, a.2 || b.2).
Definition f_not (a : filter) : filter := (negb a.1, negb a.2).
Definition f_drop : filter := (false, false).
Definition f_eq_drop (a : filter) : bool := negb a.1 && negb a.2.
Definition get_classifier (a : filter) : Classifier :=
  mkClassifier [mkRule identity [if a.1 || a.2 then identity else drop]].
End TwoPackets.

Module TwoPacketsRun.
(** The attributes after [get_token] was called, on the cleared generator,
    for the filter that keeps the first packet. *)
Definition first_call : generator TwoPackets.filter :=
  mk_generator 49 [default_toktype]
    {[ default_toktype := {[ (true, false) := 49 ]} ]}
    {[ default_toktype := {[ 49 := (true, false) ]} ]}
    {[ default_toktype := ∅ ]}
    {[ 49 := default_toktype ]}.
End TwoPacketsRun.

(** * More of the policy language *)

(** [isinstance(pol, parallel)]; [union] derives from [parallel]. *)
Definition isinstance_parallel (pol : Policy) : option (list Policy) :=
  match pol with
  | parallel ps | union ps => Some ps
  | _ => None
  end.

(** [self + pol]: [parallel.__add__] when [self] is a parallel (or a union,
    which inherits it), [Policy.__add__] otherwise. *)
Definition add (self pol : Policy) : Policy :=
  match isinstance_parallel self with
  | Some policies =>
      match isinstance_parallel pol with
      | Some others => parallel_new (policies ++ others)
      | None => parallel_new (policies ++ [pol])
      end
  | None =>
      match isinstance_parallel pol with
      | Some others => parallel_new ([self] ++ others)
      | None => parallel_new [self; pol]
      end
  end.

(** [if_(pred, t_branch, f_branch)]: the inner policy is
    [(pred >> t_branch) + (~pred >> f_branch)]; [~pred] is defined for
    filters only. *)
Definition if_new (pred t_branch f_branch : Policy) : Result Policy :=
  if isinstance_Filter pred then
    Ok (if_ pred t_branch f_branch
          (add (rshift pred t_branch) (rshift (invert pred) f_branch)))
  else Raise TypeError.

(** No [negate] that evaluation reaches has an empty list of policies: the
    policies that [eval] of each class calls [eval] on. *)
Fixpoint negations_hold (p : Policy) : bool :=
  match p with
  | negate ps =>
      match ps with
      | [] => false
      | q :: _ => negations_hold q
      end
  | parallel ps | union ps | sequential ps | intersection ps =>
      forallb negations_hold ps
  | difference _ _ q => negations_hold q
  | if_ c t f _ => negations_hold c && negations_hold t && negations_hold f
  | fwd _ q | xfwd _ q | DynamicPolicy q | DynamicFilter q => negations_hold q
  | _ => true
  end.

Section Accepts.
Variable vlan_encode : Map -> Map.
Variable vlan_encode_mod : ModMap -> ModMap.

(** The policy returns the packet itself, and only it. *)
Definition accepts (p : Policy) (pkt : Packet) : Prop :=
  output (eval vlan_encode vlan_encode_mod p pkt ∅) = Ok {[ pkt ]}.

End Accepts.

(** ** Vocabulary for the statements about count buckets *)

(** The entry of the reply of [switch] belongs to a rule of the bucket:
    [stat_in_bucket] finds its key in [matches]. *)
Definition reply_hit (b : count_bucket) (switch : Value) (f : flow_stat)
  : bool :=
  match fs_match f with
  | Some flow_match =>
      bool_decide
        (is_Some (stat_in_bucket b flow_match (fs_priority f) (fs_cookie f)
                    switch))
  | None => false
  end.

(** The sum of a counter over the entries of a reply that belong to a rule
    of the bucket. *)
Definition reply_total (b : count_bucket) (switch : Value)
  (counter : flow_stat -> Z) (flow_stats : list flow_stat) : Z :=
  foldr (fun f acc => counter f + acc) 0
        (List.filter (reply_hit b switch) flow_stats).

(** No entry of the reply belongs to a rule whose [existing_rule] flag is
    set. *)
Definition no_existing_rule (b : count_bucket) (switch : Value)
  (flow_stats : list flow_stat) : Prop :=
  forall f flow_match status,
    f ∈ flow_stats -> fs_match f = Some flow_match ->
    matches b !! mk_match_entry (<["switch" := switch]> flow_match)
                   (fs_priority f) (fs_cookie f) = Some status ->
    existing_rule status = false.

(** ** The operator [&] on a match *)

(** [match.__and__]: [intersect] for another match, [Filter.__and__]
    otherwise. *)
Definition match_and (self_map : Map) (pol : Policy) : Result Policy :=
  match isinstance_match pol with
  | Some _ => intersect self_map pol
  | None => Filter_and (match_ self_map) pol
  end.

(** A pattern that is compared by equality: [None] or a plain value. *)
Definition plain (p : Pattern) : Prop :=
  match p with
  | Some (PNet _ _) => False
  | _ => True
  end.

(** The shared fields that are not addresses hold plain patterns in both
    maps. *)
Definition plain_shared (m1 m2 : Map) : Prop :=
  forall f, is_ip f = false -> shared_field m1 m2 f ->
            plain (m1 !!! f) /\ plain (m2 !!! f).

(** ** [match.covers] *)

(** [self != other] for two networks of ipaddr ([_BaseNet.__ne__]): they
    differ in the network address or in the netmask. *)
Definition net_ne (self other : IPv4Net) : bool :=
  negb ((network self =? network other) && (netmask self =? netmask other)).

(** The loop of [covers] over the items of [self.map]. *)
Fixpoint covers_loop (items : list (string * Pattern)) (other_map : Map)
  : Result bool :=
  match items with
  | [] => Ok true
  | (f, v) :: rest =>
      if is_ip f then
        rbind (IPv4Network v) (fun nv =>
        rbind (IPv4Network (other_map !!! f)) (fun no =>
        if net_ne nv no then
          if negb (net_contains nv no) then Ok false
          else covers_loop rest other_map
        else covers_loop rest other_map))
      else if py_ne v (other_map !!! f) then Ok false
      else covers_loop rest other_map
  end.

(** [match.covers(self, other)] for an [other] that is a match, with the
    map [other_map]: then [other == identity] says that [other_map] is
    empty, and [other == drop] is false. *)
Definition covers (self_map other_map : Map) : Result bool :=
  if bool_decide (other_map = ∅) && (0 <? Z.of_nat (size self_map))
  then Ok false
  else if bool_decide (other_map = ∅) then Ok true
  else if bool_decide (dom self_map ∖ dom other_map ≠ ∅) then Ok false
  else covers_loop (map_to_list self_map) other_map.

(** * Path queries stitched into a forwarding policy *)

(** [path.stitch(fwding, path_pol_fragments)], with the five fragments
    [tagging], [untagging], [counting], [endpath] and [dropping]; the
    second and the fifth are not used.  [egress] is the inner policy of the
    [egress_network()] object made in the call. *)
Definition stitch (egress : Policy) (fwding : Policy)
  (tagging untagging counting endpath dropping : Policy) : Policy :=
  add (add (rshift tagging fwding) counting)
      (rshift (rshift (rshift tagging fwding) (DynamicFilter egress))
              endpath).

(** A policy that only captures: on every packet it returns, and returns
    no packet. *)
Definition captures_only (enc : Map -> Map) (enc_mod : ModMap -> ModMap)
  (p : Policy) : Prop :=
  forall pkt s, exists s', eval enc enc_mod p pkt s = Ok (∅, s').

(** * The list of path expressions *)

Section PathLists.
(** The path objects, and the three comparisons of [dfa_utils], which run
    the lexer generator on the two expressions. *)
Context {Pth : Type}.
Variable re_equals : string -> string -> bool.
Variable re_belongs_to : string -> string -> bool.
Variable re_has_nonempty_intersection : string -> string -> bool.

(** The class attributes [re_list] and [paths_list] of [path]. *)
Record path_lists : Type := mk_path_lists {
  re_list : list string;
  paths_list : list (list Pth)
}.

(** How a turn of the loop of [append_re_without_intersection] ends: with
    [return False], or with the next turn, [diff_re_list] carried on. *)
Inductive turn : Type :=
| Leaves (st : path_lists)
| Goes_on (st : path_lists) (diff_re_list : list string).

(** One turn of the loop, for the index [i]. *)
Definition append_re_turn (new_re : string) (p : Pth) (i : nat)
  (st : path_lists) (diff_re_list : list string) : Result turn :=
  match re_list st !! i with
  | None => Raise IndexError
  | Some existing_re =>
      if re_equals existing_re new_re then
        match paths_list st !! i with
        | None => Raise IndexError
        | Some ps =>
            Ok (Leaves (mk_path_lists (re_list st)
                          (<[i := (ps ++ [p])%list]> (paths_list st))))
        end
      else if re_belongs_to existing_re new_re then
        match paths_list st !! i with
        | None => Raise IndexError
        | Some ps =>
            Ok (Goes_on (mk_path_lists (re_list st)
                           (<[i := (ps ++ [p])%list]> (paths_list st)))
                        (diff_re_list ++ [existing_re]))
        end
      else if re_has_nonempty_intersection existing_re new_re then
        match paths_list st !! i with
        | None => Raise IndexError
        | Some ps =>
            Ok (Goes_on
                  (mk_path_lists
                     (<[i := "(" ++ existing_re ++ ") & ~(" ++ new_re ++ ")"]>
                        (re_list st) ++
                      ["(" ++ existing_re ++ ") & (" ++ new_re ++ ")"])
                     (paths_list st ++ [(ps ++ [p])%list]))
                  (diff_re_list ++ [existing_re]))
        end
      else Ok (Goes_on st diff_re_list)
  end.

(** The loop over the indices of the list as it was at the start. *)
Fixpoint append_re_loop (new_re : string) (p : Pth) (indices : list nat)
  (st : path_lists) (diff_re_list : list string) : Result turn :=
  match indices with
  | [] => Ok (Goes_on st diff_re_list)
  | i :: rest =>
      rbind (append_re_turn new_re p i st diff_re_list) (fun t =>
      match t with
      | Leaves st' => Ok (Leaves st')
      | Goes_on st' diff' => append_re_loop new_re p rest st' diff'
      end)
  end.

(** [reduce(lambda x,y: x + '|' + y, diff_re_list)] on a list that is not
    empty. *)
Definition join_alternatives (first : string) (others : list string)
  : string :=
  foldl (fun x y => x ++ "|" ++ y) first others.

(** [append_re_without_intersection(new_re, p)]: the value returned and
    the attributes afterwards. *)
Definition append_re_without_intersection (st : path_lists)
  (new_re : string) (p : Pth) : Result (bool * path_lists) :=
  rbind (append_re_loop new_re p (seq 0 (length (re_list st))) st [])
        (fun t =>
  match t with
  | Leaves st' => Ok (false, st')
  | Goes_on st' diff_re_list =>
      match diff_re_list with
      | [] =>
          Ok (true, mk_path_lists (re_list st' ++ [new_re])
                      (paths_list st' ++ [[p]]))
      | first :: others =>
          let all_intersecting_parts := join_alternatives first others in
          if negb (re_belongs_to new_re all_intersecting_parts) then
            Ok (true,
                mk_path_lists
                  (re_list st' ++
                   ["(" ++ new_re ++ ") & ~(" ++ all_intersecting_parts ++ ")"])
                  (paths_list st' ++ [[p]]))
          else Ok (false, st')
      end
  end).

End PathLists.

Arguments path_lists Pth : clear implicits.
Arguments turn Pth : clear implicits.

(** Every path listed for an entry before is still listed for it. *)
Definition paths_kept {Pth : Type} (st st' : path_lists Pth) : Prop :=
  forall i ps, paths_list st !! i = Some ps ->
    exists ps', paths_list st' !! i = Some ps' /\ ps ⊆ ps'.

(** The path [p] is listed for some entry. *)
Definition listed {Pth : Type} (p : Pth) (st : path_lists Pth) : Prop :=
  exists i ps, paths_list st !! i = Some ps /\ p ∈ ps.

(** The two lists go together: an entry of [paths_list] for every
    expression of [re_list]. *)
Definition paired {Pth : Type} (st : path_lists Pth) : Prop :=
  length (re_list st) = length (paths_list st).

(** * Properties *)

(** ** The scenarios of the specification *)

Example scenario_3_intersect :
  intersect {[ "srcip" := Some (PNet (ip24 10 0 0 0) 8) ]}
            (match_ {[ "srcip" := Some (PNet (ip24 10 1 0 0) 16) ]})
  = Ok (match_ {[ "srcip" := Some (PNet (ip24 10 1 0 0) 16) ]}).
Proof. vm_compute. reflexivity. Qed.

Example scenario_4_intersect :
  intersect {[ "dstport" := Some (PExact (VInt 80)) ]}
            (match_ {[ "dstport" := Some (PExact (VInt 443)) ]})
  = Ok drop.
Proof. vm_compute. reflexivity. Qed.

(** ** Matches *)

Lemma _match_loop_forallb (pkt : Packet) (items : list (string * Pattern)) :
  _match_loop pkt items =
  if forallb (fun fp => field_ok pkt fp.1 fp.2) items then {[ pkt ]} else ∅.
Proof.
  induction items as [|[f p] rest IH]; simpl; [reflexivity|].
  destruct (field_ok pkt f p); simpl; [exact IH | reflexivity].
Qed.

(** Evaluate the test of [_match.eval] on a concrete map and packet. *)
Ltac match_compute :=
  unfold keeps, _match_eval; rewrite _match_loop_forallb;
  match goal with
  | |- context [forallb ?f ?l] =>
      let v := eval vm_compute in (forallb f l) in
      change (forallb f l) with v
  end; cbv iota.

Example scenario_1_match :
  _match_eval {[ "srcip" := Some (PNet (ip24 10 0 0 0) 24);
                 "dstport" := Some (PExact (VInt 80)) ]}
              {[ "srcip" := VIP (ip24 10 0 0 5); "dstport" := VInt 80 ]}
  = {[ {[ "srcip" := VIP (ip24 10 0 0 5); "dstport" := VInt 80 ]} ]}.
Proof. match_compute. reflexivity. Qed.

Example scenario_1_no_match :
  _match_eval {[ "srcip" := Some (PNet (ip24 10 0 0 0) 24);
                 "dstport" := Some (PExact (VInt 80)) ]}
              {[ "srcip" := VIP (ip24 10 0 0 5); "srcport" := VInt 80 ]}
  = ∅.
Proof. match_compute. reflexivity. Qed.

Lemma singleton_ne_empty (pkt : Packet) : ({[ pkt ]} : gset Packet) <> ∅.
Proof. set_solver. Qed.

Lemma _match_eval_cases (m : Map) (pkt : Packet) :
  _match_eval m pkt = {[ pkt ]} \/ _match_eval m pkt = ∅.
Proof.
  unfold _match_eval. rewrite _match_loop_forallb.
  destruct (forallb _ _); auto.
Qed.

Lemma _match_eval_field_ok (m : Map) (pkt : Packet) :
  _match_eval m pkt = {[ pkt ]} <->
  (forall f p, m !! f = Some p -> field_ok pkt f p = true).
Proof.
  unfold _match_eval. rewrite _match_loop_forallb.
  destruct (forallb _ _) eqn:E.
  - split; [intros _ f p Hf | reflexivity].
    rewrite forallb_forall in E.
    apply (E (f, p)). apply list_elem_of_In, elem_of_map_to_list, Hf.
  - split; [intros H; symmetry in H; destruct (singleton_ne_empty _ H)|].
    intros H. assert (forallb (fun fp => field_ok pkt fp.1 fp.2)
                        (map_to_list m) = true) as E'; [|congruence].
    apply forallb_forall. intros [f p] Hin.
    apply H. apply elem_of_map_to_list, list_elem_of_In, Hin.
Qed.

(** What one field demands of the packet. *)
Lemma field_ok_spec (pkt : Packet) (f : string) (p : Pattern) :
  field_ok pkt f p = true <->
  match p with
  | None => pkt !! f = None
  | Some q => exists v, pkt !! f = Some v /\ value_ne q v = false
  end.
Proof.
  unfold field_ok. destruct (pkt !! f) as [v|], p as [q|]; simpl.
  - rewrite negb_true_iff. split; [eauto|]. intros (v' & [= <-] & H); exact H.
  - split; discriminate.
  - split; [discriminate|]. intros (v & [=] & _).
  - split; reflexivity.
Qed.

Lemma value_ne_exact (u v : Value) : value_ne (PExact u) v = false <-> u = v.
Proof.
  simpl. rewrite bool_decide_eq_false. split; [|auto].
  intros H. destruct (decide (u = v)); [assumption | contradiction].
Qed.

Lemma value_ne_net (a len : Z) (v : Value) :
  value_ne (PNet a len) v = false <->
  exists x, v = VIP x /\
            network (mkNet a len) <= x <= broadcast (mkNet a len).
Proof.
  simpl. destruct v as [n|s|x].
  - split; [discriminate | intros (x & [=] & _)].
  - split; [discriminate | intros (x & [=] & _)].
  - rewrite negb_false_iff. unfold net_contains_addr.
    rewrite andb_true_iff, !Z.leb_le. split.
    + intros H. exists x. auto.
    + intros (y & [= <-] & H). exact H.
Qed.

Lemma translate_virtual_fields_empty {A : Type}
  (encode : gmap string A -> gmap string A) :
  translate_virtual_fields encode ∅ = ∅.
Proof.
  unfold translate_virtual_fields, map_to_vlan_compress.
  rewrite !map_filter_empty, dom_empty_L.
  rewrite decide_True by reflexivity. apply (left_id_L ∅ (∪)).
Qed.

Lemma translate_virtual_fields_compilable {A : Type}
  (encode : gmap string A -> gmap string A) (m : gmap string A) :
  (forall f, is_Some (m !! f) -> is_compilable f = true) ->
  translate_virtual_fields encode m = m.
Proof.
  intros H. unfold translate_virtual_fields, map_to_vlan_compress.
  assert (filter (fun kv : string * A => is_compilable kv.1 <> true) m = ∅)
    as ->.
  { apply map_empty_filter_2. intros f x Hf Hn. simpl in Hn.
    apply Hn, H. eauto. }
  rewrite dom_empty_L, decide_True by reflexivity.
  rewrite (left_id_L ∅ (∪)).
  apply map_filter_id. intros f x Hf. simpl. apply H. eauto.
Qed.

Lemma _match_eval_empty (pkt : Packet) : _match_eval ∅ pkt = {[ pkt ]}.
Proof. unfold _match_eval. rewrite map_to_list_empty. reflexivity. Qed.

Lemma match_eval_empty (enc : Map -> Map) (pkt : Packet) :
  match_eval enc ∅ pkt = {[ pkt ]}.
Proof.
  unfold match_eval. rewrite translate_virtual_fields_empty.
  apply _match_eval_empty.
Qed.


(** ** Networks: the interval of a prefix is the set of addresses that
    share its leading bits *)

Lemma network_shift (a len : Z) :
  0 <= a < 2 ^ 32 -> 0 <= len <= 32 ->
  network (mkNet a len) = 2 ^ (32 - len) * (a / 2 ^ (32 - len)).
Proof.
  intros Ha Hl. unfold network, netmask, hostmask. simpl.
  set (k := 32 - len). assert (0 <= k <= 32) as Hk by (unfold k; lia).
  transitivity (Z.ldiff a (Z.ones k)).
  - apply Z.bits_inj'. intros n Hn.
    rewrite Z.land_spec, Z.ldiff_spec, Z.lxor_spec.
    destruct (Z.lt_ge_cases n 32) as [Hlt|Hge].
    + rewrite (Z.ones_spec_low 32 n) by lia. simpl.
      destruct (Z.testbit (Z.ones k) n); reflexivity.
    + assert (Z.testbit a n = false) as ->; [|reflexivity].
      destruct (Z.eq_dec a 0) as [->|Hne]; [apply Z.bits_0|].
      apply Z.bits_above_log2; [lia|].
      apply Z.lt_le_trans with 32; [|assumption].
      apply Z.log2_lt_pow2; lia.
  - rewrite Z.ldiff_ones_r by lia.
    rewrite Z.shiftl_mul_pow2, Z.shiftr_div_pow2 by lia. lia.
Qed.

Lemma broadcast_shift (a len : Z) :
  0 <= a < 2 ^ 32 -> 0 <= len <= 32 ->
  broadcast (mkNet a len) =
  2 ^ (32 - len) * (a / 2 ^ (32 - len)) + (2 ^ (32 - len) - 1).
Proof.
  intros Ha Hl. unfold broadcast, hostmask. simpl.
  set (k := 32 - len). assert (0 <= k <= 32) as Hk by (unfold k; lia).
  assert (Z.lor a (Z.ones k) = Z.lor (Z.ldiff a (Z.ones k)) (Z.ones k)) as ->.
  { apply Z.bits_inj'. intros n Hn.
    rewrite !Z.lor_spec, Z.ldiff_spec.
    destruct (Z.testbit a n), (Z.testbit (Z.ones k) n); reflexivity. }
  assert (Z.land (Z.ldiff a (Z.ones k)) (Z.ones k) = 0) as Hdisj.
  { apply Z.bits_inj'. intros n Hn.
    rewrite Z.land_spec, Z.ldiff_spec, Z.bits_0.
    destruct (Z.testbit a n), (Z.testbit (Z.ones k) n); reflexivity. }
  rewrite <- (Z.lxor_lor _ _ Hdisj), <- (Z.add_nocarry_lxor _ _ Hdisj).
  rewrite Z.ldiff_ones_r by lia.
  rewrite Z.shiftl_mul_pow2, Z.shiftr_div_pow2 by lia.
  rewrite Z.ones_equiv. lia.
Qed.

(** An address lies in a prefix exactly when its leading [len] bits are
    those of the prefix. *)
Lemma net_contains_addr_prefix (a len x : Z) :
  0 <= a < 2 ^ 32 -> 0 <= len <= 32 -> 0 <= x ->
  net_contains_addr (mkNet a len) x = true <->
  Z.shiftr x (32 - len) = Z.shiftr a (32 - len).
Proof.
  intros Ha Hl Hx. unfold net_contains_addr.
  rewrite andb_true_iff, !Z.leb_le.
  rewrite network_shift, broadcast_shift by assumption.
  rewrite !Z.shiftr_div_pow2 by lia.
  set (k := 32 - len). assert (0 < 2 ^ k) as Hpos by (apply Z.pow_pos_nonneg; lia).
  set (q := a / 2 ^ k).
  split.
  - intros [H1 H2]. symmetry. apply (Z.div_unique_pos x (2 ^ k) q (x - 2 ^ k * q)); lia.
  - intros H. pose proof (Z.div_mod x (2 ^ k) ltac:(lia)) as Hdm.
    pose proof (Z.mod_pos_bound x (2 ^ k) Hpos) as Hb.
    rewrite H in Hdm. lia.
Qed.

Lemma network_32 (a : Z) : 0 <= a < 2 ^ 32 -> network (mkNet a 32) = a.
Proof.
  intros Ha. rewrite network_shift by lia.
  change (2 ^ (32 - 32)) with 1. rewrite Z.div_1_r. lia.
Qed.

Lemma broadcast_32 (a : Z) : 0 <= a < 2 ^ 32 -> broadcast (mkNet a 32) = a.
Proof.
  intros Ha. rewrite broadcast_shift by lia.
  change (2 ^ (32 - 32)) with 1. rewrite Z.div_1_r. lia.
Qed.


(** ** The meet of two matches *)

Lemma net_contains_refl (n : IPv4Net) : net_contains n n = true.
Proof. unfold net_contains. rewrite andb_true_iff, !Z.leb_le. lia. Qed.

Lemma net_contains_addr_mono (n1 n2 : IPv4Net) (x : Z) :
  net_contains n2 n1 = true ->
  net_contains_addr n1 x = true -> net_contains_addr n2 x = true.
Proof.
  unfold net_contains, net_contains_addr.
  rewrite !andb_true_iff, !Z.leb_le. lia.
Qed.

(** A pattern that [IPv4Network] accepts keeps the addresses of the
    network. *)
Lemma field_ok_network (pkt : Packet) (f : string) (p : Pattern) (n : IPv4Net) :
  IPv4Network p = Ok n ->
  field_ok pkt f p = true <->
  exists x, pkt !! f = Some (VIP x) /\ net_contains_addr n x = true.
Proof.
  intros Hn. rewrite field_ok_spec.
  destruct p as [[[| |a]|a len]|]; simpl in Hn; try discriminate.
  - destruct ((0 <=? a) && (a <? 2 ^ 32)) eqn:E; [|discriminate].
    injection Hn as <-.
    apply andb_true_iff in E as [E1 E2].
    apply Z.leb_le in E1. apply Z.ltb_lt in E2.
    unfold net_contains_addr.
    rewrite network_32, broadcast_32 by lia.
    split.
    + intros (v & Hv & Hne). apply value_ne_exact in Hne as <-.
      exists a. rewrite andb_true_iff, !Z.leb_le. split; [assumption|lia].
    + intros (x & Hx & Hin). apply andb_true_iff in Hin as [H1 H2].
      apply Z.leb_le in H1, H2. assert (x = a) as -> by lia.
      exists (VIP a). split; [assumption|]. apply value_ne_exact. reflexivity.
  - destruct ((0 <=? a) && (a <? 2 ^ 32) && (0 <=? len) && (len <=? 32));
      [|discriminate].
    injection Hn as <-. split.
    + intros (v & Hv & Hne). apply value_ne_net in Hne as (x & -> & Hx).
      exists x. split; [assumption|].
      unfold net_contains_addr. rewrite andb_true_iff, !Z.leb_le. lia.
    + intros (x & Hx & Hin). exists (VIP x). split; [assumption|].
      apply value_ne_net. exists x. split; [reflexivity|].
      unfold net_contains_addr in Hin.
      rewrite andb_true_iff, !Z.leb_le in Hin. lia.
Qed.

(** What [_intersect_ip] returns on two accepted patterns. *)
Lemma _intersect_ip_spec (p1 p2 : Pattern) (n1 n2 : IPv4Net) :
  IPv4Network p1 = Ok n1 -> IPv4Network p2 = Ok n2 ->
  _intersect_ip p1 p2 =
  Ok (if net_contains n2 n1 then p1
      else if net_contains n1 n2 then p2 else None).
Proof.
  intros H1 H2. unfold _intersect_ip. rewrite H1, H2. simpl.
  destruct (net_contains n2 n1); [reflexivity|].
  destruct (net_contains n1 n2); reflexivity.
Qed.

Lemma IPv4Network_is_Some (p : Pattern) (n : IPv4Net) :
  IPv4Network p = Ok n -> is_Some p.
Proof. destruct p; [eauto | discriminate]. Qed.

Lemma is_ip_true (f : string) : is_ip f = true <-> f = "srcip" \/ f = "dstip".
Proof.
  unfold is_ip. rewrite orb_true_iff, !bool_decide_eq_true. reflexivity.
Qed.

Lemma more_specific_of_meet (p1 p2 : Pattern) (n1 n2 : IPv4Net) :
  IPv4Network p1 = Ok n1 -> IPv4Network p2 = Ok n2 ->
  (net_contains n2 n1 = true -> more_specific p1 p1 p2) /\
  (net_contains n1 n2 = true -> more_specific p2 p1 p2).
Proof.
  intros H1 H2. split; intros Hc; (split; [auto|]).
  - exists n1, n1, n2. auto using net_contains_refl.
  - exists n2, n1, n2. auto using net_contains_refl.
Qed.

Ltac split5 := split; [|split; [|split; [|split]]].

Section IntersectLoop.
Variables m1 m2 : Map.
Hypothesis Hcidr : cidr_shared m1 m2.

(** The loop of [intersect] over a list of shared fields: it leaves with
    [return drop] when some field of the list is in conflict, and otherwise
    runs to the end with the more specific prefix recorded for each address
    field of the list. *)
Lemma intersect_loop_spec (l : list string) :
  (forall f, f ∈ l -> shared_field m1 m2 f) ->
  forall src dst,
  (intersect_loop m1 m2 l src dst = Ok None /\
   exists f, f ∈ l /\ conflict_at m1 m2 f) \/
  (exists src' dst',
     intersect_loop m1 m2 l src dst = Ok (Some (src', dst')) /\
     (forall f, f ∈ l -> ~ conflict_at m1 m2 f) /\
     ("srcip" ∈ l ->
      more_specific src' (m1 !!! "srcip") (m2 !!! "srcip")) /\
     ("srcip" ∉ l -> src' = src) /\
     ("dstip" ∈ l ->
      more_specific dst' (m1 !!! "dstip") (m2 !!! "dstip")) /\
     ("dstip" ∉ l -> dst' = dst)).
Proof.
  induction l as [|f rest IH]; intros Hsh src dst.
  - right. exists src, dst. simpl. split; [reflexivity|]. split5; auto;
      intros; exfalso; eapply not_elem_of_nil; eassumption.
  - assert (shared_field m1 m2 f) as Hf by (apply Hsh; left).
    assert (forall g, g ∈ rest -> shared_field m1 m2 g) as Hrest
      by (intros g Hg; apply Hsh; right; exact Hg).
    specialize (IH Hrest). simpl.
    destruct (decide (f = "srcip")) as [->|Hns].
    { destruct (Hcidr "srcip" eq_refl Hf) as (n1 & n2 & Hn1 & Hn2).
      destruct (more_specific_of_meet _ _ _ _ Hn1 Hn2) as [Hm1 Hm2].
      rewrite (_intersect_ip_spec _ _ _ _ Hn1 Hn2). simpl.
      assert (forall r, is_Some r ->
                (net_contains n2 n1 = true \/ net_contains n1 n2 = true) ->
                more_specific r (m1 !!! "srcip") (m2 !!! "srcip") ->
                (intersect_loop m1 m2 rest r dst = Ok None /\
                 exists f, f ∈ "srcip" :: rest /\ conflict_at m1 m2 f) \/
                (exists src' dst',
                   intersect_loop m1 m2 rest r dst = Ok (Some (src', dst')) /\
                   (forall f, f ∈ "srcip" :: rest -> ~ conflict_at m1 m2 f) /\
                   ("srcip" ∈ "srcip" :: rest ->
                    more_specific src' (m1 !!! "srcip") (m2 !!! "srcip")) /\
                   ("srcip" ∉ "srcip" :: rest -> src' = src) /\
                   ("dstip" ∈ "srcip" :: rest ->
                    more_specific dst' (m1 !!! "dstip") (m2 !!! "dstip")) /\
                   ("dstip" ∉ "srcip" :: rest -> dst' = dst))) as Hgo.
      { intros r Hr Hc Hms.
        destruct (IH r dst) as [[E (g & Hg & Hcf)]|
                                (s' & d' & E & Hnc & Hs1 & Hs2 & Hd1 & Hd2)].
        - left. split; [exact E|]. exists g. split; [right; exact Hg|exact Hcf].
        - right. exists s', d'. split; [exact E|]. split5.
          + intros g Hg. apply elem_of_cons in Hg as [->|Hg]; [|auto].
            intros [_ Hcf]. simpl in Hcf.
            destruct Hcf as (k1 & k2 & Hk1 & Hk2 & Hc1 & Hc2).
            rewrite Hn1 in Hk1. rewrite Hn2 in Hk2.
            injection Hk1 as <-. injection Hk2 as <-.
            destruct Hc; congruence.
          + intros _. destruct (decide ("srcip" ∈ rest)) as [Hin|Hnin];
              [auto|]. rewrite (Hs2 Hnin). exact Hms.
          + intros Hn. exfalso. apply Hn. left.
          + intros Hin. apply elem_of_cons in Hin as [Hin|Hin];
              [discriminate|auto].
          + intros Hn. apply Hd2. intros Hin. apply Hn. right. exact Hin. }
      destruct (net_contains n2 n1) eqn:C1.
      - destruct (IPv4Network_is_Some _ _ Hn1) as [q Hq]. rewrite Hq.
        rewrite <- Hq. apply Hgo; [rewrite Hq; eauto|auto|auto].
      - destruct (net_contains n1 n2) eqn:C2.
        + destruct (IPv4Network_is_Some _ _ Hn2) as [q Hq]. rewrite Hq.
          rewrite <- Hq. apply Hgo; [rewrite Hq; eauto|auto|auto].
        + left. split; [reflexivity|]. exists "srcip". split; [left|].
          split; [exact Hf|]. simpl. exists n1, n2. auto. }
    destruct (decide (f = "dstip")) as [->|Hnd].
    { destruct (Hcidr "dstip" eq_refl Hf) as (n1 & n2 & Hn1 & Hn2).
      destruct (more_specific_of_meet _ _ _ _ Hn1 Hn2) as [Hm1 Hm2].
      rewrite (_intersect_ip_spec _ _ _ _ Hn1 Hn2). simpl.
      assert (forall r, is_Some r ->
                (net_contains n2 n1 = true \/ net_contains n1 n2 = true) ->
                more_specific r (m1 !!! "dstip") (m2 !!! "dstip") ->
                (intersect_loop m1 m2 rest src r = Ok None /\
                 exists f, f ∈ "dstip" :: rest /\ conflict_at m1 m2 f) \/
                (exists src' dst',
                   intersect_loop m1 m2 rest src r = Ok (Some (src', dst')) /\
                   (forall f, f ∈ "dstip" :: rest -> ~ conflict_at m1 m2 f) /\
                   ("srcip" ∈ "dstip" :: rest ->
                    more_specific src' (m1 !!! "srcip") (m2 !!! "srcip")) /\
                   ("srcip" ∉ "dstip" :: rest -> src' = src) /\
                   ("dstip" ∈ "dstip" :: rest ->
                    more_specific dst' (m1 !!! "dstip") (m2 !!! "dstip")) /\
                   ("dstip" ∉ "dstip" :: rest -> dst' = dst))) as Hgo.
      { intros r Hr Hc Hms.
        destruct (IH src r) as [[E (g & Hg & Hcf)]|
                                (s' & d' & E & Hnc & Hs1 & Hs2 & Hd1 & Hd2)].
        - left. split; [exact E|]. exists g. split; [right; exact Hg|exact Hcf].
        - right. exists s', d'. split; [exact E|]. split5.
          + intros g Hg. apply elem_of_cons in Hg as [->|Hg]; [|auto].
            intros [_ Hcf]. simpl in Hcf.
            destruct Hcf as (k1 & k2 & Hk1 & Hk2 & Hc1 & Hc2).
            rewrite Hn1 in Hk1. rewrite Hn2 in Hk2.
            injection Hk1 as <-. injection Hk2 as <-.
            destruct Hc; congruence.
          + intros Hin. apply elem_of_cons in Hin as [Hin|Hin];
              [discriminate|auto].
          + intros Hn. apply Hs2. intros Hin. apply Hn. right. exact Hin.
          + intros _. destruct (decide ("dstip" ∈ rest)) as [Hin|Hnin];
              [auto|]. rewrite (Hd2 Hnin). exact Hms.
          + intros Hn. exfalso. apply Hn. left. }
      destruct (net_contains n2 n1) eqn:C1.
      - destruct (IPv4Network_is_Some _ _ Hn1) as [q Hq]. rewrite Hq.
        rewrite <- Hq. apply Hgo; [rewrite Hq; eauto|auto|auto].
      - destruct (net_contains n1 n2) eqn:C2.
        + destruct (IPv4Network_is_Some _ _ Hn2) as [q Hq]. rewrite Hq.
          rewrite <- Hq. apply Hgo; [rewrite Hq; eauto|auto|auto].
        + left. split; [reflexivity|]. exists "dstip". split; [left|].
          split; [exact Hf|]. simpl. exists n1, n2. auto. }
    assert (is_ip f = false) as Hip.
    { unfold is_ip. rewrite !bool_decide_eq_false_2 by assumption.
      reflexivity. }
    unfold py_ne. destruct (decide (m1 !!! f <> m2 !!! f)) as [Hne|Heq].
    + rewrite bool_decide_eq_true_2 by assumption.
      left. split; [reflexivity|]. exists f. split; [left|].
      split; [exact Hf|]. rewrite Hip. exact Hne.
    + rewrite bool_decide_eq_false_2 by assumption.
      destruct (IH src dst) as [[E (g & Hg & Hcf)]|
                                (s' & d' & E & Hnc & Hs1 & Hs2 & Hd1 & Hd2)].
      * left. split; [exact E|]. exists g. split; [right; exact Hg|exact Hcf].
      * right. exists s', d'. split; [exact E|]. split5.
        -- intros g Hg. apply elem_of_cons in Hg as [->|Hg]; [|auto].
           intros [_ Hcf]. rewrite Hip in Hcf. contradiction.
        -- intros Hin. apply elem_of_cons in Hin as [Hin|Hin];
             [congruence|auto].
        -- intros Hn. apply Hs2. intros Hin. apply Hn. right. exact Hin.
        -- intros Hin. apply elem_of_cons in Hin as [Hin|Hin];
             [congruence|auto].
        -- intros Hn. apply Hd2. intros Hin. apply Hn. right. exact Hin.
Qed.

End IntersectLoop.

Lemma elem_of_shared (m1 m2 : Map) (f : string) :
  f ∈ elements (dom m1 ∩ dom m2) <-> shared_field m1 m2 f.
Proof.
  rewrite elem_of_elements, elem_of_intersection, !elem_of_dom. reflexivity.
Qed.

Lemma more_specific_is_Some (p p1 p2 : Pattern) :
  more_specific p p1 p2 -> is_Some p.
Proof.
  intros (_ & n & _ & _ & Hn & _). eapply IPv4Network_is_Some, Hn.
Qed.

(** The two outcomes of [intersect] on two matches. *)
Lemma intersect_cases (m1 m2 : Map) :
  cidr_shared m1 m2 ->
  (intersect m1 (match_ m2) = Ok drop /\ exists f, conflict_at m1 m2 f) \/
  (exists d,
     intersect m1 (match_ m2) = Ok (match_ d) /\
     (forall f, ~ conflict_at m1 m2 f) /\
     (forall f, is_ip f = true -> shared_field m1 m2 f ->
        exists p, d !! f = Some p /\
                  more_specific p (m1 !!! f) (m2 !!! f)) /\
     (forall f, ~ (is_ip f = true /\ shared_field m1 m2 f) ->
        d !! f = (m2 ∪ m1) !! f)).
Proof.
  intros Hcidr. unfold intersect. simpl.
  destruct (decide (m2 = ∅)) as [->|Hne].
  { rewrite bool_decide_eq_true_2 by reflexivity.
    right. exists m1. split; [reflexivity|].
    assert (forall f, ~ shared_field m1 ∅ f) as Hno.
    { intros f [_ [x Hx]]. rewrite lookup_empty in Hx. discriminate. }
    repeat split.
    - intros f [Hs _]. exact (Hno f Hs).
    - intros f _ Hs. destruct (Hno f Hs).
    - intros f _. rewrite (left_id_L ∅ (∪)). reflexivity. }
  rewrite bool_decide_eq_false_2 by assumption.
  destruct (intersect_loop_spec m1 m2 Hcidr (elements (dom m1 ∩ dom m2))
              (fun f Hf => proj1 (elem_of_shared m1 m2 f) Hf) None None)
    as [[E (f & Hf & Hc)]|(s' & d' & E & Hnc & Hs1 & Hs2 & Hd1 & Hd2)].
  { left. rewrite E. simpl. split; [reflexivity|]. exists f. exact Hc. }
  right. rewrite E. simpl. eexists. split; [reflexivity|].
  assert (forall f, ~ conflict_at m1 m2 f) as Hnc'.
  { intros f Hc. apply (Hnc f); [|exact Hc].
    apply elem_of_shared. destruct Hc as [Hs _]. exact Hs. }
  split; [exact Hnc'|].
  assert (s' = None <-> ~ shared_field m1 m2 "srcip") as Hsn.
  { rewrite <- elem_of_shared. split.
    - intros -> Hin. destruct (more_specific_is_Some _ _ _ (Hs1 Hin)).
      discriminate.
    - apply Hs2. }
  assert (d' = None <-> ~ shared_field m1 m2 "dstip") as Hdn.
  { rewrite <- elem_of_shared. split.
    - intros -> Hin. destruct (more_specific_is_Some _ _ _ (Hd1 Hin)).
      discriminate.
    - apply Hd2. }
  split.
  - intros f Hip Hsh. apply is_ip_true in Hip as [->| ->].
    + exists s'. split; [|apply Hs1, elem_of_shared, Hsh].
      destruct s' as [q|]; [|exfalso; apply (proj1 Hsn eq_refl), Hsh].
      destruct d' as [r|].
      * rewrite lookup_insert_ne by discriminate. apply lookup_insert_eq.
      * apply lookup_insert_eq.
    + exists d'. split; [|apply Hd1, elem_of_shared, Hsh].
      destruct d' as [r|]; [|exfalso; apply (proj1 Hdn eq_refl), Hsh].
      apply lookup_insert_eq.
  - intros f Hn.
    assert (s' <> None -> f <> "srcip") as Hfs.
    { intros Hs ->. apply Hn. split; [reflexivity|].
      destruct (decide (shared_field m1 m2 "srcip")) as [H|H]; [exact H|].
      destruct (Hs (proj2 Hsn H)). }
    assert (d' <> None -> f <> "dstip") as Hfd.
    { intros Hd ->. apply Hn. split; [reflexivity|].
      destruct (decide (shared_field m1 m2 "dstip")) as [H|H]; [exact H|].
      destruct (Hd (proj2 Hdn H)). }
    destruct s' as [q|], d' as [r|].
    + rewrite !lookup_insert_ne; [reflexivity| |];
        apply not_eq_sym; [apply Hfs|apply Hfd]; discriminate.
    + rewrite lookup_insert_ne; [reflexivity|].
      apply not_eq_sym, Hfs. discriminate.
    + rewrite lookup_insert_ne; [reflexivity|].
      apply not_eq_sym, Hfd. discriminate.
    + reflexivity.
Qed.

Lemma more_specific_field_ok (pkt : Packet) (f : string) (p p1 p2 : Pattern) :
  more_specific p p1 p2 ->
  field_ok pkt f p = true <->
  field_ok pkt f p1 = true /\ field_ok pkt f p2 = true.
Proof.
  intros (Hor & n & n1 & n2 & Hn & Hn1 & Hn2 & Hc1 & Hc2).
  rewrite (field_ok_network pkt f p n Hn),
    (field_ok_network pkt f p1 n1 Hn1), (field_ok_network pkt f p2 n2 Hn2).
  split.
  - intros (x & Hx & Hin).
    split; exists x; (split; [exact Hx|]);
      eapply net_contains_addr_mono; eassumption.
  - intros [(x & Hx & Hin1) (y & Hy & Hin2)].
    rewrite Hx in Hy. injection Hy as <-.
    destruct Hor as [-> | ->].
    + rewrite Hn in Hn1. injection Hn1 as ->. eauto.
    + rewrite Hn in Hn2. injection Hn2 as ->. eauto.
Qed.

(** The meet keeps exactly the packets that both matches keep. *)
Lemma intersect_matches (m1 m2 d : Map) :
  cidr_shared m1 m2 ->
  intersect m1 (match_ m2) = Ok (match_ d) ->
  forall pkt, keeps d pkt <-> keeps m1 pkt /\ keeps m2 pkt.
Proof.
  intros Hcidr Hd pkt.
  destruct (intersect_cases m1 m2 Hcidr) as [[E _]|(d0 & E & Hnc & Hip & Hoth)].
  { rewrite E in Hd. discriminate. }
  rewrite E in Hd. injection Hd as ->.
  unfold keeps. rewrite !_match_eval_field_ok.
  assert (forall f, is_ip f = false -> shared_field m1 m2 f ->
            m1 !! f = m2 !! f) as Heq.
  { intros f Hf Hs. destruct (decide (m1 !!! f = m2 !!! f)) as [H|H].
    - destruct Hs as [[p1 H1] [p2 H2]].
      rewrite (lookup_total_correct _ _ _ H1),
        (lookup_total_correct _ _ _ H2) in H. congruence.
    - exfalso. apply (Hnc f). split; [exact Hs|]. rewrite Hf. exact H. }
  split.
  - intros H. split; intros f p Hf.
    + destruct (decide (shared_field m1 m2 f)) as [Hs|Hns].
      * destruct (is_ip f) eqn:Ef.
        -- destruct (Hip f Ef Hs) as (q & Hq & Hms).
           rewrite (lookup_total_correct _ _ _ Hf) in Hms.
           apply (more_specific_field_ok pkt f _ _ _ Hms), (H f q Hq).
        -- apply (H f p). rewrite Hoth by (intros [? _]; congruence).
           rewrite lookup_union_l'; [|rewrite <- (Heq f Ef Hs); eauto].
           rewrite <- (Heq f Ef Hs). exact Hf.
      * apply (H f p). rewrite Hoth by (intros [_ ?]; contradiction).
        rewrite lookup_union_r; [exact Hf|].
        destruct (m2 !! f) eqn:E2; [|reflexivity].
        exfalso. apply Hns. split; eauto.
    + destruct (decide (shared_field m1 m2 f)) as [Hs|Hns].
      * destruct (is_ip f) eqn:Ef.
        -- destruct (Hip f Ef Hs) as (q & Hq & Hms).
           rewrite (lookup_total_correct _ _ _ Hf) in Hms.
           apply (more_specific_field_ok pkt f _ _ _ Hms), (H f q Hq).
        -- apply (H f p). rewrite Hoth by (intros [? _]; congruence).
           rewrite lookup_union_l'; [exact Hf|eauto].
      * apply (H f p). rewrite Hoth by (intros [_ ?]; contradiction).
        rewrite lookup_union_l'; [exact Hf|eauto].
  - intros [H1 H2] f p Hf.
    destruct (decide (is_ip f = true /\ shared_field m1 m2 f)) as [[Ef Hs]|Hn].
    + destruct (Hip f Ef Hs) as (q & Hq & Hms).
      rewrite Hf in Hq. injection Hq as <-.
      apply (more_specific_field_ok pkt f _ _ _ Hms).
      destruct Hs as [[p1 Hp1] [p2 Hp2]].
      rewrite (lookup_total_correct _ _ _ Hp1),
        (lookup_total_correct _ _ _ Hp2). eauto.
    + rewrite (Hoth f Hn) in Hf.
      apply lookup_union_Some_raw in Hf as [Hf|[_ Hf]]; eauto.
Qed.

Lemma intersect_fields (m1 m2 d : Map) (f : string) :
  cidr_shared m1 m2 ->
  intersect m1 (match_ m2) = Ok (match_ d) ->
  is_Some (d !! f) -> is_Some (m1 !! f) \/ is_Some (m2 !! f).
Proof.
  intros Hcidr Hd [p Hp].
  destruct (intersect_cases m1 m2 Hcidr) as [[E _]|(d0 & E & _ & _ & Hoth)].
  { rewrite E in Hd. discriminate. }
  rewrite E in Hd. injection Hd as ->.
  destruct (decide (is_ip f = true /\ shared_field m1 m2 f)) as [[_ [H _]]|Hn].
  - left. exact H.
  - rewrite (Hoth f Hn) in Hp.
    apply lookup_union_Some_raw in Hp as [Hp|[_ Hp]]; eauto.
Qed.


Lemma cidr_shared_scenario_3 :
  cidr_shared {[ "srcip" := Some (PNet (ip24 10 0 0 0) 8) ]}
              {[ "srcip" := Some (PNet (ip24 10 1 0 0) 16) ]}.
Proof.
  intros f Hf [[p1 H1] _]. apply is_ip_true in Hf as [-> | ->].
  - exists (mkNet (ip24 10 0 0 0) 8), (mkNet (ip24 10 1 0 0) 16).
    split; vm_compute; reflexivity.
  - vm_compute in H1. discriminate.
Defined.


(** ** Evaluation only adds captures *)

Lemma run_den_ret (o : gset Packet) : framed (ret o).
Proof.
  intros s. unfold ret, den, run. simpl.
  rewrite (left_id_L ∅ (∪)). reflexivity.
Qed.

Lemma framed_raise : framed (raise IndexError).
Proof. intros s. reflexivity. Qed.

Lemma framed_Query_eval (b : nat) (pkt : Packet) : framed (Query_eval b pkt).
Proof.
  intros s. unfold Query_eval, den, run. simpl.
  rewrite (right_id_L ∅ (∪)). reflexivity.
Qed.

Lemma den_bind (m : M (gset Packet)) (k : gset Packet -> M (gset Packet)) :
  (forall o, framed (k o)) ->
  den (bind m k) = dbind (den m) (fun o => den (k o)).
Proof.
  intros Hk. unfold den at 1 2, bind, dbind.
  destruct (m ∅) as [[o c]|e]; [|reflexivity].
  rewrite (Hk o c). unfold run.
  destruct (den (k o)) as [[o' c']|]; reflexivity.
Qed.

Lemma framed_bind (m : M (gset Packet)) (k : gset Packet -> M (gset Packet)) :
  framed m -> (forall o, framed (k o)) -> framed (bind m k).
Proof.
  intros Hm Hk s. rewrite (den_bind m k Hk).
  unfold bind. rewrite (Hm s). unfold run, dbind.
  destruct (den m) as [[o c]|]; [|reflexivity].
  rewrite (Hk o (c ∪ s)). unfold run.
  destruct (den (k o)) as [[o' c']|]; [|reflexivity].
  rewrite (assoc_L (∪)). reflexivity.
Qed.

Lemma framed_ext (m m' : M (gset Packet)) :
  (forall s, m s = m' s) -> framed m -> framed m'.
Proof.
  intros H Hm s. unfold den. rewrite <- !H. apply Hm.
Qed.

Lemma framed_eq (m m' : M (gset Packet)) :
  framed m -> framed m' -> den m = den m' -> forall s, m s = m' s.
Proof. intros Hm Hm' H s. rewrite (Hm s), (Hm' s), H. reflexivity. Qed.

Lemma framed_eval_each (f : Packet -> M (gset Packet)) (l : list Packet) :
  (forall x, framed (f x)) -> forall acc, framed (eval_each f l acc).
Proof.
  intros Hf. induction l as [|x r IH]; intros acc; simpl.
  - apply run_den_ret.
  - apply framed_bind; [apply Hf|]. intros o. apply IH.
Qed.

Lemma framed_if (b : bool) (m1 m2 : M (gset Packet)) :
  framed m1 -> framed m2 -> framed (if b then m1 else m2).
Proof. destruct b; auto. Qed.

Section EvalFacts.
Variable vlan_encode : Map -> Map.
Variable vlan_encode_mod : ModMap -> ModMap.

Local Abbreviation eval := (eval vlan_encode vlan_encode_mod).
Local Abbreviation par_loop := (par_loop vlan_encode vlan_encode_mod).
Local Abbreviation seq_loop := (seq_loop vlan_encode vlan_encode_mod).

Lemma eval_parallel (ps : list Policy) (pkt : Packet) (s : Store) :
  eval (parallel ps) pkt s = par_loop pkt ps ∅ s.
Proof.
  simpl. generalize (∅ : gset Packet). revert s.
  induction ps as [|q r IH]; intros s acc; simpl; [reflexivity|].
  unfold bind. destruct (eval q pkt s) as [[o s']|e]; [apply IH|reflexivity].
Qed.

Lemma eval_union (ps : list Policy) (pkt : Packet) (s : Store) :
  eval (union ps) pkt s = par_loop pkt ps ∅ s.
Proof.
  simpl. generalize (∅ : gset Packet). revert s.
  induction ps as [|q r IH]; intros s acc; simpl; [reflexivity|].
  unfold bind. destruct (eval q pkt s) as [[o s']|e]; [apply IH|reflexivity].
Qed.

Lemma eval_sequential (ps : list Policy) (pkt : Packet) (s : Store) :
  eval (sequential ps) pkt s = seq_loop ps {[ pkt ]} s.
Proof.
  simpl. generalize ({[ pkt ]} : gset Packet). revert s.
  induction ps as [|q r IH]; intros s prev; simpl; [reflexivity|].
  destruct (truthy prev); [|reflexivity].
  destruct (eq_identity q); [apply IH|].
  destruct (eq_drop q); [reflexivity|].
  unfold bind.
  destruct (eval_each (eval q) (elements prev) ∅ s) as [[o s']|e];
    [apply IH|reflexivity].
Qed.

Lemma eval_intersection (ps : list Policy) (pkt : Packet) (s : Store) :
  eval (intersection ps) pkt s = seq_loop ps {[ pkt ]} s.
Proof.
  simpl. generalize ({[ pkt ]} : gset Packet). revert s.
  induction ps as [|q r IH]; intros s prev; simpl; [reflexivity|].
  destruct (truthy prev); [|reflexivity].
  destruct (eq_identity q); [apply IH|].
  destruct (eq_drop q); [reflexivity|].
  unfold bind.
  destruct (eval_each (eval q) (elements prev) ∅ s) as [[o s']|e];
    [apply IH|reflexivity].
Qed.

Lemma framed_par_loop (pkt : Packet) (ps : list Policy) :
  Forall (fun p => forall pkt, framed (eval p pkt)) ps ->
  forall acc, framed (par_loop pkt ps acc).
Proof.
  induction 1 as [|q r Hq _ IH]; intros acc; simpl.
  - apply run_den_ret.
  - apply framed_bind; [apply Hq|]. intros o. apply IH.
Qed.

Lemma framed_seq_loop (ps : list Policy) :
  Forall (fun p => forall pkt, framed (eval p pkt)) ps ->
  forall prev, framed (seq_loop ps prev).
Proof.
  induction 1 as [|q r Hq _ IH]; intros prev; simpl.
  - apply run_den_ret.
  - repeat apply framed_if; auto using run_den_ret.
    apply framed_bind; [|apply IH].
    apply framed_eval_each. exact Hq.
Qed.

(** Every evaluation only adds captures to the store it is given, and the
    only exception it can raise is [IndexError]. *)
Lemma framed_eval (p : Policy) : forall pkt, framed (eval p pkt).
Proof.
  induction p using Policy_nested_ind; intros pkt;
    try (simpl; first [apply run_den_ret | apply framed_Query_eval]).
  - destruct ps as [|q r]; simpl; [apply framed_raise|].
    apply framed_bind; [apply (Forall_inv H)|].
    intros o. apply framed_if; apply run_den_ret.
  - eapply framed_ext; [intros s; symmetry; apply eval_parallel|].
    apply framed_par_loop, H.
  - eapply framed_ext; [intros s; symmetry; apply eval_union|].
    apply framed_par_loop, H.
  - eapply framed_ext; [intros s; symmetry; apply eval_sequential|].
    apply framed_seq_loop, H.
  - eapply framed_ext; [intros s; symmetry; apply eval_intersection|].
    apply framed_seq_loop, H.
  - simpl. apply IHp3.
  - simpl. apply framed_bind; [apply IHp1|].
    intros o. apply framed_if; auto.
  - simpl. apply IHp.
  - simpl. apply IHp.
  - simpl. apply IHp.
  - simpl. apply IHp.
Qed.

Lemma eval_run (p : Policy) (pkt : Packet) (s : Store) :
  eval p pkt s = run (den (eval p pkt)) s.
Proof. apply framed_eval. Qed.

End EvalFacts.

(** ** Query buckets *)

Lemma elem_of_bucket_of (s : Store) (b : nat) (pkt : Packet) :
  pkt ∈ bucket_of s b <-> (b, pkt) ∈ s.
Proof.
  unfold bucket_of. rewrite elem_of_set_omap. split.
  - intros ([b' x] & Hin & Hx). simpl in Hx.
    destruct (decide (b' = b)) as [->|]; [|discriminate].
    injection Hx as ->. exact Hin.
  - intros H. exists (b, pkt). split; [exact H|]. simpl.
    rewrite decide_True by reflexivity. reflexivity.
Qed.

Lemma bucket_of_add (s : Store) (b : nat) (pkt : Packet) :
  bucket_of ({[ (b, pkt) ]} ∪ s) b = {[ pkt ]} ∪ bucket_of s b.
Proof.
  apply set_eq. intros x.
  rewrite elem_of_union, elem_of_singleton, !elem_of_bucket_of,
    elem_of_union, elem_of_singleton.
  split; intros [H|H]; auto; [injection H as ->; auto | subst; auto].
Qed.

Lemma bucket_of_add_ne (s : Store) (b b' : nat) (pkt : Packet) :
  b' <> b -> bucket_of ({[ (b, pkt) ]} ∪ s) b' = bucket_of s b'.
Proof.
  intros Hne. apply set_eq. intros x.
  rewrite !elem_of_bucket_of, elem_of_union, elem_of_singleton.
  split; [intros [H|H]; [congruence|exact H] | auto].
Qed.

Lemma output_run (d : Den) (s1 s2 : Store) :
  output (run d s1) = output (run d s2).
Proof. destruct d as [[o c]|]; reflexivity. Qed.

Section QueryFacts.
Variable vlan_encode : Map -> Map.
Variable vlan_encode_mod : ModMap -> ModMap.
Local Abbreviation eval := (eval vlan_encode vlan_encode_mod).

Lemma eval_output_store (p : Policy) (pkt : Packet) (s1 s2 : Store) :
  output (eval p pkt s1) = output (eval p pkt s2).
Proof.
  rewrite (eval_run _ _ p pkt s1), (eval_run _ _ p pkt s2).
  apply output_run.
Qed.

(** A query bucket composed in parallel leaves the packets returned by
    the other policy as they are. *)
Lemma parallel_query_output (p q : Policy) (b : nat) (pkt : Packet) (s : Store) :
  q = FwdBucket b \/ q = PathBucket b \/ q = CountBucket b ->
  output (eval (parallel [p; q]) pkt s) = output (eval p pkt s).
Proof.
  intros Hq. simpl. unfold bind.
  destruct (eval p pkt s) as [[o s']|e]; [|reflexivity].
  assert (eval q pkt s' = Ok (∅, {[ (b, pkt) ]} ∪ s')) as ->
    by (destruct Hq as [->|[->| ->]]; reflexivity).
  simpl. rewrite (left_id_L ∅ (∪)), (right_id_L ∅ (∪)). reflexivity.
Qed.

End QueryFacts.

(** C10: evaluating a query bucket ([FwdBucket], [PathBucket] or
    [CountBucket]) on a packet adds the packet to the capture set of that
    bucket, leaves the other buckets as they are, and returns the empty set;
    the packets any policy returns do not depend on what the buckets hold,
    and a bucket composed in parallel with a policy does not change the
    packets returned. *)
Theorem C10_query_eval (enc : Map -> Map) (enc_mod : ModMap -> ModMap)
  (b : nat) (pkt : Packet) (s : Store) :
  eval enc enc_mod (FwdBucket b) pkt s = Ok (∅, {[ (b, pkt) ]} ∪ s) /\
  eval enc enc_mod (PathBucket b) pkt s = Ok (∅, {[ (b, pkt) ]} ∪ s) /\
  eval enc enc_mod (CountBucket b) pkt s = Ok (∅, {[ (b, pkt) ]} ∪ s) /\
  bucket_of ({[ (b, pkt) ]} ∪ s) b = {[ pkt ]} ∪ bucket_of s b /\
  (forall b', b' <> b -> bucket_of ({[ (b, pkt) ]} ∪ s) b' = bucket_of s b') /\
  (forall p pkt' s1 s2,
     output (eval enc enc_mod p pkt' s1) = output (eval enc enc_mod p pkt' s2)) /\
  (forall p q,
     q = FwdBucket b \/ q = PathBucket b \/ q = CountBucket b ->
     output (eval enc enc_mod (parallel [p; q]) pkt s) =
     output (eval enc enc_mod p pkt s)).
Proof.
  split; [reflexivity|]. split; [reflexivity|]. split; [reflexivity|].
  split; [apply bucket_of_add|].
  split; [intros b'; apply bucket_of_add_ne|].
  split; [apply eval_output_store|].
  intros p q Hq. eapply parallel_query_output, Hq.
Qed.

(** ** Filters *)

Lemma elements_singleton_packet (pkt : Packet) :
  elements ({[ pkt ]} : gset Packet) = [pkt].
Proof. apply elements_singleton. Qed.

Lemma truthy_singleton (pkt : Packet) : truthy {[ pkt ]} = true.
Proof. apply bool_decide_eq_true_2, singleton_ne_empty. Qed.

Lemma truthy_empty : truthy ∅ = false.
Proof. apply bool_decide_eq_false_2. intros H. apply H. reflexivity. Qed.

Lemma passes_bind (m : M (gset Packet)) (k : gset Packet -> M (gset Packet))
  (pkt : Packet) (s s' : Store) (o : gset Packet) :
  m s = Ok (o, s') -> passes_or_drops (k o) pkt s' ->
  passes_or_drops (bind m k) pkt s.
Proof. intros E H. unfold passes_or_drops, bind. rewrite E. exact H. Qed.

Section FilterFacts.
Variable vlan_encode : Map -> Map.
Variable vlan_encode_mod : ModMap -> ModMap.
Local Abbreviation eval := (eval vlan_encode vlan_encode_mod).
Local Abbreviation par_loop := (par_loop vlan_encode vlan_encode_mod).
Local Abbreviation seq_loop := (seq_loop vlan_encode vlan_encode_mod).

Local Abbreviation filter_ok := (filter_ok vlan_encode vlan_encode_mod).

Lemma par_loop_filters (pkt : Packet) (ps : list Policy) :
  Forall filter_ok ps -> forallb filter_tree ps = true ->
  forall acc s, acc = {[ pkt ]} \/ acc = ∅ ->
  passes_or_drops (par_loop pkt ps acc) pkt s.
Proof.
  induction 1 as [|q r Hq _ IH]; intros Hall acc s Hacc; simpl.
  - exists acc, s. auto.
  - simpl in Hall. apply andb_true_iff in Hall as [Hfq Hfr].
    destruct (Hq Hfq pkt s) as (o & s' & E & Ho).
    apply (passes_bind _ _ _ _ _ _ E). apply IH; [exact Hfr|].
    destruct Hacc as [-> | ->], Ho as [-> | ->].
    + left. apply (idemp_L (∪)).
    + left. apply (right_id_L ∅ (∪)).
    + left. apply (left_id_L ∅ (∪)).
    + right. apply (left_id_L ∅ (∪)).
Qed.

Lemma seq_loop_filters (pkt : Packet) (ps : list Policy) :
  Forall filter_ok ps -> forallb filter_tree ps = true ->
  forall prev s, prev = {[ pkt ]} \/ prev = ∅ ->
  passes_or_drops (seq_loop ps prev) pkt s.
Proof.
  induction 1 as [|q r Hq _ IH]; intros Hall prev s Hprev; simpl.
  - exists prev, s. auto.
  - simpl in Hall. apply andb_true_iff in Hall as [Hfq Hfr].
    destruct Hprev as [-> | ->].
    + rewrite truthy_singleton.
      destruct (eq_identity q); [apply IH; auto|].
      destruct (eq_drop q); [exists ∅, s; auto|].
      rewrite elements_singleton_packet. simpl.
      destruct (Hq Hfq pkt s) as (o & s' & E & Ho).
      eapply passes_bind.
      { unfold bind. rewrite E. reflexivity. }
      apply IH; [exact Hfr|]. rewrite (left_id_L ∅ (∪)). exact Ho.
    + rewrite truthy_empty. exists ∅, s. auto.
Qed.

Lemma filter_tree_eval (p : Policy) : filter_ok p.
Proof.
  induction p using Policy_nested_ind; intros Hf pkt s;
    try discriminate Hf.
  - exists {[ pkt ]}, s. auto.
  - exists ∅, s. auto.
  - exists ∅, s. auto.
  - eexists _, s. split; [reflexivity|]. apply _match_eval_cases.
  - eexists _, s. split; [reflexivity|]. apply _match_eval_cases.
  - eexists _, _. split; [reflexivity|]. auto.
  - eexists _, _. split; [reflexivity|]. auto.
  - eexists _, _. split; [reflexivity|]. auto.
  - destruct ps as [|q r]; [discriminate Hf|]. simpl in Hf.
    destruct (Forall_inv H Hf pkt s) as (o & s' & E & _).
    simpl. apply (passes_bind _ _ _ _ _ _ E).
    destruct (truthy o); eexists _, _; (split; [reflexivity|]); auto.
  - unfold passes_or_drops. rewrite eval_union.
    apply par_loop_filters; auto.
  - unfold passes_or_drops. rewrite eval_intersection.
    apply seq_loop_filters; auto.
  - simpl in *. apply IHp3; assumption.
  - simpl in *. apply IHp; assumption.
Qed.

End FilterFacts.


(** ** Sequential composition *)

Lemma forallb_is_Some (g : Packet -> Den) (l : list Packet) :
  forallb (fun x => bool_decide (is_Some (g x))) l = true <->
  forall x, x ∈ l -> is_Some (g x).
Proof.
  rewrite forallb_forall. split; intros H x Hx.
  - apply list_elem_of_In in Hx. apply H in Hx.
    apply bool_decide_eq_true in Hx. exact Hx.
  - apply bool_decide_eq_true, H, list_elem_of_In, Hx.
Qed.

Lemma den_eval_each (f : Packet -> M (gset Packet)) (l : list Packet) :
  (forall x, framed (f x)) ->
  forall acc,
  den (eval_each f l acc) =
  if forallb (fun x => bool_decide (is_Some (den (f x)))) l
  then Some (acc ∪ ⋃ ((fun x => d_out (den (f x))) <$> l),
             ⋃ ((fun x => d_cap (den (f x))) <$> l))
  else None.
Proof.
  intros Hf. induction l as [|x r IH]; intros acc; simpl.
  - unfold den, ret. simpl. rewrite (right_id_L ∅ (∪)). reflexivity.
  - rewrite den_bind by (intros o; apply framed_eval_each, Hf).
    destruct (den (f x)) as [[o c]|] eqn:E; simpl; [|reflexivity].
    try rewrite bool_decide_eq_true_2 by eauto. simpl.
    rewrite IH.
    destruct (forallb _ r); [|reflexivity].
    rewrite (assoc_L (∪)), (comm_L (∪) c). reflexivity.
Qed.

Lemma den_eval_each_elements (f : Packet -> M (gset Packet)) (A : gset Packet) :
  (forall x, framed (f x)) ->
  den (eval_each f (elements A) ∅) = dbig (fun x => den (f x)) A.
Proof.
  intros Hf. rewrite den_eval_each by exact Hf. unfold dbig.
  destruct (forallb _ _); [|reflexivity].
  rewrite (left_id_L ∅ (∪)). reflexivity.
Qed.

Lemma dbig_None (g : Packet -> Den) (A : gset Packet) :
  dbig g A = None <-> exists x, x ∈ A /\ g x = None.
Proof.
  unfold dbig.
  destruct (forallb _ _) eqn:E.
  - split; [discriminate|]. intros (x & Hx & Hg).
    rewrite forallb_is_Some in E.
    destruct (E x) as [r Hr]; [apply elem_of_elements, Hx|congruence].
  - split; [intros _|reflexivity].
    destruct (decide (Exists (fun x => g x = None) (elements A))) as [H|H].
    + apply Exists_exists in H as (x & Hx & Hg).
      exists x. split; [apply elem_of_elements, Hx|exact Hg].
    + exfalso. apply not_Exists_Forall in H; [|intros x; apply _].
      assert (forallb (fun x => bool_decide (is_Some (g x))) (elements A) = true)
        as E'; [|congruence].
      apply forallb_is_Some. intros x Hx.
      rewrite Forall_forall in H. specialize (H x Hx). simpl in H.
      destruct (g x); [eauto|contradiction].
Qed.

Lemma dbig_out (g : Packet -> Den) (A : gset Packet) (y : Packet) :
  dbig g A <> None ->
  y ∈ d_out (dbig g A) <-> exists x, x ∈ A /\ y ∈ d_out (g x).
Proof.
  unfold dbig. destruct (forallb _ _); [intros _|contradiction].
  simpl. rewrite elem_of_union_list. split.
  - intros (X & HX & Hy). apply list_elem_of_fmap in HX as (x & -> & Hx).
    exists x. split; [apply elem_of_elements, Hx|exact Hy].
  - intros (x & Hx & Hy). exists (d_out (g x)). split; [|exact Hy].
    apply list_elem_of_fmap. exists x. split; [reflexivity|].
    apply elem_of_elements, Hx.
Qed.

Lemma dbig_cap (g : Packet -> Den) (A : gset Packet) (z : nat * Packet) :
  dbig g A <> None ->
  z ∈ d_cap (dbig g A) <-> exists x, x ∈ A /\ z ∈ d_cap (g x).
Proof.
  unfold dbig. destruct (forallb _ _); [intros _|contradiction].
  simpl. rewrite elem_of_union_list. split.
  - intros (X & HX & Hy). apply list_elem_of_fmap in HX as (x & -> & Hx).
    exists x. split; [apply elem_of_elements, Hx|exact Hy].
  - intros (x & Hx & Hy). exists (d_cap (g x)). split; [|exact Hy].
    apply list_elem_of_fmap. exists x. split; [reflexivity|].
    apply elem_of_elements, Hx.
Qed.

Lemma den_ext (d1 d2 : Den) :
  (d1 = None <-> d2 = None) ->
  (d1 <> None -> d2 <> None ->
   (forall y, y ∈ d_out d1 <-> y ∈ d_out d2) /\
   (forall z, z ∈ d_cap d1 <-> z ∈ d_cap d2)) ->
  d1 = d2.
Proof.
  intros Hn Hs. destruct d1 as [[o1 c1]|], d2 as [[o2 c2]|].
  - destruct Hs as [Ho Hc]; [discriminate|discriminate|].
    simpl in *. f_equal. f_equal; apply set_eq; assumption.
  - destruct Hn as [_ Hn]. discriminate (Hn eq_refl).
  - destruct Hn as [Hn _]. discriminate (Hn eq_refl).
  - reflexivity.
Qed.

Lemma dbig_empty (g : Packet -> Den) : dbig g ∅ = Some (∅, ∅).
Proof. unfold dbig. rewrite elements_empty. reflexivity. Qed.

Lemma dbig_singleton (g : Packet -> Den) (x : Packet) : dbig g {[ x ]} = g x.
Proof.
  unfold dbig. rewrite elements_singleton. simpl.
  destruct (g x) as [[o c]|]; simpl; [|reflexivity].
  rewrite !(right_id_L ∅ (∪)). reflexivity.
Qed.

Lemma dbig_const_empty (A : gset Packet) :
  dbig (fun _ => Some (∅, ∅)) A = Some (∅, ∅).
Proof.
  apply den_ext.
  - split; [|discriminate]. intros H. apply dbig_None in H as (x & _ & H).
    discriminate.
  - intros H _. split; intros y.
    + rewrite (dbig_out _ _ _ H). simpl. split.
      * intros (x & _ & Hy). exact Hy.
      * intros Hy. destruct (not_elem_of_empty _ Hy).
    + rewrite (dbig_cap _ _ _ H). simpl. split.
      * intros (x & _ & Hy). exact Hy.
      * intros Hy. destruct (not_elem_of_empty _ Hy).
Qed.

Lemma dbig_unit (A : gset Packet) :
  dbig (fun x => Some ({[ x ]}, ∅)) A = Some (A, ∅).
Proof.
  apply den_ext.
  - split; [|discriminate]. intros H. apply dbig_None in H as (x & _ & H).
    discriminate.
  - intros H _. split; intros y.
    + rewrite (dbig_out _ _ _ H). simpl. split.
      * intros (x & Hx & Hy). apply elem_of_singleton in Hy as ->. exact Hx.
      * intros Hy. exists y. split; [exact Hy|]. apply elem_of_singleton.
        reflexivity.
    + rewrite (dbig_cap _ _ _ H). simpl. split.
      * intros (x & _ & Hy). exact Hy.
      * intros Hy. destruct (not_elem_of_empty _ Hy).
Qed.

Lemma dbig_ext (g h : Packet -> Den) (A : gset Packet) :
  (forall x, x ∈ A -> g x = h x) -> dbig g A = dbig h A.
Proof.
  intros H. unfold dbig.
  assert (forall l, (forall x, x ∈ l -> g x = h x) ->
            forallb (fun x => bool_decide (is_Some (g x))) l =
            forallb (fun x => bool_decide (is_Some (h x))) l /\
            (fun x => d_out (g x)) <$> l = (fun x => d_out (h x)) <$> l /\
            (fun x => d_cap (g x)) <$> l = (fun x => d_cap (h x)) <$> l) as Hl.
  { induction l as [|x r IH]; intros Hr; [auto|].
    destruct IH as (E1 & E2 & E3); [intros y Hy; apply Hr; right; exact Hy|].
    assert (g x = h x) as Ex by (apply Hr; left).
    split; [simpl; rewrite Ex, E1; reflexivity|].
    split; rewrite !fmap_cons, Ex; [rewrite E2|rewrite E3]; reflexivity. }
  destruct (Hl (elements A)) as (-> & -> & ->); [|reflexivity].
  intros x Hx. apply H, elem_of_elements, Hx.
Qed.

Lemma dbind_None (d : Den) (k : gset Packet -> Den) :
  dbind d k = None <-> d = None \/ k (d_out d) = None.
Proof.
  destruct d as [[o c]|]; simpl; [|split; auto].
  destruct (k o) as [[o' c']|].
  - split; [discriminate|]. intros [H|H]; discriminate.
  - split; auto.
Qed.

Lemma dbind_out (d : Den) (k : gset Packet -> Den) :
  dbind d k <> None -> d_out (dbind d k) = d_out (k (d_out d)).
Proof.
  destruct d as [[o c]|]; simpl; [|contradiction].
  destruct (k o) as [[o' c']|]; simpl; [reflexivity|contradiction].
Qed.

Lemma dbind_cap (d : Den) (k : gset Packet -> Den) :
  dbind d k <> None ->
  d_cap (dbind d k) = d_cap (k (d_out d)) ∪ d_cap d.
Proof.
  destruct d as [[o c]|]; simpl; [|contradiction].
  destruct (k o) as [[o' c']|]; simpl; [reflexivity|contradiction].
Qed.

(** Running [g] on all that [f] returns on [A], at once or one packet of
    [A] at a time. *)
Lemma dbig_assoc (f g : Packet -> Den) (A : gset Packet) :
  dbind (dbig f A) (dbig g) = dbig (fun x => dbind (f x) (dbig g)) A.
Proof.
  apply den_ext.
  - rewrite dbind_None, !dbig_None. split.
    + intros [(x & Hx & Hf)|(y & Hy & Hg)].
      * exists x. split; [exact Hx|]. rewrite Hf. reflexivity.
      * destruct (dbig f A) as [[o c]|] eqn:E.
        -- assert (dbig f A <> None) as Hne by (rewrite E; discriminate).
           rewrite <- E in Hy.
           apply (dbig_out _ _ _ Hne) in Hy as (x & Hx & Hy).
           exists x. split; [exact Hx|]. apply dbind_None. right.
           apply dbig_None. eauto.
        -- apply dbig_None in E as (x & Hx & Hf).
           exists x. split; [exact Hx|]. rewrite Hf. reflexivity.
    + intros (x & Hx & Hb). apply dbind_None in Hb as [Hf|Hg].
      * left. eauto.
      * apply dbig_None in Hg as (y & Hy & Hg).
        destruct (dbig f A) as [[o c]|] eqn:E.
        -- right. exists y. split; [|exact Hg].
           assert (dbig f A <> None) as Hne by (rewrite E; discriminate).
           rewrite <- E. apply (dbig_out _ _ _ Hne). eauto.
        -- left. apply dbig_None, E.
  - intros H1 H2.
    assert (dbig f A <> None) as Hf by (intros E; apply H1, dbind_None; auto).
    assert (forall x, x ∈ A -> dbind (f x) (dbig g) <> None) as Hx.
    { intros x Hx E. apply H2, dbig_None. eauto. }
    assert (forall x, x ∈ A -> dbig g (d_out (f x)) <> None) as Hgx.
    { intros x Hin E. apply (Hx x Hin), dbind_None. auto. }
    assert (dbig g (d_out (dbig f A)) <> None) as Hg
      by (intros E; apply H1, dbind_None; auto).
    split.
    + intros y. rewrite (dbind_out _ _ H1), (dbig_out _ _ _ Hg),
        (dbig_out _ _ _ H2). split.
      * intros (z & Hz & Hy). apply (dbig_out _ _ _ Hf) in Hz as (x & Hin & Hz).
        exists x. split; [exact Hin|].
        rewrite (dbind_out _ _ (Hx x Hin)).
        apply (dbig_out _ _ _ (Hgx x Hin)). eauto.
      * intros (x & Hin & Hy). rewrite (dbind_out _ _ (Hx x Hin)) in Hy.
        apply (dbig_out _ _ _ (Hgx x Hin)) in Hy as (z & Hz & Hy).
        exists z. split; [|exact Hy]. apply (dbig_out _ _ _ Hf). eauto.
    + intros y. rewrite (dbind_cap _ _ H1), elem_of_union,
        (dbig_cap _ _ _ Hg), (dbig_cap _ _ _ Hf), (dbig_cap _ _ _ H2). split.
      * intros [(z & Hz & Hy)|(x & Hin & Hy)].
        -- apply (dbig_out _ _ _ Hf) in Hz as (x & Hin & Hz).
           exists x. split; [exact Hin|].
           rewrite (dbind_cap _ _ (Hx x Hin)), elem_of_union. left.
           apply (dbig_cap _ _ _ (Hgx x Hin)). eauto.
        -- exists x. split; [exact Hin|].
           rewrite (dbind_cap _ _ (Hx x Hin)), elem_of_union. auto.
      * intros (x & Hin & Hy).
        rewrite (dbind_cap _ _ (Hx x Hin)), elem_of_union in Hy.
        destruct Hy as [Hy|Hy]; [left|right; eauto].
        apply (dbig_cap _ _ _ (Hgx x Hin)) in Hy as (z & Hz & Hy).
        exists z. split; [|exact Hy]. apply (dbig_out _ _ _ Hf). eauto.
Qed.

Lemma dbind_ext (d : Den) (k k' : gset Packet -> Den) :
  (forall o, k o = k' o) -> dbind d k = dbind d k'.
Proof. intros H. destruct d as [[o c]|]; simpl; [rewrite H|]; reflexivity. Qed.

Lemma den_ext_fun (m m' : M (gset Packet)) :
  (forall s, m s = m' s) -> den m = den m'.
Proof. intros H. unfold den. rewrite H. reflexivity. Qed.

Lemma bind_ext {A B : Type} (m m' : M A) (k k' : A -> M B) (s : Store) :
  (forall s, m s = m' s) -> (forall a s, k a s = k' a s) ->
  bind m k s = bind m' k' s.
Proof.
  intros Hm Hk. unfold bind. rewrite Hm.
  destruct (m' s) as [[a s']|e]; [apply Hk|reflexivity].
Qed.

Section SeqFacts.
Variable vlan_encode : Map -> Map.
Variable vlan_encode_mod : ModMap -> ModMap.
Local Abbreviation eval := (eval vlan_encode vlan_encode_mod).
Local Abbreviation seq_loop := (seq_loop vlan_encode vlan_encode_mod).

Lemma framed_seq_loop_all (ps : list Policy) (prev : gset Packet) :
  framed (seq_loop ps prev).
Proof.
  apply framed_seq_loop. apply Forall_forall. intros p _. apply framed_eval.
Qed.

Lemma seq_loop_empty (qs : list Policy) (s : Store) :
  seq_loop qs ∅ s = ret ∅ s.
Proof. destruct qs; simpl; [|rewrite truthy_empty]; reflexivity. Qed.

Lemma seq_loop_app (ps qs : list Policy) (prev : gset Packet) (s : Store) :
  seq_loop (ps ++ qs) prev s = bind (seq_loop ps prev) (seq_loop qs) s.
Proof.
  revert prev s. induction ps as [|q r IH]; intros prev s; simpl.
  - reflexivity.
  - destruct (truthy prev).
    + destruct (eq_identity q); [apply IH|].
      destruct (eq_drop q).
      * unfold bind, ret at 2. rewrite seq_loop_empty. reflexivity.
      * unfold bind.
        destruct (eval_each (eval q) (elements prev) ∅ s) as [[o s']|e];
          [apply IH|reflexivity].
    + unfold bind, ret at 2. rewrite seq_loop_empty. reflexivity.
Qed.

(** The loop started on a set is the union of the loops started on each of
    its packets. *)
Lemma den_seq_loop_big (qs : list Policy) (A : gset Packet) :
  den (seq_loop qs A) = dbig (fun x => den (seq_loop qs {[ x ]})) A.
Proof.
  revert A. induction qs as [|q r IH]; intros A.
  - simpl. symmetry. apply dbig_unit.
  - simpl. destruct (truthy A) eqn:Et.
    + destruct (eq_identity q) eqn:Ei.
      { rewrite IH. apply dbig_ext. intros x _.
        rewrite truthy_singleton. reflexivity. }
      destruct (eq_drop q) eqn:Ed.
      { transitivity (dbig (fun _ => Some (∅, ∅)) A);
          [symmetry; apply dbig_const_empty|].
        apply dbig_ext. intros x _.
        rewrite truthy_singleton. reflexivity. }
      rewrite den_bind by (intros o; apply framed_seq_loop_all).
      rewrite den_eval_each_elements by (intros x; apply framed_eval).
      rewrite (dbind_ext _ _ _ IH), dbig_assoc.
      apply dbig_ext. intros x _.
      rewrite truthy_singleton.
      rewrite den_bind by (intros o; apply framed_seq_loop_all).
      rewrite den_eval_each_elements by (intros y; apply framed_eval).
      rewrite dbig_singleton. apply dbind_ext. intros o. symmetry. apply IH.
    + apply bool_decide_eq_false in Et.
      assert (A = ∅) as -> by (destruct (decide (A = ∅)); [assumption|contradiction]).
      rewrite dbig_empty. reflexivity.
Qed.

(** A loop that agrees with [g] on single packets runs [g] on each packet
    of the set it is started on. *)
Lemma seq_loop_each (qs : list Policy) (g : Packet -> M (gset Packet))
  (out : gset Packet) (s : Store) :
  (forall x s, seq_loop qs {[ x ]} s = g x s) ->
  seq_loop qs out s = eval_each g (elements out) ∅ s.
Proof.
  intros Hg.
  assert (forall x, framed (g x)) as Hfr.
  { intros x. eapply framed_ext; [apply Hg|apply framed_seq_loop_all]. }
  apply framed_eq.
  - apply framed_seq_loop_all.
  - apply framed_eval_each, Hfr.
  - rewrite den_seq_loop_big, den_eval_each_elements by exact Hfr.
    apply dbig_ext. intros x _. apply den_ext_fun, Hg.
Qed.

Lemma seq_loop_single (p : Policy) (pkt : Packet) (s : Store) :
  seq_loop [p] {[ pkt ]} s = eval p pkt s.
Proof.
  simpl. rewrite truthy_singleton.
  destruct (eq_identity p) eqn:Ei.
  { destruct p; simpl in Ei; try discriminate Ei.
    - reflexivity.
    - apply bool_decide_eq_true in Ei as ->. simpl.
      rewrite match_eval_empty. reflexivity.
    - apply bool_decide_eq_true in Ei as ->. simpl.
      rewrite _match_eval_empty. reflexivity. }
  destruct (eq_drop p) eqn:Ed.
  { destruct p; simpl in Ed; try discriminate Ed. reflexivity. }
  rewrite elements_singleton_packet. simpl. unfold bind.
  destruct (eval p pkt s) as [[o s']|e]; [|reflexivity].
  unfold ret. rewrite (left_id_L ∅ (∪)). reflexivity.
Qed.

Lemma eval_operand (p : Policy) (pkt : Packet) (s : Store) :
  seq_loop (operand_policies p) {[ pkt ]} s = eval p pkt s.
Proof.
  unfold operand_policies.
  destruct (isinstance_sequential p) as [ps|] eqn:E.
  - destruct p; simpl in E; try discriminate E; injection E as ->.
    + symmetry. apply eval_sequential.
    + symmetry. apply eval_intersection.
  - apply seq_loop_single.
Qed.

Lemma eval_sequential_new (l : list Policy) (pkt : Packet) (s : Store) :
  eval (sequential_new l) pkt s = seq_loop l {[ pkt ]} s.
Proof.
  destruct l as [|q r]; [reflexivity|].
  unfold sequential_new. apply eval_sequential.
Qed.

Lemma rshift_operands (p q : Policy) :
  rshift p q = sequential_new (operand_policies p ++ operand_policies q).
Proof.
  unfold rshift, operand_policies.
  destruct (isinstance_sequential p), (isinstance_sequential q); reflexivity.
Qed.

Lemma eval_rshift (p q : Policy) (pkt : Packet) (s : Store) :
  eval (rshift p q) pkt s = kleisli (eval p) (eval q) pkt s.
Proof.
  rewrite rshift_operands, eval_sequential_new, seq_loop_app.
  unfold kleisli. apply bind_ext.
  - intros s'. apply eval_operand.
  - intros out s'. apply seq_loop_each. intros x s''. apply eval_operand.
Qed.

Lemma eval_sequential_fold (ps : list Policy) (pkt : Packet) (s : Store) :
  eval (sequential ps) pkt s =
  foldl (fun acc q => kleisli acc (eval q)) (fun x => ret {[ x ]}) ps pkt s.
Proof.
  rewrite eval_sequential. revert pkt s.
  induction ps as [|q ps IH] using rev_ind; intros pkt s.
  - reflexivity.
  - rewrite foldl_app, seq_loop_app. cbn [foldl]. unfold kleisli at 1.
    apply bind_ext; [apply IH|].
    intros out s'. apply seq_loop_each. intros x s''. apply seq_loop_single.
Qed.

End SeqFacts.

(** What the loop over a set of packets returns: the union of what each
    packet yields, provided every packet yields something. *)
Lemma eval_each_union (f : Packet -> M (gset Packet)) (A : gset Packet)
  (s : Store) :
  (forall x, framed (f x)) ->
  ((forall x, x ∈ A -> exists o sx, f x s = Ok (o, sx)) ->
   exists r s2, eval_each f (elements A) ∅ s = Ok (r, s2)) /\
  (forall r s2, eval_each f (elements A) ∅ s = Ok (r, s2) ->
     forall y, y ∈ r <-> exists x o sx, x ∈ A /\ f x s = Ok (o, sx) /\ y ∈ o).
Proof.
  intros Hf.
  assert (forall x, f x s = run (den (f x)) s) as Hrun by (intros x; apply Hf).
  rewrite (framed_eval_each f (elements A) Hf ∅ s),
    (den_eval_each_elements f A Hf).
  split.
  - intros Hall.
    destruct (dbig (fun x => den (f x)) A) as [[r c]|] eqn:E;
      [simpl; eauto|].
    apply dbig_None in E as (x & Hx & Hn).
    destruct (Hall x Hx) as (o & sx & Ho).
    rewrite Hrun, Hn in Ho. discriminate.
  - intros r s2 Hr y.
    destruct (dbig (fun x => den (f x)) A) as [[r' c]|] eqn:E;
      [|discriminate]. simpl in Hr. injection Hr as <- <-.
    assert (dbig (fun x => den (f x)) A <> None) as Hne
      by (rewrite E; discriminate).
    change r' with (d_out (Some (r', c))). rewrite <- E.
    rewrite (dbig_out _ _ _ Hne). split.
    + intros (x & Hx & Hy).
      destruct (den (f x)) as [[o cx]|] eqn:Ex.
      * exists x, o, (cx ∪ s). rewrite Hrun, Ex. auto.
      * destruct (not_elem_of_empty _ Hy).
    + intros (x & o & sx & Hx & Ho & Hy). exists x. split; [exact Hx|].
      rewrite Hrun in Ho. destruct (den (f x)) as [[o' cx]|];
        [|discriminate]. injection Ho as <- _. exact Hy.
Qed.

(** C2: evaluating [p >> q] on a packet is evaluating [p] on it and then
    [q] on every packet that [p] returned, the results united: the same
    packets, the same captures, the same exception if there is one.  The
    packets returned are those returned by [q] on some packet returned by
    [p].  A sequential composition of any length is the fold of this
    composition over its policies, from the left. *)
Theorem C2_sequential_eval (enc : Map -> Map) (enc_mod : ModMap -> ModMap)
  (p q : Policy) (pkt : Packet) (s : Store) :
  eval enc enc_mod (rshift p q) pkt s =
  bind (eval enc enc_mod p pkt)
       (fun out => eval_each (eval enc enc_mod q) (elements out) ∅) s /\
  (forall out s1,
     eval enc enc_mod p pkt s = Ok (out, s1) ->
     ((forall x, x ∈ out -> exists o sx, eval enc enc_mod q x s1 = Ok (o, sx)) ->
      exists r s2, eval enc enc_mod (rshift p q) pkt s = Ok (r, s2)) /\
     (forall r s2,
        eval enc enc_mod (rshift p q) pkt s = Ok (r, s2) ->
        forall y, y ∈ r <->
                  exists x o sx, x ∈ out /\
                                 eval enc enc_mod q x s1 = Ok (o, sx) /\
                                 y ∈ o)) /\
  (forall ps,
     eval enc enc_mod (sequential ps) pkt s =
     foldl (fun acc r => kleisli acc (eval enc enc_mod r))
           (fun x => ret {[ x ]}) ps pkt s).
Proof.
  split; [apply eval_rshift|]. split.
  - intros out s1 Hp. rewrite eval_rshift. unfold kleisli, bind. rewrite Hp.
    apply eval_each_union. intros x. apply framed_eval.
  - intros ps. apply eval_sequential_fold.
Qed.

(** The filter of the example is what [difference] constructs. *)
Example at_switch_1_not_port_2_new :
  difference_new (match_ {[ "switch" := Some (PExact (VInt 1)) ]})
                 (match_ {[ "inport" := Some (PExact (VInt 2)) ]})
  = Ok at_switch_1_not_port_2.
Proof. reflexivity. Qed.


(** ** Negation of a classifier *)

Lemma negate_rules_filter (inner acc : list Rule) :
  forallb filter_rule inner = true ->
  negate_rules inner acc = Ok (acc ++ (negated_rule <$> inner))%list.
Proof.
  revert acc. induction inner as [|r rest IH]; intros acc Hall; simpl.
  - rewrite app_nil_r. reflexivity.
  - simpl in Hall. apply andb_true_iff in Hall as [Hr Hrest].
    unfold filter_rule in Hr. unfold negated_rule.
    destruct (rule_actions r) as [|a tl]; [discriminate|].
    destruct (eq_identity a).
    + rewrite IH by exact Hrest. rewrite <- app_assoc. reflexivity.
    + simpl in Hr. rewrite Hr.
      rewrite IH by exact Hrest. rewrite <- app_assoc. reflexivity.
Qed.

Lemma negate_rules_raise (inner acc : list Rule) :
  forallb filter_rule inner = false ->
  exists e, negate_rules inner acc = Raise e /\
            (e = TypeError \/ e = IndexError).
Proof.
  revert acc. induction inner as [|r rest IH]; intros acc Hall; simpl.
  - discriminate.
  - simpl in Hall. unfold filter_rule in Hall.
    destruct (rule_actions r) as [|a tl]; [eauto|].
    destruct (eq_identity a); [apply IH, Hall|].
    destruct (eq_drop a); [apply IH, Hall|eauto].
Qed.

Lemma negate_rules_TypeError (inner acc : list Rule) :
  Forall (fun r => rule_actions r <> []) inner ->
  forallb filter_rule inner = false ->
  negate_rules inner acc = Raise TypeError.
Proof.
  intros Hne. revert acc.
  induction Hne as [|r rest Hr _ IH]; intros acc Hall; simpl.
  - discriminate.
  - simpl in Hall. unfold filter_rule in Hall.
    destruct (rule_actions r) as [|a tl]; [contradiction|].
    destruct (eq_identity a); [apply IH, Hall|].
    destruct (eq_drop a); [apply IH, Hall|reflexivity].
Qed.



(** ** Count buckets *)

(** C7: [handle_flow_removed] on a key present in [matches], once no
    update is in progress: when [to_be_deleted] is false the assertion
    fails and the bucket is as before; when it is true the counters of the
    message are added to the persistent counters if [existing_rule] is
    false and are discarded if it is true, and in both cases the entry is
    deleted from [matches]. *)
Theorem C7_handle_flow_removed (b : count_bucket) (m : gmap string Value)
  (priority version flow_packet_count flow_byte_count : Z)
  (status : match_status) :
  in_update b = false ->
  matches b !! mk_match_entry m priority version = Some status ->
  (to_be_deleted status = false ->
   handle_flow_removed b m priority version flow_packet_count flow_byte_count
   = Raised AssertionError b) /\
  (to_be_deleted status = true -> existing_rule status = false ->
   handle_flow_removed b m priority version flow_packet_count flow_byte_count
   = Returned
       (mk_count_bucket
          (delete (mk_match_entry m priority version) (matches b))
          (outstanding_switches b) (packet_count b) (byte_count b)
          (packet_count_persistent b + flow_packet_count)
          (byte_count_persistent b + flow_byte_count)
          (in_update b) (new_bucket b) (callbacks b) (fired b))) /\
  (to_be_deleted status = true -> existing_rule status = true ->
   handle_flow_removed b m priority version flow_packet_count flow_byte_count
   = Returned
       (mk_count_bucket
          (delete (mk_match_entry m priority version) (matches b))
          (outstanding_switches b) (packet_count b) (byte_count b)
          (packet_count_persistent b) (byte_count_persistent b)
          (in_update b) (new_bucket b) (callbacks b) (fired b))) /\
  delete (mk_match_entry m priority version) (matches b)
    !! mk_match_entry m priority version = None.
Proof.
  destruct b as [ms os pc bc pp pb iu nb cb fd]. simpl.
  intros -> Hk. unfold handle_flow_removed. simpl. rewrite Hk.
  split; [intros ->; reflexivity|].
  split; [intros -> ->; reflexivity|].
  split; [intros -> ->; reflexivity|].
  apply lookup_delete_eq.
Qed.

(** C7 on the bucket of the example, the rule marked for deletion: the 5
    packets and 100 bytes of the message go to the persistent counters. *)
Lemma C7_handle_flow_removed_witness :
  handle_flow_removed (bucket_with (mk_match_status true false))
    (<["switch" := VInt 1]> ∅) 10 1 5 100
  = Returned
      (mk_count_bucket
         (delete rule_at_switch_1 {[ rule_at_switch_1 := mk_match_status true false ]})
         [VInt 1] 0 0 (7 + 5) (700 + 100) false false 1 []).
Proof.
  apply (C7_handle_flow_removed (bucket_with (mk_match_status true false))
           (<["switch" := VInt 1]> ∅) 10 1 5 100
           (mk_match_status true false));
    [reflexivity | apply lookup_singleton_eq | reflexivity | reflexivity].
Defined.

Lemma handle_flow_removed_waits (b : count_bucket) (m : gmap string Value)
  (priority version pc bc : Z) :
  in_update b = true -> handle_flow_removed b m priority version pc bc = Waits.
Proof. intros H. unfold handle_flow_removed. rewrite H. reflexivity. Qed.

(** [clear_existing_rule_flag] never clears the flag. *)
Lemma clear_existing_rule_flag_raises (b : count_bucket) (entry : match_entry) :
  clear_existing_rule_flag b entry = Raised NameError b.
Proof. reflexivity. Qed.

(** An entry of the reply for a rule of the bucket whose [existing_rule]
    flag is false adds its counts to [packet_count] and [byte_count]. *)
Lemma reply_loop_new_rule (switch : Value) (f : flow_stat)
  (rest : list flow_stat) (b : count_bucket) (fm : gmap string Value)
  (status : match_status) :
  fs_match f = Some fm ->
  matches b !! mk_match_entry (<["switch" := switch]> fm) (fs_priority f)
                 (fs_cookie f) = Some status ->
  existing_rule status = false ->
  reply_loop switch (f :: rest) b =
  reply_loop switch rest
    (set_counts b (packet_count b + fs_packet_count f)
                  (byte_count b + fs_byte_count f)).
Proof.
  intros Hm Hk He. simpl. unfold stat_in_bucket. rewrite Hm, Hk, Hk, He.
  reflexivity.
Qed.

(** An entry of the reply for a rule whose [existing_rule] flag is set
    stops the processing with an exception: the persistent counters are as
    before and the flag is still set. *)
Lemma reply_loop_existing_rule (switch : Value) (f : flow_stat)
  (rest : list flow_stat) (b : count_bucket) (fm : gmap string Value)
  (status : match_status) :
  fs_match f = Some fm ->
  matches b !! mk_match_entry (<["switch" := switch]> fm) (fs_priority f)
                 (fs_cookie f) = Some status ->
  existing_rule status = true ->
  reply_loop switch (f :: rest) b = Raised TypeError b.
Proof.
  intros Hm Hk He. simpl. unfold stat_in_bucket. rewrite Hm, Hk, Hk, He.
  reflexivity.
Qed.

(** C8 fails on the code: the reply of switch 1 for a rule whose
    [existing_rule] flag is set raises [TypeError]; the persistent counters
    still hold 7 and 700, not 2 and 600, the flag is still set, the switch
    is still outstanding and no callback was called. *)
Theorem C8_existing_rule_reply_raises :
  handle_flow_stats_reply (bucket_with (mk_match_status false true))
    (VInt 1) [reply_entry]
  = Raised TypeError
      (mk_count_bucket
         {[ rule_at_switch_1 := mk_match_status false true ]}
         [VInt 1] 7 700 7 700 false false 1 []).
Proof.
  unfold handle_flow_stats_reply. simpl.
  unfold stat_in_bucket. simpl.
  change (mk_match_entry (<["switch" := VInt 1]> ∅) 10 1) with rule_at_switch_1.
  rewrite !lookup_singleton_eq. reflexivity.
Qed.

(** The part of C8 that holds: the same reply for a rule whose flag is
    not set adds the 5 packets and 100 bytes to the reported counts, and
    the callback is called with the totals. *)
Example reply_new_rule_counts :
  handle_flow_stats_reply (bucket_with (mk_match_status false false))
    (VInt 1) [reply_entry]
  = Returned
      (mk_count_bucket
         {[ rule_at_switch_1 := mk_match_status false false ]}
         [] (7 + 5) (700 + 100) 7 700 false false 1 [(7 + 5, 700 + 100)]).
Proof.
  unfold handle_flow_stats_reply. simpl.
  unfold stat_in_bucket. simpl.
  change (mk_match_entry (<["switch" := VInt 1]> ∅) 10 1) with rule_at_switch_1.
  rewrite !lookup_singleton_eq. reflexivity.
Qed.

(** ** Dynamic policies *)



(** ** The character generator *)

Lemma lexer_code_le (c : Z) : char_in_lexer_language c = true -> c <= 125.
Proof.
  intros E. apply bool_decide_eq_true in E. unfold lexer_codes in E.
  repeat (apply elem_of_cons in E as [->|E]; [lia|]).
  destruct (not_elem_of_nil _ E).
Qed.

(** [__new_token__] returns: the counter moves forward, to a code outside
    the lexer language. *)
Lemma new_token_from_spec (fuel : nat) (tok : Z) :
  126 - tok <= Z.of_nat fuel ->
  tok < new_token_from fuel tok /\
  char_in_lexer_language (new_token_from fuel tok) = false.
Proof.
  revert tok. induction fuel as [|fuel IH]; intros tok Hf; simpl.
  - destruct (char_in_lexer_language (tok + 1)) eqn:E.
    + apply lexer_code_le in E. lia.
    + split; [lia|exact E].
  - destruct (char_in_lexer_language (tok + 1)) eqn:E.
    + destruct (IH (tok + 1)) as [H1 H2]; [lia|]. split; [lia|exact H2].
    + split; [lia|exact E].
Qed.

Section GeneratorFacts.
Context {F : Type} `{Countable F}.

Implicit Types g : generator F.

Lemma new_token_spec g :
  token g < (new_token g).1 /\
  char_in_lexer_language (new_token g).1 = false /\
  token (new_token g).2 = (new_token g).1 /\
  toktypes (new_token g).2 = toktypes g /\
  filter_to_token (new_token g).2 = filter_to_token g /\
  token_to_filter (new_token g).2 = token_to_filter g /\
  token_to_tokens (new_token g).2 = token_to_tokens g /\
  token_to_toktype (new_token g).2 = token_to_toktype g.
Proof.
  unfold new_token. simpl.
  destruct (new_token_from_spec (Z.to_nat (126 - token g)) (token g)) as [H1 H2];
    [lia|]. auto 10.
Qed.

Lemma registered_keys g ty :
  registered g ty ->
  filter_to_token g !! ty = Some (keys g ty) /\
  token_to_filter g !! ty = Some (leaves g ty) /\
  token_to_tokens g !! ty = Some (aliases g ty).
Proof.
  intros ([a Ha] & [b Hb] & [c Hc]). unfold keys, leaves, aliases.
  rewrite Ha, Hb, Hc. auto.
Qed.

Lemma unregistered_keys g ty :
  unregistered g ty ->
  keys g ty = ∅ /\ leaves g ty = ∅ /\ aliases g ty = ∅.
Proof.
  intros (Ha & Hb & Hc). unfold keys, leaves, aliases.
  rewrite Ha, Hb, Hc. auto.
Qed.

(** [__ensure_toktype] registers the type and changes no dictionary of a
    type. *)
Lemma ensure_toktype_spec g ty :
  well_formed g ->
  well_formed (ensure_toktype g ty) /\
  registered (ensure_toktype g ty) ty /\
  token (ensure_toktype g ty) = token g /\
  (forall ty', keys (ensure_toktype g ty) ty' = keys g ty' /\
               leaves (ensure_toktype g ty) ty' = leaves g ty' /\
               aliases (ensure_toktype g ty) ty' = aliases g ty').
Proof.
  intros Hwf. unfold ensure_toktype.
  destruct (decide (ty ∈ toktypes g)) as [Hin|Hnin].
  - rewrite bool_decide_eq_true_2 by exact Hin.
    split; [exact Hwf|]. split; [apply Hwf, Hin|]. auto.
  - rewrite bool_decide_eq_false_2 by exact Hnin.
    destruct (proj2 (Hwf ty) Hnin) as (Ha & Hb & Hc).
    split; [|split; [|split]].
    + intros ty'. unfold registered, unregistered. simpl.
      destruct (decide (ty' = ty)) as [->|Hne].
      * rewrite !lookup_insert_eq. split; [eauto|].
        intros Hn. exfalso. apply Hn, elem_of_app. right.
        apply list_elem_of_singleton. reflexivity.
      * rewrite !lookup_insert_ne by congruence. split.
        -- intros Hin. apply elem_of_app in Hin as [Hin|Hin].
           ++ apply Hwf, Hin.
           ++ apply list_elem_of_singleton in Hin. contradiction.
        -- intros Hn. apply Hwf. intros Hin. apply Hn, elem_of_app. auto.
    + unfold registered. simpl. rewrite !lookup_insert_eq. eauto.
    + reflexivity.
    + intros ty'. unfold keys, leaves, aliases. simpl.
      destruct (decide (ty' = ty)) as [->|Hne].
      * rewrite !lookup_insert_eq, Ha, Hb, Hc. auto.
      * rewrite !lookup_insert_ne by congruence. auto.
Qed.

Lemma keys_mk tok tts a b c d ty :
  keys (@mk_generator F _ _ tok tts a b c d) ty = default ∅ (a !! ty).
Proof. reflexivity. Qed.

Lemma leaves_mk tok tts a b c d ty :
  leaves (@mk_generator F _ _ tok tts a b c d) ty = default ∅ (b !! ty).
Proof. reflexivity. Qed.

Lemma aliases_mk tok tts a b c d ty :
  aliases (@mk_generator F _ _ tok tts a b c d) ty = default ∅ (c !! ty).
Proof. reflexivity. Qed.

Lemma well_formed_same g g' :
  well_formed g -> toktypes g' = toktypes g ->
  (forall ty, (is_Some (filter_to_token g' !! ty) <->
               is_Some (filter_to_token g !! ty)) /\
              (is_Some (token_to_filter g' !! ty) <->
               is_Some (token_to_filter g !! ty)) /\
              (is_Some (token_to_tokens g' !! ty) <->
               is_Some (token_to_tokens g !! ty))) ->
  well_formed g'.
Proof.
  intros Hwf Ht Hs ty. destruct (Hs ty) as (Ha & Hb & Hc).
  rewrite Ht. split.
  - intros Hin. destruct (proj1 (Hwf ty) Hin) as (Ra & Rb & Rc).
    split; [apply Ha, Ra|]. split; [apply Hb, Rb|apply Hc, Rc].
  - intros Hn. destruct (proj2 (Hwf ty) Hn) as (Ua & Ub & Uc).
    unfold unregistered. rewrite !eq_None_not_Some.
    rewrite Ha, Hb, Hc, <- !eq_None_not_Some. auto.
Qed.

(** [__add_new_token] returns: a fresh token, recorded for the filter in
    both directions. *)
Lemma add_new_token_spec g pol ty :
  well_formed g ->
  exists t g',
    add_new_token g pol ty = Ok (t, g') /\
    token g < t /\ token g' = t /\ well_formed g' /\ registered g' ty /\
    keys g' ty = <[pol := t]> (keys g ty) /\
    leaves g' ty = <[t := pol]> (leaves g ty) /\
    aliases g' ty = aliases g ty /\
    (forall ty', ty' <> ty ->
       keys g' ty' = keys g ty' /\ leaves g' ty' = leaves g ty' /\
       aliases g' ty' = aliases g ty').
Proof.
  intros Hwf. unfold add_new_token.
  destruct (new_token_spec g) as (Hlt & _ & Htok & Hty & Hk & Hl & Ha & _).
  destruct (new_token g) as [t g1]. simpl in *.
  assert (well_formed g1) as Hwf1.
  { apply (well_formed_same g); [exact Hwf|exact Hty|].
    intros ty'. rewrite Hk, Hl, Ha. tauto. }
  destruct (ensure_toktype_spec g1 ty Hwf1) as (Hwf2 & Hreg & Htok2 & Hsame).
  destruct (registered_keys _ _ Hreg) as (Ek & El & Ea).
  rewrite Ek, El.
  assert (forall ty', keys g1 ty' = keys g ty' /\ leaves g1 ty' = leaves g ty' /\
                      aliases g1 ty' = aliases g ty') as H1.
  { intros ty'. unfold keys, leaves, aliases. rewrite Hk, Hl, Ha. auto. }
  eexists _, _. split; [reflexivity|]. simpl.
  split; [exact Hlt|]. split; [congruence|].
  split.
  { eapply (well_formed_same (ensure_toktype g1 ty)); [exact Hwf2|reflexivity|].
    intros ty'. simpl. destruct (decide (ty' = ty)) as [->|Hne].
    - rewrite !lookup_insert_eq, Ek, El. split; [split; eauto|].
      split; [split; eauto|tauto].
    - rewrite !lookup_insert_ne by congruence. tauto. }
  split.
  { unfold registered. simpl. rewrite !lookup_insert_eq, Ea. eauto. }
  destruct (Hsame ty) as (S1 & S2 & S3). destruct (H1 ty) as (T1 & T2 & T3).
  split.
  { rewrite keys_mk, lookup_insert_eq. simpl. rewrite S1, T1. reflexivity. }
  split.
  { rewrite leaves_mk, lookup_insert_eq. simpl. rewrite S2, T2. reflexivity. }
  split.
  { rewrite aliases_mk, Ea. simpl. rewrite S3, T3. reflexivity. }
  intros ty' Hne. rewrite keys_mk, leaves_mk, aliases_mk.
  rewrite !lookup_insert_ne by congruence.
  specialize (Hsame ty'). specialize (H1 ty').
  unfold keys, leaves, aliases in *.
  destruct Hsame as (-> & -> & ->). exact H1.
Qed.

(** The assignment to an alias list. *)
Lemma set_token_to_tokens_spec g ty tok toks :
  well_formed g -> registered g ty ->
  exists g',
    set_token_to_tokens g ty tok toks = Ok g' /\
    token g' = token g /\ well_formed g' /\ registered g' ty /\
    keys g' ty = keys g ty /\ leaves g' ty = leaves g ty /\
    aliases g' ty = <[tok := toks]> (aliases g ty) /\
    (forall ty', ty' <> ty ->
       keys g' ty' = keys g ty' /\ leaves g' ty' = leaves g ty' /\
       aliases g' ty' = aliases g ty').
Proof.
  intros Hwf Hreg. unfold set_token_to_tokens.
  destruct (registered_keys _ _ Hreg) as (Ek & El & Ea). rewrite Ea.
  eexists. split; [reflexivity|]. simpl. split; [reflexivity|].
  split.
  { eapply (well_formed_same g); [exact Hwf|reflexivity|].
    intros ty'. simpl. destruct (decide (ty' = ty)) as [->|Hne].
    - rewrite !lookup_insert_eq, Ea. split; [tauto|]. split; [tauto|].
      split; eauto.
    - rewrite !lookup_insert_ne by congruence. tauto. }
  split.
  { unfold registered. simpl. rewrite !lookup_insert_eq, Ek, El. eauto. }
  split; [reflexivity|]. split; [reflexivity|].
  split; [rewrite aliases_mk, lookup_insert_eq; reflexivity|].
  intros ty' Hne. rewrite aliases_mk, !lookup_insert_ne by congruence. auto.
Qed.

(** The two deletions of the split. *)
Lemma delete_filter_spec g ty existing tok :
  well_formed g -> registered g ty ->
  keys g ty !! existing = Some tok -> leaves g ty !! tok = Some existing ->
  exists g',
    delete_filter g ty existing tok = Ok g' /\
    token g' = token g /\ well_formed g' /\ registered g' ty /\
    keys g' ty = delete existing (keys g ty) /\
    leaves g' ty = delete tok (leaves g ty) /\
    aliases g' ty = aliases g ty /\
    (forall ty', ty' <> ty ->
       keys g' ty' = keys g ty' /\ leaves g' ty' = leaves g ty' /\
       aliases g' ty' = aliases g ty').
Proof.
  intros Hwf Hreg Hk Hl. unfold delete_filter.
  destruct (registered_keys _ _ Hreg) as (Ek & El & Ea).
  rewrite Ek, El, Hk, Hl.
  eexists. split; [reflexivity|]. simpl. split; [reflexivity|].
  split.
  { eapply (well_formed_same g); [exact Hwf|reflexivity|].
    intros ty'. simpl. destruct (decide (ty' = ty)) as [->|Hne].
    - rewrite !lookup_insert_eq, Ek, El. split; [split; eauto|].
      split; [split; eauto|tauto].
    - rewrite !lookup_insert_ne by congruence. tauto. }
  split.
  { unfold registered. simpl. rewrite !lookup_insert_eq, Ea. eauto. }
  split; [rewrite keys_mk, lookup_insert_eq; reflexivity|].
  split; [rewrite leaves_mk, lookup_insert_eq; reflexivity|].
  split; [reflexivity|].
  intros ty' Hne. rewrite keys_mk, leaves_mk, !lookup_insert_ne by congruence.
  auto.
Qed.

End GeneratorFacts.

Section ExpansionFacts.
Context {F : Type} `{Countable F} {P : Type}.
Variable sem : F -> P -> bool.
Variable f_or : F -> F -> F.
Hypothesis sem_or : forall a b p, sem (f_or a b) p = sem a p || sem b p.

Implicit Types g : generator F.

Local Abbreviation gf := (get_filter_from_token f_or).
Local Abbreviation join fuel g ty :=
  (foldl (fun acc new_tok =>
            rbind acc (fun out =>
            rbind (get_filter_from_token f_or fuel g new_tok ty)
                  (fun f => Ok (f_or out f))))).

Lemma sem_or_list (f0 : F) (fs : list F) (p : P) :
  sem (foldl f_or f0 fs) p = sem f0 p || existsb (fun f => sem f p) fs.
Proof.
  revert f0. induction fs as [|f fs IH]; intros f0; simpl.
  - rewrite orb_false_r. reflexivity.
  - rewrite IH, sem_or, orb_assoc. reflexivity.
Qed.

Lemma join_raise fuel g ty (e : Exn) (toks : list Z) :
  join fuel g ty (Raise e) toks = Raise e.
Proof. induction toks as [|t toks IH]; simpl; [reflexivity|exact IH]. Qed.

Lemma join_Ok fuel g ty (out : F) (toks : list Z) (f : F) :
  join fuel g ty (Ok out) toks = Ok f <->
  exists fs, Forall2 (fun tok f => gf fuel g tok ty = Ok f) toks fs /\
             f = foldl f_or out fs.
Proof.
  revert out. induction toks as [|t toks IH]; intros out; simpl.
  - split.
    + intros [= <-]. exists []. split; [constructor|reflexivity].
    + intros (fs & Hfs & ->). inversion Hfs. reflexivity.
  - destruct (gf fuel g t ty) as [ft|e] eqn:E; simpl.
    + rewrite IH. split.
      * intros (fs & Hfs & ->). exists (ft :: fs).
        split; [constructor; assumption|reflexivity].
      * intros (fs & Hfs & ->). inversion Hfs as [|? f1 ? fs1 E1 Hrest]; subst.
        rewrite E in E1. injection E1 as <-. exists fs1. auto.
    + rewrite join_raise. split; [discriminate|].
      intros (fs & Hfs & _). inversion Hfs as [|? f1 ? fs1 E1 Hrest]; subst.
      rewrite E in E1. discriminate.
Qed.

Lemma get_filter_leaf fuel g ty t f :
  registered g ty -> leaves g ty !! t = Some f -> gf fuel g t ty = Ok f.
Proof.
  intros Hreg Hl. destruct (registered_keys _ _ Hreg) as (_ & El & _).
  destruct fuel; simpl; rewrite El, Hl; reflexivity.
Qed.

Lemma get_filter_alias fuel g ty t l f :
  registered g ty -> leaves g ty !! t = None -> aliases g ty !! t = Some l ->
  gf (S fuel) g t ty = Ok f <->
  exists f0 fs,
    Forall2 (fun tok f => gf fuel g tok ty = Ok f) l (f0 :: fs) /\
    f = foldl f_or f0 fs.
Proof.
  intros Hreg Hl Ha. destruct (registered_keys _ _ Hreg) as (_ & El & Ea).
  simpl. rewrite El, Hl, Ea, Ha.
  destruct l as [|t0 rest].
  - split; [discriminate|]. intros (f0 & fs & Hfs & _). inversion Hfs.
  - destruct (gf fuel g t0 ty) as [f0|e] eqn:E; simpl.
    + rewrite join_Ok. split.
      * intros (fs & Hfs & ->). exists f0, fs. split; [constructor|]; auto.
      * intros (f0' & fs & Hfs & ->).
        inversion Hfs as [|? f1 ? fs1 E1 Hrest]; subst.
        rewrite E in E1. injection E1 as <-. eauto.
    + split; [discriminate|]. intros (f0' & fs & Hfs & _).
      inversion Hfs as [|? f1 ? fs1 E1 Hrest]; subst.
      rewrite E in E1. discriminate.
Qed.

Lemma get_filter_Ok_cases fuel g ty t f :
  registered g ty -> gf fuel g t ty = Ok f ->
  leaves g ty !! t = Some f \/
  (leaves g ty !! t = None /\ exists l fuel', aliases g ty !! t = Some l /\
                                               fuel = S fuel').
Proof.
  intros Hreg Hg. destruct (registered_keys _ _ Hreg) as (_ & El & Ea).
  destruct fuel; simpl in Hg; rewrite El in Hg;
    destruct (leaves g ty !! t) as [f0|] eqn:E;
    try (injection Hg as <-; left; reflexivity);
    rewrite Ea in Hg; destruct (aliases g ty !! t) as [l|] eqn:E2;
    try discriminate Hg.
  right. split; [reflexivity|]. eauto.
Qed.

Lemma get_filter_mono fuel g ty t f :
  registered g ty -> gf fuel g t ty = Ok f -> gf (S fuel) g t ty = Ok f.
Proof.
  intros Hreg. revert t f. induction fuel as [|k IH]; intros t f Hg.
  - destruct (get_filter_Ok_cases _ _ _ _ _ Hreg Hg) as [Hl|(_ & l & k' & _ & E)];
      [|discriminate]. apply get_filter_leaf; assumption.
  - destruct (get_filter_Ok_cases _ _ _ _ _ Hreg Hg) as [Hl|(Hl & l & k' & Ha & _)].
    + apply get_filter_leaf; assumption.
    + apply (get_filter_alias _ _ _ _ _ _ Hreg Hl Ha).
      apply (get_filter_alias _ _ _ _ _ _ Hreg Hl Ha) in Hg
        as (f0 & fs & Hfs & ->).
      exists f0, fs. split; [|reflexivity].
      eapply Forall2_impl; [exact Hfs|]. intros tok f' Hf. apply IH, Hf.
Qed.

Lemma get_filter_mono_le fuel fuel' g ty t f :
  registered g ty -> (fuel <= fuel')%nat ->
  gf fuel g t ty = Ok f -> gf fuel' g t ty = Ok f.
Proof.
  intros Hreg Hle Hg. induction Hle as [|k Hle IH]; [exact Hg|].
  apply get_filter_mono; assumption.
Qed.


Lemma existsb_sem_eq (fs fs' : list F) (p : P) :
  Forall2 (fun f' f => forall p, sem f' p = sem f p) fs' fs ->
  existsb (fun f => sem f p) fs' = existsb (fun f => sem f p) fs.
Proof.
  induction 1 as [|f' f fs' fs Hf _ IH]; simpl; [reflexivity|].
  rewrite Hf, IH. reflexivity.
Qed.

Lemma refines_get_filter g g' ty :
  registered g ty -> registered g' ty -> refines sem f_or g g' ty ->
  forall fuel t f, gf fuel g t ty = Ok f ->
    exists f', gf (S fuel) g' t ty = Ok f' /\ forall p, sem f' p = sem f p.
Proof.
  intros Hreg Hreg' [Hleaf Halias].
  induction fuel as [|k IH]; intros t f Hg.
  - destruct (get_filter_Ok_cases _ _ _ _ _ Hreg Hg) as [Hl|(_ & l & k' & _ & E)];
      [|discriminate]. apply Hleaf, Hl.
  - destruct (get_filter_Ok_cases _ _ _ _ _ Hreg Hg) as [Hl|(Hl & l & k' & Ha & _)].
    + destruct (Hleaf t f Hl) as (f' & Hf' & Hs). exists f'.
      split; [|exact Hs].
      apply (get_filter_mono_le 1); [exact Hreg'|lia|exact Hf'].
    + apply (get_filter_alias _ _ _ _ _ _ Hreg Hl Ha) in Hg
        as (f0 & fs & Hfs & ->).
      destruct (Halias t l Hl Ha) as [Hl' Ha'].
      assert (exists fs', Forall2 (fun tok f => gf (S k) g' tok ty = Ok f) l fs' /\
                Forall2 (fun f' f => forall p, sem f' p = sem f p) fs' (f0 :: fs))
        as (fs' & Hfs' & Heq).
      { clear -Hfs IH. induction Hfs as [|tok f l fs1 Hf _ IHf].
        - exists []. split; constructor.
        - destruct (IH tok f Hf) as (f' & Hf' & Hs).
          destruct IHf as (fs' & H1 & H2).
          exists (f' :: fs'). split; constructor; assumption. }
      inversion Heq as [|f0' ? fs1' ? Hs0 Hrest]; subst.
      exists (foldl f_or f0' fs1'). split.
      * apply (get_filter_alias _ _ _ _ _ _ Hreg' Hl' Ha'). eauto.
      * intros p. rewrite !sem_or_list, Hs0, (existsb_sem_eq _ _ _ Hrest).
        reflexivity.
Qed.

Lemma refines_denotes g g' ty t f :
  registered g ty -> registered g' ty -> refines sem f_or g g' ty ->
  denotes sem f_or g ty t f -> denotes sem f_or g' ty t f.
Proof.
  intros Hreg Hreg' Href (fuel & f1 & Hg & Hs).
  destruct (refines_get_filter g g' ty Hreg Hreg' Href fuel t f1 Hg)
    as (f' & Hf' & Hs').
  exists (S fuel), f'. split; [exact Hf'|]. intros p. rewrite Hs'. apply Hs.
Qed.

(** Dictionaries that keep the leaves and the alias lists refine. *)
Lemma refines_fresh g g' ty :
  registered g' ty ->
  (forall t f, leaves g ty !! t = Some f -> leaves g' ty !! t = Some f) ->
  (forall t l, leaves g ty !! t = None -> aliases g ty !! t = Some l ->
     leaves g' ty !! t = None /\ aliases g' ty !! t = Some l) ->
  refines sem f_or g g' ty.
Proof.
  intros Hreg Hl Ha. split; [|exact Ha].
  intros t f Hf. exists f. split; [|reflexivity].
  apply get_filter_leaf; [exact Hreg|]. apply Hl, Hf.
Qed.

Lemma Forall2_leaves (L : gmap Z F) (l : list Z) :
  (forall tok, tok ∈ l -> is_Some (L !! tok)) ->
  exists fs, Forall2 (fun tok f => L !! tok = Some f) l fs.
Proof.
  induction l as [|t l IH]; intros Hl.
  - exists []. constructor.
  - destruct (Hl t) as [f Hf]; [left|].
    destruct IH as [fs Hfs]; [intros tok Hin; apply Hl; right; exact Hin|].
    exists (f :: fs). constructor; assumption.
Qed.

(** A token whose alias list holds leaf tokens expands to the join of
    their filters. *)
Lemma alias_of_leaves g ty t l f :
  registered g ty -> leaves g ty !! t = None -> aliases g ty !! t = Some l ->
  l <> [] ->
  (forall tok, tok ∈ l ->
     exists f', leaves g ty !! tok = Some f' /\
                forall p, sem f' p = true -> sem f p = true) ->
  (forall p, sem f p = true ->
     exists tok f', tok ∈ l /\ leaves g ty !! tok = Some f' /\
                    sem f' p = true) ->
  denotes sem f_or g ty t f.
Proof.
  intros Hreg Hl Ha Hne Hsub Hsup.
  destruct (Forall2_leaves (leaves g ty) l) as [fs Hfs].
  { intros tok Hin. destruct (Hsub tok Hin) as (f' & Hf' & _). eauto. }
  destruct fs as [|f0 fs].
  { inversion Hfs; subst. contradiction. }
  exists 1%nat, (foldl f_or f0 fs). split.
  - apply (get_filter_alias 0 g ty t l _ Hreg Hl Ha). exists f0, fs.
    split; [|reflexivity].
    eapply Forall2_impl; [exact Hfs|]. intros tok f' Hf'.
    apply get_filter_leaf; assumption.
  - intros p. rewrite sem_or_list.
    change (sem f0 p || existsb (fun f1 => sem f1 p) fs)
      with (existsb (fun f1 => sem f1 p) (f0 :: fs)).
    destruct (sem f p) eqn:Ef.
    + apply existsb_exists.
      destruct (Hsup p Ef) as (tok & f' & Hin & Hf' & Hp).
      exists f'. split; [|exact Hp].
      clear -Hfs Hin Hf'. induction Hfs as [|tok' f1 l fs' H1 _ IH].
      * apply elem_of_nil in Hin. contradiction.
      * apply elem_of_cons in Hin as [->|Hin].
        -- rewrite Hf' in H1. injection H1 as ->. left. reflexivity.
        -- right. apply IH, Hin.
    + destruct (existsb (fun f1 => sem f1 p) (f0 :: fs)) eqn:Ex; [|reflexivity].
      apply existsb_exists in Ex as (f' & Hin & Hp).
      assert (exists tok, tok ∈ l /\ leaves g ty !! tok = Some f')
        as (tok & Htok & Hf').
      { clear -Hfs Hin. induction Hfs as [|tok' f1 l fs' H1 _ IH].
        - destruct Hin.
        - destruct Hin as [->|Hin].
          + exists tok'. split; [left|exact H1].
          + destruct (IH Hin) as (tok & Htok & Hf'). exists tok.
            split; [right; exact Htok|exact Hf']. }
      destruct (Hsub tok Htok) as (f'' & Hf'' & Hs).
      rewrite Hf' in Hf''. injection Hf'' as <-.
      rewrite (Hs p Hp) in Ef. discriminate.
Qed.

End ExpansionFacts.

Section MapFacts.
Context {F : Type} `{Countable F} {P : Type}.
Variable sem : F -> P -> bool.

Implicit Types (K : gmap F Z) (L : gmap Z F).


Lemma inverse_maps_delete K L e tok :
  inverse_maps K L -> K !! e = Some tok ->
  inverse_maps (delete e K) (delete tok L).
Proof.
  intros Hinv He f t. rewrite !lookup_delete_Some, (Hinv f t). split.
  - intros [Hne Hl]. split; [|exact Hl]. intros <-.
    apply Hinv in He. rewrite He in Hl. congruence.
  - intros [Hne Hl]. split; [|exact Hl]. intros <-.
    apply Hinv in Hl. rewrite He in Hl. congruence.
Qed.

Lemma inverse_maps_insert K L f t :
  inverse_maps K L -> K !! f = None -> L !! t = None ->
  inverse_maps (<[f := t]> K) (<[t := f]> L).
Proof.
  intros Hinv Hf Ht f' t'. rewrite !lookup_insert_Some, (Hinv f' t'). split.
  - intros [[<- <-]|[Hne Hl]]; [auto|]. right. split; [|exact Hl].
    intros <-. congruence.
  - intros [[<- <-]|[Hne Hl]]; [auto|]. right. split; [|exact Hl].
    intros <-. apply Hinv in Hl. congruence.
Qed.

(** A filter that keeps some packet and is apart from every leaf is not a
    key yet. *)
Lemma apart_not_key K L f p :
  inverse_maps K L -> apart_from sem L f -> sem f p = true -> K !! f = None.
Proof.
  intros Hinv Hap Hp. destruct (K !! f) as [t|] eqn:E; [|reflexivity].
  apply Hinv in E. destruct (Hap t f E p). auto.
Qed.

Lemma disjoint_map_delete L tok :
  disjoint_map sem L -> disjoint_map sem (delete tok L).
Proof.
  intros Hd t1 t2 f1 f2 Hne H1 H2.
  apply lookup_delete_Some in H1 as [_ H1].
  apply lookup_delete_Some in H2 as [_ H2]. eapply Hd; eassumption.
Qed.

Lemma disjoint_map_insert L t f :
  disjoint_map sem L -> apart_from sem L f -> disjoint_map sem (<[t := f]> L).
Proof.
  intros Hd Hap t1 t2 f1 f2 Hne H1 H2 p [Hp1 Hp2].
  apply lookup_insert_Some in H1 as [[<- <-]|[N1 H1]];
    apply lookup_insert_Some in H2 as [[<- <-]|[N2 H2]].
  - contradiction.
  - apply (Hap t2 f2 H2 p). auto.
  - apply (Hap t1 f1 H1 p). auto.
  - apply (Hd t1 t2 f1 f2 Hne H1 H2 p). auto.
Qed.

Lemma apart_from_delete L tok f :
  apart_from sem L f -> apart_from sem (delete tok L) f.
Proof.
  intros Hap t f' Hl. apply lookup_delete_Some in Hl as [_ Hl].
  apply (Hap t f' Hl).
Qed.

Lemma apart_from_insert L t f f' :
  apart_from sem L f -> (forall p, ~ (sem f p = true /\ sem f' p = true)) ->
  apart_from sem (<[t := f']> L) f.
Proof.
  intros Hap Hff t' f'' Hl.
  apply lookup_insert_Some in Hl as [[<- <-]|[_ Hl]]; [exact Hff|].
  apply (Hap t' f'' Hl).
Qed.

(** Within a family of disjoint leaves, whatever lies inside one leaf is
    apart from the others. *)
Lemma apart_from_inside L tok e f :
  disjoint_map sem L -> L !! tok = Some e ->
  (forall p, sem f p = true -> sem e p = true) ->
  apart_from sem (delete tok L) f.
Proof.
  intros Hd He Hsub t f' Hl p [Hp Hp'].
  apply lookup_delete_Some in Hl as [Hne Hl].
  apply (Hd tok t e f' Hne He Hl p). auto.
Qed.

End MapFacts.

Section TypeFacts.
Context {F : Type} `{Countable F}.
Variable f_and : F -> F -> F.
Variable f_or : F -> F -> F.
Variable f_not : F -> F.
Variable f_drop : F.
Variable f_eq_drop : F -> bool.
Variable get_classifier : F -> Classifier.

Implicit Types g : generator F.


Lemma types_kept_refl g : types_kept g g.
Proof. intros ty Hin. exact Hin. Qed.

Lemma types_kept_trans g1 g2 g3 :
  types_kept g1 g2 -> types_kept g2 g3 -> types_kept g1 g3.
Proof. intros H12 H23 ty Hin. apply H23, H12, Hin. Qed.

Lemma types_kept_eq g g' : toktypes g' = toktypes g -> types_kept g g'.
Proof. intros E ty Hin. rewrite E. exact Hin. Qed.

Lemma ensure_toktype_types g ty : types_kept g (ensure_toktype g ty).
Proof.
  intros ty' Hin. unfold ensure_toktype.
  destruct (bool_decide (ty ∈ toktypes g)); [exact Hin|].
  simpl. apply elem_of_app. left. exact Hin.
Qed.

Lemma add_new_token_types g pol ty t g' :
  add_new_token g pol ty = Ok (t, g') -> types_kept g g'.
Proof.
  unfold add_new_token.
  destruct (new_token g) as [new g1] eqn:En.
  assert (toktypes g1 = toktypes g) as E1.
  { pose proof (new_token_spec g) as (_ & _ & _ & E & _).
    rewrite En in E. exact E. }
  destruct (filter_to_token (ensure_toktype g1 ty) !! ty); [|discriminate].
  destruct (token_to_filter (ensure_toktype g1 ty) !! ty); [|discriminate].
  intros [= <- <-]. intros ty' Hin. simpl.
  apply ensure_toktype_types. rewrite E1. exact Hin.
Qed.

Lemma set_token_to_tokens_types g ty tok toks g' :
  set_token_to_tokens g ty tok toks = Ok g' -> types_kept g g'.
Proof.
  unfold set_token_to_tokens.
  destruct (token_to_tokens g !! ty); [|discriminate].
  intros [= <-]. apply types_kept_eq. reflexivity.
Qed.

Lemma delete_filter_types g ty e tok g' :
  delete_filter g ty e tok = Ok g' -> types_kept g g'.
Proof.
  unfold delete_filter.
  destruct (filter_to_token g !! ty) as [f2t|]; [|discriminate].
  destruct (token_to_filter g !! ty) as [t2f|]; [|discriminate].
  destruct (f2t !! e); [|discriminate].
  destruct (t2f !! tok); [|discriminate].
  intros [= <-]. apply types_kept_eq. reflexivity.
Qed.

Lemma add_new_filter_step_types n ty st e st' :
  add_new_filter_step f_and f_or f_not f_eq_drop get_classifier n ty st e
  = Ok st' ->
  types_kept (fl_generator st) (fl_generator st').
Proof.
  unfold add_new_filter_step.
  destruct (has_nonempty_intersection f_and get_classifier e n);
    [|intros [= <-]; apply types_kept_refl].
  destruct (filter_to_token (fl_generator st) !! ty) as [f2t|]; [|discriminate].
  destruct (f2t !! e) as [tok|]; [|discriminate].
  destruct (has_nonempty_intersection f_and get_classifier e (f_not n)).
  - destruct (delete_filter (fl_generator st) ty e tok) as [g1|] eqn:E1;
      [|discriminate]. simpl.
    destruct (add_new_token g1 (f_and e (f_not n)) ty) as [[t1 g2]|] eqn:E2;
      [|discriminate]. simpl.
    destruct (add_new_token g2 (f_and e n) ty) as [[t2 g3]|] eqn:E3;
      [|discriminate]. simpl.
    destruct (set_token_to_tokens g3 ty tok [t1; t2]) as [g4|] eqn:E4;
      [|discriminate]. simpl.
    intros [= <-]. simpl.
    eapply types_kept_trans; [eapply delete_filter_types, E1|].
    eapply types_kept_trans; [eapply add_new_token_types, E2|].
    eapply types_kept_trans; [eapply add_new_token_types, E3|].
    eapply set_token_to_tokens_types, E4.
  - simpl. intros [= <-]. apply types_kept_refl.
Qed.

Lemma add_new_filter_loop_types n ty todo :
  forall st st',
    add_new_filter_loop f_and f_or f_not f_eq_drop get_classifier n ty todo st
    = Ok st' ->
    types_kept (fl_generator st) (fl_generator st').
Proof.
  induction todo as [|e rest IH]; intros st st'; simpl.
  - intros [= <-]. apply types_kept_refl.
  - destruct (add_new_filter_step f_and f_or f_not f_eq_drop get_classifier
                n ty st e) as [st1|] eqn:E1; [|discriminate].
    simpl. intros E.
    eapply types_kept_trans; [eapply add_new_filter_step_types, E1|].
    apply IH, E.
Qed.

Lemma add_new_filter_types g n ty t g' :
  add_new_filter f_and f_or f_not f_drop f_eq_drop get_classifier g n ty
  = Ok (t, g') ->
  types_kept g g'.
Proof.
  unfold add_new_filter.
  destruct (token_to_filter g !! ty) as [t2f|]; [|discriminate].
  destruct (add_new_filter_loop f_and f_or f_not f_eq_drop get_classifier
              n ty (map_to_list t2f).*2 (mk_filter_loop g f_drop []))
    as [st|] eqn:E; [|discriminate].
  apply add_new_filter_loop_types in E. simpl in E. cbn [rbind].
  intros E'. apply (types_kept_trans _ _ _ E). revert E'.
  pose proof (new_token_spec (fl_generator st)) as (_ & _ & _ & E2 & _).
  destruct (new_token (fl_generator st)) as [new g2]. simpl in E2.
  destruct (f_eq_drop (diff_list st)); cbn [negb];
    [apply add_new_token_types|].
  destruct (has_nonempty_intersection f_and get_classifier n
              (f_not (diff_list st))).
  - destruct (add_new_token g2 (f_and n (f_not (diff_list st))) ty)
      as [[t3 g3]|] eqn:E3; [|discriminate]. simpl.
    destruct (set_token_to_tokens g3 ty new
                (new_intersecting_tokens st ++ [t3])) as [g4|] eqn:E4;
      [|discriminate]. simpl.
    intros [= <- <-].
    apply (types_kept_trans _ g2); [apply types_kept_eq, E2|].
    apply (types_kept_trans _ g3); [eapply add_new_token_types, E3|].
    apply (types_kept_trans _ g4); [eapply set_token_to_tokens_types, E4|].
    apply types_kept_eq. reflexivity.
  - simpl.
    destruct (set_token_to_tokens g2 ty new
                (new_intersecting_tokens st ++ [])) as [g4|] eqn:E4;
      [|discriminate]. simpl.
    intros [= <- <-].
    apply (types_kept_trans _ g2); [apply types_kept_eq, E2|].
    apply (types_kept_trans _ g4); [eapply set_token_to_tokens_types, E4|].
    apply types_kept_eq. reflexivity.
Qed.

Lemma get_token_types g pol tyo t g' :
  get_token f_and f_or f_not f_drop f_eq_drop get_classifier g pol tyo true
  = Ok (t, g') ->
  types_kept g g'.
Proof.
  unfold get_token.
  set (ty := toktype_or_default tyo).
  destruct (filter_to_token (ensure_toktype g ty) !! ty) as [f2t|];
    [|discriminate].
  destruct (f2t !! pol) as [t0|].
  - intros [= <- <-]. apply ensure_toktype_types.
  - intros E. apply add_new_filter_types in E.
    apply (types_kept_trans _ _ _ (ensure_toktype_types g ty) E).
Qed.

(** A registered type stays registered. *)
Lemma registered_kept g g' ty :
  well_formed g -> well_formed g' -> types_kept g g' ->
  registered g ty -> registered g' ty.
Proof.
  intros Hwf Hwf' Hk Hreg. apply Hwf', Hk.
  destruct (decide (ty ∈ toktypes g)) as [Hin|Hn]; [exact Hin|].
  destruct (proj2 (Hwf ty) Hn) as (E & _). destruct Hreg as [[x Hx] _].
  congruence.
Qed.

End TypeFacts.

Section LoopFacts.
Context {F : Type} `{Countable F} {P : Type}.
Variable sem : F -> P -> bool.
Variable f_and : F -> F -> F.
Variable f_or : F -> F -> F.
Variable f_not : F -> F.
Variable f_drop : F.
Variable f_eq_drop : F -> bool.
Variable get_classifier : F -> Classifier.

Hypothesis sem_and : forall a b p, sem (f_and a b) p = sem a p && sem b p.
Hypothesis sem_or : forall a b p, sem (f_or a b) p = sem a p || sem b p.
Hypothesis sem_not : forall a p, sem (f_not a) p = negb (sem a p).
Hypothesis sem_drop : forall p, sem f_drop p = false.
Hypothesis eq_drop_drop : f_eq_drop f_drop = true.
Hypothesis eq_drop_sem : forall f, f_eq_drop f = true -> forall p, sem f p = false.
Hypothesis classifier_exact :
  forall f,
    existsb (fun rule => negb (existsb eq_drop (rule_actions rule)))
            (rules (get_classifier f)) = true <->
    exists p, sem f p = true.

Implicit Types g : generator F.

Local Abbreviation linv := (loop_inv sem f_or f_drop f_eq_drop).
Local Abbreviation hni := (has_nonempty_intersection f_and get_classifier).

Lemma hni_true (a b : F) :
  hni a b = true <-> exists p, sem a p = true /\ sem b p = true.
Proof.
  unfold has_nonempty_intersection. rewrite classifier_exact.
  split; intros [p Hp]; exists p.
  - rewrite sem_and in Hp. apply andb_true_iff, Hp.
  - rewrite sem_and. apply andb_true_iff, Hp.
Qed.

Lemma hni_false (a b : F) :
  hni a b = false -> forall p, ~ (sem a p = true /\ sem b p = true).
Proof.
  intros Hf p Hp.
  assert (hni a b = true) as Ht by (apply hni_true; eauto). congruence.
Qed.

(** What the split of a leaf does to the dictionaries of its type. *)
Lemma split_effect g ty e n tok :
  well_formed g -> registered g ty ->
  keys g ty !! e = Some tok -> leaves g ty !! tok = Some e ->
  exists t1 t2 g4,
    rbind (delete_filter g ty e tok) (fun g1 =>
    rbind (add_new_token g1 (f_and e (f_not n)) ty) (fun '(new_tok1, g2) =>
    rbind (add_new_token g2 (f_and e n) ty) (fun '(new_tok2, g3) =>
    rbind (set_token_to_tokens g3 ty tok [new_tok1; new_tok2]) (fun g4 =>
    Ok (g4, new_tok2)))))
    = Ok (g4, t2) /\
    token g < t1 /\ t1 < t2 /\ token g4 = t2 /\
    well_formed g4 /\ registered g4 ty /\
    keys g4 ty =
      <[f_and e n := t2]> (<[f_and e (f_not n) := t1]> (delete e (keys g ty))) /\
    leaves g4 ty =
      <[t2 := f_and e n]> (<[t1 := f_and e (f_not n)]> (delete tok (leaves g ty))) /\
    aliases g4 ty = <[tok := [t1; t2]]> (aliases g ty) /\
    (forall ty', ty' <> ty ->
       keys g4 ty' = keys g ty' /\ leaves g4 ty' = leaves g ty' /\
       aliases g4 ty' = aliases g ty').
Proof.
  intros Hwf Hreg Hk Hl.
  destruct (delete_filter_spec g ty e tok Hwf Hreg Hk Hl)
    as (g1 & E1 & T1 & W1 & R1 & K1 & L1 & A1 & O1).
  destruct (add_new_token_spec g1 (f_and e (f_not n)) ty W1)
    as (t1 & g2 & E2 & Lt2 & T2 & W2 & R2 & K2 & L2 & A2 & O2).
  destruct (add_new_token_spec g2 (f_and e n) ty W2)
    as (t2 & g3 & E3 & Lt3 & T3 & W3 & R3 & K3 & L3 & A3 & O3).
  destruct (set_token_to_tokens_spec g3 ty tok [t1; t2] W3 R3)
    as (g4 & E4 & T4 & W4 & R4 & K4 & L4 & A4 & O4).
  exists t1, t2, g4.
  rewrite E1. simpl. rewrite E2. simpl. rewrite E3. simpl. rewrite E4. simpl.
  split; [reflexivity|]. split; [lia|]. split; [lia|].
  split; [lia|]. split; [exact W4|]. split; [exact R4|].
  split; [rewrite K4, K3, K2, K1; reflexivity|].
  split; [rewrite L4, L3, L2, L1; reflexivity|].
  split; [rewrite A4, A3, A2, A1; reflexivity|].
  intros ty' Hne.
  destruct (O1 ty' Hne) as (a1 & b1 & c1).
  destruct (O2 ty' Hne) as (a2 & b2 & c2).
  destruct (O3 ty' Hne) as (a3 & b3 & c3).
  destruct (O4 ty' Hne) as (a4 & b4 & c4).
  split; [congruence|]. split; congruence.
Qed.


Lemma sem_next_diff (d e : F) (p : P) :
  sem (if f_eq_drop d then e else f_or d e) p = sem d p || sem e p.
Proof.
  destruct (f_eq_drop d) eqn:E; [|apply sem_or].
  rewrite (eq_drop_sem d E p). reflexivity.
Qed.

Lemma next_diff_not_drop (d e : F) (p : P) :
  sem e p = true -> f_eq_drop (if f_eq_drop d then e else f_or d e) = false.
Proof.
  intros Hp.
  destruct (f_eq_drop (if f_eq_drop d then e else f_or d e)) eqn:E;
    [|reflexivity].
  pose proof (eq_drop_sem _ E p) as Hs. rewrite sem_next_diff, Hp in Hs.
  rewrite orb_true_r in Hs. discriminate.
Qed.

Local Abbreviation step := (add_new_filter_step f_and f_or f_not f_eq_drop get_classifier).

(** A turn of the loop on a filter that does not meet the new one. *)
Lemma step_apart g0 ty n e rest st :
  linv g0 ty n (e :: rest) st -> hni e n = false ->
  step n ty st e = Ok st /\ linv g0 ty n rest st.
Proof.
  intros LI Hf. unfold add_new_filter_step. rewrite Hf.
  split; [reflexivity|]. destruct LI. constructor; try assumption.
  - intros e' He'. apply li_todo0. right. exact He'.
  - apply NoDup_cons in li_nodup0 as [_ Hnd]. exact Hnd.
  - intros t f Hl. destruct (li_done0 t f Hl) as [Hin|Hr]; [|auto].
    apply elem_of_cons in Hin as [->|Hin]; [|auto].
    right. left. intros p Hp. destruct (sem n p) eqn:E; [|reflexivity].
    destruct (hni_false _ _ Hf p). auto.
Qed.

(** The head of [todo] is a leaf, under one token only. *)
Lemma todo_head g0 ty n e rest st :
  linv g0 ty n (e :: rest) st ->
  exists tok,
    keys (fl_generator st) ty !! e = Some tok /\
    leaves (fl_generator st) ty !! tok = Some e /\
    (forall t, leaves (fl_generator st) ty !! t = Some e -> t = tok) /\
    e ∉ rest.
Proof.
  intros LI. destruct LI.
  destruct (li_todo0 e) as [tok Htok]; [left|].
  exists tok. split; [apply li_inv0, Htok|]. split; [exact Htok|].
  split.
  - intros t Ht. apply li_inv0 in Ht, Htok. congruence.
  - apply NoDup_cons in li_nodup0 as [Hn _]. exact Hn.
Qed.

(** A turn of the loop on a filter that lies within the new one. *)
Lemma step_inside g0 ty n e rest st :
  linv g0 ty n (e :: rest) st ->
  hni e n = true -> hni e (f_not n) = false ->
  exists st', step n ty st e = Ok st' /\ linv g0 ty n rest st'.
Proof.
  intros LI Ht Hf.
  destruct (todo_head _ _ _ _ _ _ LI) as (tok & Hk & Hl & Huniq & Hnin).
  destruct LI.
  destruct (registered_keys _ _ li_reg0) as (Ek & _ & _).
  unfold add_new_filter_step. rewrite Ht, Ek, Hk, Hf. simpl.
  eexists. split; [reflexivity|].
  apply hni_true in Ht as (q & Hq1 & Hq2).
  assert (forall p, sem e p = true -> sem n p = true) as Hsub.
  { intros p Hp. destruct (sem n p) eqn:E; [reflexivity|].
    destruct (hni_false _ _ Hf p). rewrite sem_not, E. auto. }
  constructor; simpl; try assumption.
  - intros e' He'. apply li_todo0. right. exact He'.
  - apply NoDup_cons in li_nodup0 as [_ Hnd]. exact Hnd.
  - intros t f Hlf. destruct (li_done0 t f Hlf) as [Hin|[Hr|[Hin Hr]]].
    + apply elem_of_cons in Hin as [->|Hin]; [|auto].
      right. right. rewrite (Huniq t Hlf). split.
      * apply elem_of_app. right. apply list_elem_of_singleton. reflexivity.
      * intros p Hp. split; [auto|]. rewrite sem_next_diff, Hp.
        apply orb_true_r.
    + auto.
    + right. right. split; [apply elem_of_app; auto|].
      intros p Hp. destruct (Hr p Hp) as [H1 H2]. split; [exact H1|].
      rewrite sem_next_diff, H2. reflexivity.
  - intros t Hin. apply elem_of_app in Hin as [Hin|Hin].
    + destruct (li_nit0 t Hin) as (f & Hlf & Hr). exists f.
      split; [exact Hlf|]. intros p Hp. destruct (Hr p Hp) as [H1 H2].
      split; [exact H1|]. rewrite sem_next_diff, H2. reflexivity.
    + apply list_elem_of_singleton in Hin as ->. exists e.
      split; [exact Hl|]. intros p Hp. split; [auto|].
      rewrite sem_next_diff, Hp. apply orb_true_r.
  - intros p Hn Hd. rewrite sem_next_diff in Hd.
    apply orb_true_iff in Hd as [Hd|Hd].
    + destruct (li_diff0 p Hn Hd) as (t & f & Hin & Hlf & Hp).
      exists t, f. split; [apply elem_of_app; auto|]. auto.
    + exists tok, e. split; [|auto]. apply elem_of_app. right.
      apply list_elem_of_singleton. reflexivity.
  - intros E. destruct (app_cons_not_nil _ _ _ (eq_sym E)).
  - intros _. apply (next_diff_not_drop _ _ q Hq1).
Qed.

(** A turn of the loop on a filter that the new one cuts in two. *)
Lemma step_split g0 ty n e rest st :
  linv g0 ty n (e :: rest) st ->
  hni e n = true -> hni e (f_not n) = true ->
  exists st', step n ty st e = Ok st' /\ linv g0 ty n rest st'.
Proof.
  intros LI Ht Ht'.
  destruct (todo_head _ _ _ _ _ _ LI) as (tok & Hk & Hl & Huniq & Hnin).
  destruct LI.
  destruct (registered_keys _ _ li_reg0) as (Ek & _ & _).
  destruct (split_effect (fl_generator st) ty e n tok li_wf0 li_reg0 Hk Hl)
    as (t1 & t2 & g4 & E & Lt1 & Lt2 & T4 & W4 & R4 & K4 & L4 & A4 & O4).
  unfold add_new_filter_step. rewrite Ht, Ek, Hk, Ht'.
  match goal with
  | |- context [rbind (rbind ?a ?k) _] =>
      assert (rbind a k =
              Ok (g4, (new_intersecting_tokens st ++ [t2])%list)) as ->
  end.
  { revert E. clear.
    destruct (delete_filter (fl_generator st) ty e tok) as [g1|]; simpl;
      [|discriminate].
    destruct (add_new_token g1 (f_and e (f_not n)) ty) as [[a g2]|]; simpl;
      [|discriminate].
    destruct (add_new_token g2 (f_and e n) ty) as [[b g3]|]; simpl;
      [|discriminate].
    destruct (set_token_to_tokens g3 ty tok [a; b]) as [g5|]; simpl;
      [|discriminate].
    intros [= <- <-]. reflexivity. }
  simpl. eexists. split; [reflexivity|].
  apply hni_true in Ht as (q & Hq1 & Hq2).
  apply hni_true in Ht' as (q' & Hq1' & Hq2').
  set (g := fl_generator st) in *.
  set (piece1 := f_and e (f_not n)) in *.
  set (piece2 := f_and e n) in *.
  assert (forall p, sem piece1 p = true <-> sem e p = true /\ sem n p = false)
    as S1.
  { intros p. unfold piece1. rewrite sem_and, sem_not, andb_true_iff,
      negb_true_iff. reflexivity. }
  assert (forall p, sem piece2 p = true <-> sem e p = true /\ sem n p = true)
    as S2.
  { intros p. unfold piece2. rewrite sem_and, andb_true_iff. reflexivity. }
  assert (forall t, is_Some (leaves g ty !! t) -> t < t1) as Fresh.
  { intros t Hs. assert (t <= token g) by (apply li_bnd0; auto). lia. }
  assert (leaves g ty !! t1 = None) as Ft1.
  { apply eq_None_not_Some. intros Hs. apply Fresh in Hs. lia. }
  assert (leaves g ty !! t2 = None) as Ft2.
  { apply eq_None_not_Some. intros Hs. apply Fresh in Hs. lia. }
  assert (apart_from sem (delete tok (leaves g ty)) piece1) as Ap1.
  { apply (apart_from_inside sem _ tok e); [exact li_disj0|exact Hl|].
    intros p Hp. apply S1 in Hp. tauto. }
  assert (apart_from sem (<[t1 := piece1]> (delete tok (leaves g ty))) piece2)
    as Ap2.
  { apply apart_from_insert.
    - apply (apart_from_inside sem _ tok e); [exact li_disj0|exact Hl|].
      intros p Hp. apply S2 in Hp. tauto.
    - intros p [Hp2 Hp1]. apply S1 in Hp1. apply S2 in Hp2.
      destruct Hp1 as [_ Hp1], Hp2 as [_ Hp2]. congruence. }
  assert (inverse_maps (delete e (keys g ty)) (delete tok (leaves g ty)))
    as I0 by (apply inverse_maps_delete; assumption).
  assert (inverse_maps (<[piece1 := t1]> (delete e (keys g ty)))
            (<[t1 := piece1]> (delete tok (leaves g ty)))) as I1.
  { apply inverse_maps_insert; [exact I0| |].
    - apply (apart_not_key sem _ _ _ q' I0 Ap1). apply S1.
      rewrite sem_not in Hq2'. apply negb_true_iff in Hq2'. auto.
    - rewrite lookup_delete_ne by (intros <-; congruence). exact Ft1. }
  assert (forall t f, leaves g4 ty !! t = Some f <->
            (t = t2 /\ f = piece2) \/ (t = t1 /\ f = piece1) \/
            (t <> tok /\ leaves g ty !! t = Some f)) as Lv.
  { intros t f. rewrite L4, !lookup_insert_Some, lookup_delete_Some. split.
    - intros [[<- <-]|[N2 [[<- <-]|[N1 [Nt Hlf]]]]]; auto.
    - intros [[-> ->]|[[-> ->]|[Nt Hlf]]].
      + auto.
      + right. split; [lia|]. auto.
      + right. assert (t < t1) by (apply Fresh; eauto).
        split; [lia|]. right. split; [lia|]. auto. }
  constructor; simpl.
  - exact W4.
  - exact R4.
  - lia.
  - intros ty' Hne. destruct (O4 ty' Hne) as (a & b & c).
    destruct (li_frame0 ty' Hne) as (a' & b' & c').
    split; [congruence|]. split; congruence.
  - unfold inverse. rewrite K4, L4. apply inverse_maps_insert; [exact I1| |].
    + apply (apart_not_key sem _ _ _ q I1 Ap2). apply S2. auto.
    + rewrite lookup_insert_ne by lia.
      rewrite lookup_delete_ne by (intros <-; congruence). exact Ft2.
  - unfold disjoint_leaves. rewrite L4.
    apply (disjoint_map_insert sem); [|exact Ap2].
    apply (disjoint_map_insert sem); [|exact Ap1].
    apply (disjoint_map_delete sem). exact li_disj0.
  - intros t [Hs|Hs].
    + destruct Hs as [f Hf]. apply Lv in Hf as [[-> _]|[[-> _]|[_ Hf]]];
        [lia|lia|]. assert (t < t1) by (apply Fresh; eauto). lia.
    + rewrite A4 in Hs. destruct (decide (t = tok)) as [->|Hne].
      * assert (tok < t1) by (apply Fresh; eauto). lia.
      * rewrite lookup_insert_ne in Hs by congruence.
        assert (t <= token g) by (apply li_bnd0; auto). lia.
  - intros p. rewrite <- li_cov0. split.
    + intros (t & f & Hf & Hp). apply Lv in Hf as [[-> ->]|[[-> ->]|[_ Hf]]].
      * exists tok, e. split; [exact Hl|]. apply S2 in Hp. tauto.
      * exists tok, e. split; [exact Hl|]. apply S1 in Hp. tauto.
      * exists t, f. auto.
    + intros (t & f & Hf & Hp). destruct (decide (t = tok)) as [->|Hne].
      * rewrite Hl in Hf. injection Hf as <-.
        destruct (sem n p) eqn:En.
        -- exists t2, piece2. split; [apply Lv; auto|]. apply S2. auto.
        -- exists t1, piece1. split; [apply Lv; auto|]. apply S1. auto.
      * exists t, f. split; [apply Lv; auto|exact Hp].
  - intros t f Hd.
    apply (refines_denotes sem f_or sem_or g g4 ty t f li_reg0 R4);
      [|apply li_den0, Hd].
    split.
    + intros t' f' Hf'. destruct (decide (t' = tok)) as [->|Hne].
      * rewrite Hl in Hf'. injection Hf' as <-.
        exists (f_or piece1 piece2). split.
        -- apply (get_filter_alias f_or 0 g4 ty tok [t1; t2]); [exact R4| |  |].
           ++ destruct (leaves g4 ty !! tok) as [x|] eqn:Ex; [|reflexivity].
              apply Lv in Ex as [[-> _]|[[-> _]|[Hn _]]].
              ** assert (t2 < t1) by (apply Fresh; eauto). lia.
              ** assert (t1 < t1) by (apply Fresh; eauto). lia.
              ** contradiction.
           ++ rewrite A4. apply lookup_insert_eq.
           ++ exists piece1, [piece2]. split; [|reflexivity].
              constructor; [|constructor; [|constructor]].
              ** apply get_filter_leaf; [exact R4|]. apply Lv. auto.
              ** apply get_filter_leaf; [exact R4|]. apply Lv. auto.
        -- intros p. rewrite sem_or.
           destruct (sem piece1 p) eqn:E1, (sem piece2 p) eqn:E2,
             (sem e p) eqn:E3; simpl; try reflexivity.
           ++ apply S1 in E1. destruct E1. congruence.
           ++ apply S1 in E1. destruct E1. congruence.
           ++ apply S2 in E2. destruct E2. congruence.
           ++ destruct (sem n p) eqn:En.
              ** assert (sem piece2 p = true) by (apply S2; auto). congruence.
              ** assert (sem piece1 p = true) by (apply S1; auto). congruence.
      * exists f'. split; [|reflexivity].
        apply get_filter_leaf; [exact R4|]. apply Lv. auto.
    + intros t' l Hn Ha. split.
      * destruct (leaves g4 ty !! t') as [x|] eqn:Ex; [|reflexivity].
        assert (t' <= token g) by (apply li_bnd0; right; eauto).
        apply Lv in Ex as [[-> _]|[[-> _]|[_ Ex]]]; [lia|lia|congruence].
      * rewrite A4. rewrite lookup_insert_ne; [exact Ha|].
        intros <-. congruence.
  - intros e' He'. destruct (li_todo0 e') as [t Hlf]; [right; exact He'|].
    exists t. apply Lv. right. right. split; [|exact Hlf].
    intros ->. rewrite Hl in Hlf. injection Hlf as <-. contradiction.
  - apply NoDup_cons in li_nodup0 as [_ Hnd]. exact Hnd.
  - intros t f Hf. apply Lv in Hf as [[-> ->]|[[-> ->]|[Hne Hf]]].
    + right. right. split.
      * apply elem_of_app. right. apply list_elem_of_singleton. reflexivity.
      * intros p Hp. apply S2 in Hp as [Hp1 Hp2]. split; [exact Hp2|].
        rewrite sem_next_diff, Hp1. apply orb_true_r.
    + right. left. intros p Hp. apply S1 in Hp. tauto.
    + destruct (li_done0 t f Hf) as [Hin|[Hr|[Hin Hr]]].
      * apply elem_of_cons in Hin as [->|Hin]; [|auto].
        destruct (Hne (Huniq t Hf)).
      * auto.
      * right. right. split; [apply elem_of_app; auto|].
        intros p Hp. destruct (Hr p Hp) as [H1 H2]. split; [exact H1|].
        rewrite sem_next_diff, H2. reflexivity.
  - intros t Hin. apply elem_of_app in Hin as [Hin|Hin].
    + destruct (li_nit0 t Hin) as (f & Hlf & Hr). exists f. split.
      * apply Lv. right. right. split; [|exact Hlf].
        intros ->. rewrite Hl in Hlf. injection Hlf as <-.
        destruct (Hr q' Hq1') as [Hn _].
        rewrite sem_not, Hn in Hq2'. discriminate.
      * intros p Hp. destruct (Hr p Hp) as [H1 H2]. split; [exact H1|].
        rewrite sem_next_diff, H2. reflexivity.
    + apply list_elem_of_singleton in Hin as ->. exists piece2.
      split; [apply Lv; auto|].
      intros p Hp. apply S2 in Hp as [Hp1 Hp2]. split; [exact Hp2|].
      rewrite sem_next_diff, Hp1. apply orb_true_r.
  - intros p Hn Hd. rewrite sem_next_diff in Hd.
    apply orb_true_iff in Hd as [Hd|Hd].
    + destruct (li_diff0 p Hn Hd) as (t & f & Hin & Hlf & Hp).
      exists t, f. split; [apply elem_of_app; auto|]. split; [|exact Hp].
      apply Lv. right. right. split; [|exact Hlf].
      intros ->. rewrite Hl in Hlf. injection Hlf as <-.
      destruct (li_nit0 tok Hin) as (f' & Hlf' & Hr).
      rewrite Hl in Hlf'. injection Hlf' as <-.
      destruct (Hr q' Hq1') as [Hn' _].
      rewrite sem_not, Hn' in Hq2'. discriminate.
    + exists t2, piece2. split.
      * apply elem_of_app. right. apply list_elem_of_singleton. reflexivity.
      * split; [apply Lv; auto|]. apply S2. auto.
  - intros E'. destruct (app_cons_not_nil _ _ _ (eq_sym E')).
  - intros _. apply (next_diff_not_drop _ _ q Hq1).
Qed.

Local Abbreviation loop :=
  (add_new_filter_loop f_and f_or f_not f_eq_drop get_classifier).

(** The loop of [__add_new_filter] returns, and the invariant holds when
    every existing filter has been visited. *)
Lemma loop_spec g0 ty n todo :
  forall st, linv g0 ty n todo st ->
  exists st', loop n ty todo st = Ok st' /\ linv g0 ty n [] st'.
Proof.
  induction todo as [|e rest IH]; intros st LI.
  - exists st. split; [reflexivity|exact LI].
  - simpl. destruct (hni e n) eqn:Hen.
    + destruct (hni e (f_not n)) eqn:Hen'.
      * destruct (step_split _ _ _ _ _ _ LI Hen Hen') as (st1 & E1 & LI1).
        rewrite E1. simpl. apply IH, LI1.
      * destruct (step_inside _ _ _ _ _ _ LI Hen Hen') as (st1 & E1 & LI1).
        rewrite E1. simpl. apply IH, LI1.
    + destruct (step_apart _ _ _ _ _ _ LI Hen) as (E1 & LI1).
      rewrite E1. simpl. apply IH, LI1.
Qed.

(** The invariant holds when the loop is entered. *)
Lemma loop_inv_start g ty n :
  well_formed g -> registered g ty -> inverse g ty ->
  disjoint_leaves sem g ty -> bounded g ty ->
  linv g ty n (map_to_list (leaves g ty)).*2 (mk_filter_loop g f_drop []).
Proof.
  intros Hwf Hreg Hinv Hdisj Hbnd. constructor; simpl.
  - exact Hwf.
  - exact Hreg.
  - lia.
  - auto.
  - exact Hinv.
  - exact Hdisj.
  - exact Hbnd.
  - tauto.
  - auto.
  - intros e He. apply list_elem_of_fmap in He as ([t f] & -> & Hin).
    apply elem_of_map_to_list in Hin. exists t. exact Hin.
  - apply NoDup_fmap_2_strong; [|apply NoDup_map_to_list].
    intros [t1 f1] [t2 f2] H1 H2 Heq. simpl in Heq. subst f2.
    apply elem_of_map_to_list in H1. apply elem_of_map_to_list in H2.
    apply Hinv in H1. apply Hinv in H2. congruence.
  - intros t f Hl. left. apply list_elem_of_fmap. exists (t, f).
    split; [reflexivity|]. apply elem_of_map_to_list. exact Hl.
  - intros t Hin. apply elem_of_nil in Hin. contradiction.
  - intros p _ Hp. rewrite sem_drop in Hp. discriminate.
  - auto.
  - intros Hn. contradiction.
Qed.


Local Abbreviation anf :=
  (add_new_filter f_and f_or f_not f_drop f_eq_drop get_classifier).

(** After the loop, when no existing filter met the new one: the new
    filter becomes a leaf. *)
Lemma add_new_filter_apart g ty n st :
  inverse g ty -> disjoint_leaves sem g ty -> bounded g ty ->
  keys g ty !! n = None ->
  linv g ty n [] st -> f_eq_drop (diff_list st) = true ->
  exists t g',
    add_new_token (fl_generator st) n ty = Ok (t, g') /\ added sem f_or g ty n t g'.
Proof.
  intros Hinv Hdisj Hbnd Hkey LI Ed. destruct LI.
  destruct (new_intersecting_tokens st) as [|t0 nit] eqn:En;
    [|rewrite li_some0 in Ed; [discriminate|discriminate]].
  destruct (li_none0 eq_refl) as [Hd Hg]. rewrite Hg in *.
  destruct (add_new_token_spec g n ty li_wf0)
    as (t & g' & E & Lt & T & W & R & K & L & A & O).
  exists t, g'. split; [exact E|].
  assert (leaves g ty !! t = None) as Ft.
  { apply eq_None_not_Some. intros Hs.
    assert (t <= token g) by (apply Hbnd; auto). lia. }
  assert (apart_from sem (leaves g ty) n) as Ap.
  { intros t1 f1 Hl p [Hp Hp1].
    destruct (li_done0 t1 f1 Hl) as [Hin|[Hr|[Hin _]]].
    - apply elem_of_nil in Hin. contradiction.
    - rewrite (Hr p Hp1) in Hp. discriminate.
    - apply elem_of_nil in Hin. contradiction. }
  constructor.
  - exact W.
  - exact R.
  - lia.
  - unfold inverse. rewrite K, L. apply inverse_maps_insert; assumption.
  - unfold disjoint_leaves. rewrite L.
    apply (disjoint_map_insert sem); assumption.
  - intros t1 [Hs|Hs].
    + rewrite L in Hs. destruct (decide (t1 = t)) as [->|Hne]; [lia|].
      rewrite lookup_insert_ne in Hs by congruence.
      assert (t1 <= token g) by (apply Hbnd; auto). lia.
    + rewrite A in Hs. assert (t1 <= token g) by (apply Hbnd; auto). lia.
  - intros p. unfold covered. rewrite L. split.
    + intros (t1 & f1 & Hl & Hp).
      apply lookup_insert_Some in Hl as [[<- <-]|[_ Hl]]; [auto|].
      left. eauto.
    + intros [(t1 & f1 & Hl & Hp)|Hp].
      * exists t1, f1. split; [|exact Hp].
        rewrite lookup_insert_ne; [exact Hl|]. intros <-. congruence.
      * exists t, n. split; [apply lookup_insert_eq|exact Hp].
  - intros t1 f1.
    apply (refines_denotes sem f_or sem_or g g' ty t1 f1 li_reg0 R).
    apply refines_fresh; [exact R| |].
    + intros t2 f2 Hl. rewrite L.
      rewrite lookup_insert_ne; [exact Hl|]. intros <-. congruence.
    + intros t2 l Hl Ha. rewrite L, A. split; [|exact Ha].
      rewrite lookup_insert_ne; [exact Hl|]. intros <-.
      assert (t <= token g) by (apply Hbnd; right; eauto). lia.
  - exists 0%nat, n. split; [|reflexivity].
    apply get_filter_leaf; [exact R|]. rewrite L. apply lookup_insert_eq.
  - exact O.
Qed.

(** After the loop, when some existing filter met the new one: the new
    token is an alias of the tokens of the pieces. *)
Lemma add_new_filter_alias g ty n st :
  linv g ty n [] st -> f_eq_drop (diff_list st) = false ->
  exists t g',
    (let '(new, g2) := new_token (fl_generator st) in
     rbind
       (if hni n (f_not (diff_list st))
        then
          rbind (add_new_token g2 (f_and n (f_not (diff_list st))) ty)
                (fun '(t, g3) => Ok ([t], g3))
        else Ok ([], g2))
       (fun '(new_disjoint_token, g3) =>
     rbind (set_token_to_tokens g3 ty new
              (new_intersecting_tokens st ++ new_disjoint_token)%list)
           (fun g4 =>
     Ok (new,
         mk_generator (token g4) (toktypes g4) (filter_to_token g4)
           (token_to_filter g4) (token_to_tokens g4)
           (<[new := ty]> (token_to_toktype g4))))))
    = Ok (t, g') /\ added sem f_or g ty n t g'.
Proof.
  intros LI Ed. destruct LI.
  set (g1 := fl_generator st) in *. set (d := diff_list st) in *.
  set (nit := new_intersecting_tokens st) in *.
  pose proof (new_token_spec g1) as (Lt & _ & T2 & Ty2 & K2 & L2 & A2 & _).
  destruct (new_token g1) as [new g2]. simpl in Lt, T2, Ty2, K2, L2, A2.
  assert (well_formed g2) as W2.
  { apply (well_formed_same g1); [exact li_wf0|exact Ty2|].
    intros ty'. rewrite K2, L2, A2. tauto. }
  assert (forall ty', keys g2 ty' = keys g1 ty' /\
                      leaves g2 ty' = leaves g1 ty' /\
                      aliases g2 ty' = aliases g1 ty') as S2.
  { intros ty'. unfold keys, leaves, aliases. rewrite K2, L2, A2. auto. }
  destruct (S2 ty) as (Sk & Sl & Sa).
  assert (registered g2 ty) as R2.
  { unfold registered. rewrite K2, L2, A2. exact li_reg0. }
  assert (nit <> []) as Hnit.
  { intros Hn. destruct (li_none0 Hn) as [Hd _].
    rewrite Hd, eq_drop_drop in Ed. discriminate. }
  assert (forall t, is_Some (leaves g1 ty !! t) \/
                    is_Some (aliases g1 ty !! t) -> t < new) as Fresh.
  { intros t Hs. assert (t <= token g1) by (apply li_bnd0; exact Hs). lia. }
  assert (forall p, sem n p = true -> sem d p = true ->
            covered sem g1 ty p) as Hcov.
  { intros p Hn Hd. destruct (li_diff0 p Hn Hd) as (t & f & _ & Hl & Hp).
    exists t, f. auto. }
  destruct (hni n (f_not d)) eqn:Hres.
  - apply hni_true in Hres as (q & Hq & Hq').
    rewrite sem_not in Hq'. apply negb_true_iff in Hq'.
    set (res := f_and n (f_not d)) in *.
    assert (forall p, sem res p = true <-> sem n p = true /\ sem d p = false)
      as Sres.
    { intros p. unfold res. rewrite sem_and, sem_not, andb_true_iff,
        negb_true_iff. reflexivity. }
    destruct (add_new_token_spec g2 res ty W2)
      as (t3 & g3 & E3 & Lt3 & T3 & W3 & R3 & K3 & L3 & A3 & O3).
    destruct (set_token_to_tokens_spec g3 ty new (nit ++ [t3]) W3 R3)
      as (g4 & E4 & T4 & W4 & R4 & K4 & L4 & A4 & O4).
    rewrite E3. simpl. rewrite E4. simpl.
    eexists _, _. split; [reflexivity|].
    match goal with |- added _ _ _ _ _ _ ?x => set (g5 := x) end.
    assert (keys g5 ty = <[res := t3]> (keys g1 ty)) as K5.
    { transitivity (keys g4 ty); [reflexivity|]. rewrite K4, K3, Sk.
      reflexivity. }
    assert (leaves g5 ty = <[t3 := res]> (leaves g1 ty)) as L5.
    { transitivity (leaves g4 ty); [reflexivity|]. rewrite L4, L3, Sl.
      reflexivity. }
    assert (aliases g5 ty = <[new := (nit ++ [t3])%list]> (aliases g1 ty))
      as A5.
    { transitivity (aliases g4 ty); [reflexivity|]. rewrite A4, A3, Sa.
      reflexivity. }
    assert (registered g5 ty) as R5 by exact R4.
    assert (leaves g1 ty !! t3 = None) as Ft3.
    { apply eq_None_not_Some. intros Hs.
      assert (t3 < new) by (apply Fresh; auto). lia. }
    assert (apart_from sem (leaves g1 ty) res) as Ap.
    { intros t1 f1 Hl p [Hp Hp1]. apply Sres in Hp as [Hn Hd].
      destruct (li_done0 t1 f1 Hl) as [Hin|[Hr|[_ Hr]]].
      - apply elem_of_nil in Hin. contradiction.
      - rewrite (Hr p Hp1) in Hn. discriminate.
      - destruct (Hr p Hp1) as [_ Hd']. fold d in Hd'. congruence. }
    constructor.
    + apply (well_formed_same g4); [exact W4|reflexivity|]. intros ty'.
      simpl. tauto.
    + exact R5.
    + simpl. lia.
    + unfold inverse. rewrite K5, L5.
      apply inverse_maps_insert; [exact li_inv0| |exact Ft3].
      apply (apart_not_key sem _ _ _ q li_inv0 Ap). apply Sres. auto.
    + unfold disjoint_leaves. rewrite L5.
      apply (disjoint_map_insert sem); assumption.
    + intros t1 [Hs|Hs]; simpl.
      * rewrite L5 in Hs. destruct (decide (t1 = t3)) as [->|Hne]; [lia|].
        rewrite lookup_insert_ne in Hs by congruence.
        assert (t1 < new) by (apply Fresh; auto). lia.
      * rewrite A5 in Hs. destruct (decide (t1 = new)) as [->|Hne]; [lia|].
        rewrite lookup_insert_ne in Hs by congruence.
        assert (t1 < new) by (apply Fresh; auto). lia.
    + intros p. rewrite <- li_cov0. unfold covered at 1. rewrite L5. split.
      * intros (t1 & f1 & Hl & Hp).
        apply lookup_insert_Some in Hl as [[<- <-]|[_ Hl]].
        -- right. apply Sres in Hp. tauto.
        -- left. exists t1, f1. auto.
      * intros [(t1 & f1 & Hl & Hp)|Hp].
        -- exists t1, f1. split; [|exact Hp].
           rewrite lookup_insert_ne; [exact Hl|]. intros <-. congruence.
        -- destruct (sem d p) eqn:Hd.
           ++ destruct (Hcov p Hp Hd) as (t1 & f1 & Hl & Hp1).
              exists t1, f1. split; [|exact Hp1].
              rewrite lookup_insert_ne; [exact Hl|]. intros <-. congruence.
           ++ exists t3, res. split; [apply lookup_insert_eq|].
              apply Sres. auto.
    + intros t1 f1 Hden.
      apply (refines_denotes sem f_or sem_or g1 g5 ty t1 f1 li_reg0 R5);
        [|apply li_den0, Hden].
      apply refines_fresh; [exact R5| |].
      * intros t2 f2 Hl. rewrite L5.
        rewrite lookup_insert_ne; [exact Hl|]. intros <-. congruence.
      * intros t2 l Hl Ha. rewrite L5, A5.
        assert (t2 < new) by (apply Fresh; right; eauto).
        rewrite !lookup_insert_ne by lia. auto.
    + apply (alias_of_leaves sem f_or sem_or g5 ty new (nit ++ [t3]) n R5).
      * rewrite L5, lookup_insert_ne by lia.
        apply eq_None_not_Some. intros Hs.
        assert (new < new) by (apply Fresh; auto). lia.
      * rewrite A5. apply lookup_insert_eq.
      * intros E. destruct (app_cons_not_nil _ _ _ (eq_sym E)).
      * intros tok Hin. rewrite L5. apply elem_of_app in Hin as [Hin|Hin].
        -- destruct (li_nit0 tok Hin) as (f & Hl & Hr). exists f. split.
           ++ rewrite lookup_insert_ne; [exact Hl|]. intros <-. congruence.
           ++ intros p Hp. apply (Hr p Hp).
        -- apply list_elem_of_singleton in Hin as ->. exists res.
           split; [apply lookup_insert_eq|]. intros p Hp.
           apply Sres in Hp. tauto.
      * intros p Hp. rewrite L5. destruct (sem d p) eqn:Hd.
        -- destruct (li_diff0 p Hp Hd) as (t1 & f1 & Hin & Hl & Hp1).
           exists t1, f1. split; [apply elem_of_app; auto|].
           split; [|exact Hp1].
           rewrite lookup_insert_ne; [exact Hl|]. intros <-. congruence.
        -- exists t3, res. split.
           ++ apply elem_of_app. right. apply list_elem_of_singleton.
              reflexivity.
           ++ split; [apply lookup_insert_eq|]. apply Sres. auto.
    + intros ty' Hne'.
      destruct (O4 ty' Hne') as (a4 & b4 & c4).
      destruct (O3 ty' Hne') as (a3 & b3 & c3).
      destruct (S2 ty') as (a2 & b2 & c2).
      destruct (li_frame0 ty' Hne') as (a1 & b1 & c1).
      change (keys g4 ty' = keys g ty' /\ leaves g4 ty' = leaves g ty' /\
              aliases g4 ty' = aliases g ty').
      split; [congruence|]. split; congruence.
  - pose proof (hni_false _ _ Hres) as Hall.
    assert (forall p, sem n p = true -> sem d p = true) as Hin_d.
    { intros p Hp. destruct (sem d p) eqn:Hd; [reflexivity|].
      destruct (Hall p). rewrite sem_not, Hd. auto. }
    destruct (set_token_to_tokens_spec g2 ty new (nit ++ []) W2 R2)
      as (g4 & E4 & T4 & W4 & R4 & K4 & L4 & A4 & O4).
    simpl. rewrite E4. simpl.
    eexists _, _. split; [reflexivity|].
    match goal with |- added _ _ _ _ _ _ ?x => set (g5 := x) end.
    assert (keys g5 ty = keys g1 ty) as K5.
    { transitivity (keys g4 ty); [reflexivity|]. rewrite K4, Sk.
      reflexivity. }
    assert (leaves g5 ty = leaves g1 ty) as L5.
    { transitivity (leaves g4 ty); [reflexivity|]. rewrite L4, Sl.
      reflexivity. }
    assert (aliases g5 ty = <[new := nit]> (aliases g1 ty)) as A5.
    { transitivity (aliases g4 ty); [reflexivity|].
      rewrite A4, Sa, app_nil_r. reflexivity. }
    assert (registered g5 ty) as R5 by exact R4.
    constructor.
    + apply (well_formed_same g4); [exact W4|reflexivity|]. intros ty'.
      simpl. tauto.
    + exact R5.
    + simpl. lia.
    + unfold inverse. rewrite K5, L5. exact li_inv0.
    + unfold disjoint_leaves. rewrite L5. exact li_disj0.
    + intros t1 [Hs|Hs]; simpl.
      * rewrite L5 in Hs. assert (t1 < new) by (apply Fresh; auto). lia.
      * rewrite A5 in Hs. destruct (decide (t1 = new)) as [->|Hne]; [lia|].
        rewrite lookup_insert_ne in Hs by congruence.
        assert (t1 < new) by (apply Fresh; auto). lia.
    + intros p. rewrite <- li_cov0. unfold covered at 1. rewrite L5. split.
      * intros Hc. left. exact Hc.
      * intros [Hc|Hp]; [exact Hc|]. apply (Hcov p Hp), Hin_d, Hp.
    + intros t1 f1 Hden.
      apply (refines_denotes sem f_or sem_or g1 g5 ty t1 f1 li_reg0 R5);
        [|apply li_den0, Hden].
      apply refines_fresh; [exact R5| |].
      * intros t2 f2 Hl. rewrite L5. exact Hl.
      * intros t2 l Hl Ha. rewrite L5, A5.
        assert (t2 < new) by (apply Fresh; right; eauto).
        rewrite lookup_insert_ne by lia. auto.
    + apply (alias_of_leaves sem f_or sem_or g5 ty new nit n R5).
      * rewrite L5. apply eq_None_not_Some. intros Hs.
        assert (new < new) by (apply Fresh; auto). lia.
      * rewrite A5. apply lookup_insert_eq.
      * exact Hnit.
      * intros tok Hin. rewrite L5.
        destruct (li_nit0 tok Hin) as (f & Hl & Hr). exists f.
        split; [exact Hl|]. intros p Hp. apply (Hr p Hp).
      * intros p Hp. rewrite L5.
        destruct (li_diff0 p Hp (Hin_d p Hp)) as (t1 & f1 & Hin & Hl & Hp1).
        exists t1, f1. auto.
    + intros ty' Hne'.
      destruct (O4 ty' Hne') as (a4 & b4 & c4).
      destruct (S2 ty') as (a2 & b2 & c2).
      destruct (li_frame0 ty' Hne') as (a1 & b1 & c1).
      change (keys g4 ty' = keys g ty' /\ leaves g4 ty' = leaves g ty' /\
              aliases g4 ty' = aliases g ty').
      split; [congruence|]. split; congruence.
Qed.

(** [__add_new_filter] returns, for a filter that is not a key yet. *)
Lemma add_new_filter_spec g ty n :
  well_formed g -> registered g ty -> inverse g ty ->
  disjoint_leaves sem g ty -> bounded g ty -> keys g ty !! n = None ->
  exists t g', anf g n ty = Ok (t, g') /\ added sem f_or g ty n t g'.
Proof.
  intros Hwf Hreg Hinv Hdisj Hbnd Hkey.
  destruct (registered_keys _ _ Hreg) as (_ & El & _).
  unfold add_new_filter. rewrite El.
  destruct (loop_spec g ty n _ _
              (loop_inv_start g ty n Hwf Hreg Hinv Hdisj Hbnd))
    as (st & E & LI).
  rewrite E. simpl.
  destruct (f_eq_drop (diff_list st)) eqn:Ed; simpl.
  - apply add_new_filter_apart; assumption.
  - apply add_new_filter_alias; assumption.
Qed.


Lemma denotes_registered g ty t f :
  well_formed g -> denotes sem f_or g ty t f -> registered g ty.
Proof.
  intros Hwf (fuel & f' & Hg & _).
  destruct (decide (ty ∈ toktypes g)) as [Hin|Hn]; [apply Hwf, Hin|].
  destruct (proj2 (Hwf ty) Hn) as (_ & E & _).
  destruct fuel; simpl in Hg; rewrite E in Hg; discriminate.
Qed.

(** A token of a type whose dictionaries are left alone expands as
    before. *)
Lemma denotes_frame g g' ty t f :
  well_formed g -> well_formed g' -> types_kept g g' ->
  leaves g' ty = leaves g ty -> aliases g' ty = aliases g ty ->
  denotes sem f_or g ty t f -> denotes sem f_or g' ty t f.
Proof.
  intros Hwf Hwf' Hk El Ea Hden.
  pose proof (denotes_registered _ _ _ _ Hwf Hden) as Hreg.
  pose proof (registered_kept _ _ _ Hwf Hwf' Hk Hreg) as Hreg'.
  apply (refines_denotes sem f_or sem_or g g' ty t f Hreg Hreg');
    [|exact Hden].
  apply refines_fresh; [exact Hreg'| |]; rewrite El; [auto|].
  rewrite Ea. auto.
Qed.

Local Abbreviation gt :=
  (get_token f_and f_or f_not f_drop f_eq_drop get_classifier).

(** [get_token] with [nonoverlapping_filters=True] returns, and keeps the
    invariant. *)
Lemma get_token_spec g n tyo :
  gen_inv sem g ->
  exists t g',
    gt g n tyo true = Ok (t, g') /\ gen_inv sem g' /\
    (forall ty p, covered sem g' ty p <->
       covered sem g ty p \/ (toktype_or_default tyo = ty /\ sem n p = true)) /\
    (forall ty t0 f, denotes sem f_or g ty t0 f ->
                     denotes sem f_or g' ty t0 f) /\
    denotes sem f_or g' (toktype_or_default tyo) t n.
Proof.
  intros GI. destruct GI as [Hwf Hinv Hdisj Hbnd].
  set (ty := toktype_or_default tyo).
  destruct (ensure_toktype_spec g ty Hwf) as (W1 & R1 & T1 & S1).
  set (g1 := ensure_toktype g ty) in *.
  destruct (registered_keys _ _ R1) as (Ek & _ & _).
  assert (forall ty', inverse g1 ty') as Hinv1.
  { intros ty'. destruct (S1 ty') as (a & b & _). unfold inverse.
    rewrite a, b. apply Hinv. }
  assert (forall ty', disjoint_leaves sem g1 ty') as Hdisj1.
  { intros ty'. destruct (S1 ty') as (_ & b & _). unfold disjoint_leaves.
    rewrite b. apply Hdisj. }
  assert (forall ty', bounded g1 ty') as Hbnd1.
  { intros ty'. destruct (S1 ty') as (_ & b & c). unfold bounded.
    rewrite b, c, T1. apply Hbnd. }
  assert (forall ty' p, covered sem g1 ty' p <-> covered sem g ty' p) as Hcov1.
  { intros ty' p. destruct (S1 ty') as (_ & b & _). unfold covered.
    rewrite b. reflexivity. }
  assert (forall ty' t0 f, denotes sem f_or g ty' t0 f ->
                           denotes sem f_or g1 ty' t0 f) as Hden1.
  { intros ty' t0 f. destruct (S1 ty') as (_ & b & c).
    apply denotes_frame; auto. apply ensure_toktype_types. }
  assert (exists t g', gt g n tyo true = Ok (t, g') /\
            ((keys g1 ty !! n = Some t /\ g' = g1) \/
             (keys g1 ty !! n = None /\ added sem f_or g1 ty n t g'))) as
    (t & g' & E & Hcase).
  { unfold get_token. fold ty. fold g1. rewrite Ek.
    destruct (keys g1 ty !! n) as [t|] eqn:Hk.
    - exists t, g1. auto.
    - destruct (add_new_filter_spec g1 ty n W1 R1 (Hinv1 ty) (Hdisj1 ty)
                  (Hbnd1 ty) Hk) as (t & g' & E & Had).
      exists t, g'. auto. }
  exists t, g'. split; [exact E|].
  pose proof (get_token_types _ _ _ _ _ _ _ _ _ _ _ E) as Hkept.
  destruct Hcase as [[Hk ->]|[Hk Had]].
  - split; [constructor; assumption|]. split; [|split].
    + intros ty' p. rewrite Hcov1. split; [auto|].
      intros [Hc|[<- Hp]]; [exact Hc|].
      destruct (S1 ty) as (a & _ & _). rewrite a in Hk. apply Hinv in Hk.
      exists t, n. auto.
    + exact Hden1.
    + exists 0%nat, n. split; [|reflexivity].
      apply get_filter_leaf; [exact R1|]. apply Hinv1, Hk.
  - destruct Had.
    assert (well_formed g1 /\ types_kept g1 g') as [_ Hkept1].
    { split; [exact W1|].
      revert E. unfold get_token. fold ty. fold g1. rewrite Ek, Hk.
      apply add_new_filter_types. }
    split; [|split; [|split]].
    + constructor.
      * exact ad_wf0.
      * intros ty'. destruct (decide (ty' = ty)) as [->|Hne]; [exact ad_inv0|].
        destruct (ad_frame0 ty' Hne) as (a & b & _). unfold inverse.
        rewrite a, b. apply Hinv1.
      * intros ty'. destruct (decide (ty' = ty)) as [->|Hne]; [exact ad_disj0|].
        destruct (ad_frame0 ty' Hne) as (_ & b & _). unfold disjoint_leaves.
        rewrite b. apply Hdisj1.
      * intros ty'. destruct (decide (ty' = ty)) as [->|Hne]; [exact ad_bnd0|].
        destruct (ad_frame0 ty' Hne) as (_ & b & c). unfold bounded.
        rewrite b, c. intros t1 Hs.
        assert (t1 <= token g1) by (apply (Hbnd1 ty'); exact Hs). lia.
    + intros ty' p. destruct (decide (ty' = ty)) as [->|Hne].
      * rewrite ad_cov0, Hcov1. split.
        -- intros [Hc|Hp]; auto.
        -- intros [Hc|[_ Hp]]; auto.
      * rewrite <- Hcov1. destruct (ad_frame0 ty' Hne) as (_ & b & _).
        unfold covered. rewrite b. split; [auto|].
        intros [Hc|[Heq _]]; [exact Hc|]. congruence.
    + intros ty' t0 f Hden. apply Hden1 in Hden.
      destruct (decide (ty' = ty)) as [->|Hne]; [apply ad_den0, Hden|].
      destruct (ad_frame0 ty' Hne) as (_ & b & c).
      apply (denotes_frame g1 g'); auto.
    + exact ad_new0.
Qed.

Lemma elem_of_filters_of (ty : string) (calls : list (F * option string))
  (f : F) :
  f ∈ filters_of ty calls <->
  exists tyo, (f, tyo) ∈ calls /\ toktype_or_default tyo = ty.
Proof.
  unfold filters_of. rewrite list_elem_of_fmap. split.
  - intros ([f' tyo] & -> & Hin). apply list_elem_of_filter in Hin as [Hty Hin].
    exists tyo. auto.
  - intros (tyo & Hin & Hty). exists (f, tyo). split; [reflexivity|].
    apply list_elem_of_filter. auto.
Qed.

Local Abbreviation gts :=
  (get_tokens f_and f_or f_not f_drop f_eq_drop get_classifier).

(** A sequence of calls returns a token for each, and keeps the
    invariant. *)
Lemma get_tokens_spec (calls : list (F * option string)) :
  forall g, gen_inv sem g ->
  exists ts g',
    gts g calls = Ok (ts, g') /\ gen_inv sem g' /\
    (forall ty p, covered sem g' ty p <->
       covered sem g ty p \/
       exists f, f ∈ filters_of ty calls /\ sem f p = true) /\
    (forall ty t f, denotes sem f_or g ty t f ->
                    denotes sem f_or g' ty t f) /\
    Forall2 (fun t c => denotes sem f_or g' (toktype_or_default c.2) t c.1)
            ts calls.
Proof.
  induction calls as [|[n tyo] rest IH]; intros g GI.
  - exists [], g. split; [reflexivity|]. split; [exact GI|].
    split; [|split; [auto|constructor]].
    intros ty p. split; [auto|]. intros [Hc|(f & Hin & _)]; [exact Hc|].
    apply elem_of_nil in Hin. contradiction.
  - destruct (get_token_spec g n tyo GI) as (t & g1 & E1 & GI1 & C1 & D1 & N1).
    destruct (IH g1 GI1) as (ts & g2 & E2 & GI2 & C2 & D2 & N2).
    exists (t :: ts), g2. cbn [get_tokens]. rewrite E1. cbn [rbind].
    rewrite E2. split; [reflexivity|]. split; [exact GI2|]. split; [|split].
    + intros ty p. rewrite C2, C1. split.
      * intros [[Hc|[Hty Hp]]|(f & Hin & Hp)].
        -- auto.
        -- right. exists n. split; [|exact Hp].
           apply elem_of_filters_of. exists tyo. split; [left|exact Hty].
        -- right. exists f. split; [|exact Hp].
           apply elem_of_filters_of in Hin as (tyo' & Hin & Hty).
           apply elem_of_filters_of. exists tyo'. split; [right|]; auto.
      * intros [Hc|(f & Hin & Hp)]; [auto|].
        apply elem_of_filters_of in Hin as (tyo' & Hin & Hty).
        apply elem_of_cons in Hin as [[= -> ->]|Hin]; [auto|].
        right. exists f. split; [|exact Hp].
        apply elem_of_filters_of. eauto.
    + intros ty t0 f Hden. apply D2, D1, Hden.
    + constructor; [|exact N2]. simpl. apply D2, N1.
Qed.

Lemma dictionaries_clear (ty : string) :
  keys (@clear F _ _) ty = ∅ /\ leaves (@clear F _ _) ty = ∅ /\
  aliases (@clear F _ _) ty = ∅.
Proof.
  unfold keys, leaves, aliases, clear. simpl.
  destruct (decide (ty = default_toktype)) as [->|Hne].
  - rewrite !lookup_singleton_eq. auto.
  - rewrite !lookup_singleton_ne by congruence. auto.
Qed.

Lemma gen_inv_clear : gen_inv sem clear.
Proof.
  constructor.
  - intros ty. unfold registered, unregistered, clear. simpl. split.
    + intros Hin. apply list_elem_of_singleton in Hin as ->.
      rewrite !lookup_singleton_eq. eauto.
    + intros Hn. rewrite !lookup_singleton_ne; [auto| | |];
        intros <-; apply Hn, list_elem_of_singleton; reflexivity.
  - intros ty f t. destruct (dictionaries_clear ty) as (-> & -> & _).
    rewrite !lookup_empty. split; discriminate.
  - intros ty t1 t2 f1 f2 _ H1. destruct (dictionaries_clear ty) as (_ & E & _).
    rewrite E, lookup_empty in H1. discriminate.
  - intros ty t. destruct (dictionaries_clear ty) as (_ & -> & ->).
    rewrite !lookup_empty. intros [[x Hx]|[x Hx]]; discriminate.
Qed.


End LoopFacts.


Lemma two_packets_classifier (f : TwoPackets.filter) :
  existsb (fun rule => negb (existsb eq_drop (rule_actions rule)))
          (rules (TwoPackets.get_classifier f)) = true <->
  exists p, TwoPackets.sem f p = true.
Proof.
  destruct f as [[] []]; simpl; split; intros Hx; try reflexivity;
    try discriminate Hx.
  - exists true. reflexivity.
  - exists true. reflexivity.
  - exists false. reflexivity.
  - destruct Hx as [[] Hx]; discriminate Hx.
Defined.


(** ** More on the character generator *)

Lemma new_token_from_least (fuel : nat) (tok : Z) :
  forall c, tok < c < new_token_from fuel tok ->
            char_in_lexer_language c = true.
Proof.
  revert tok. induction fuel as [|fuel IH]; intros tok c Hc; simpl in Hc.
  - destruct (char_in_lexer_language (tok + 1)); lia.
  - destruct (char_in_lexer_language (tok + 1)) eqn:E; [|lia].
    destruct (decide (c = tok + 1)) as [->|Hne]; [exact E|].
    apply (IH (tok + 1)). lia.
Qed.

Section TokenFacts.
Context {F : Type} `{Countable F}.
Variable f_and : F -> F -> F.
Variable f_or : F -> F -> F.
Variable f_not : F -> F.
Variable f_drop : F.
Variable f_eq_drop : F -> bool.
Variable get_classifier : F -> Classifier.

Implicit Types g : generator F.


(** [get_token] for a filter that is a key of its type returns the token
    recorded for it and changes no attribute. *)
Theorem get_token_of_key g (pol : F) (tyo : option string) (t : Z) :
  toktype_or_default tyo ∈ toktypes g ->
  keys g (toktype_or_default tyo) !! pol = Some t ->
  get_token f_and f_or f_not f_drop f_eq_drop get_classifier g pol tyo true
  = Ok (t, g).
Proof.
  intros Hin Hk. unfold get_token, ensure_toktype.
  rewrite bool_decide_eq_true_2 by exact Hin.
  unfold keys in Hk.
  destruct (filter_to_token g !! toktype_or_default tyo) as [f2t|];
    simpl in Hk; [|rewrite lookup_empty in Hk; discriminate].
  rewrite Hk. reflexivity.
Qed.

Lemma ensure_toktype_token g ty : token (ensure_toktype g ty) = token g.
Proof.
  unfold ensure_toktype. destruct (bool_decide (ty ∈ toktypes g)); reflexivity.
Qed.

Lemma add_new_token_token g pol ty t g' :
  add_new_token g pol ty = Ok (t, g') -> token g < t /\ token g' = t.
Proof.
  unfold add_new_token.
  pose proof (new_token_spec g) as (Lt & _ & T & _).
  destruct (new_token g) as [new g1]. simpl in Lt, T.
  destruct (filter_to_token (ensure_toktype g1 ty) !! ty); [|discriminate].
  destruct (token_to_filter (ensure_toktype g1 ty) !! ty); [|discriminate].
  intros [= <- <-]. simpl. rewrite ensure_toktype_token. auto.
Qed.

Lemma set_token_to_tokens_token g ty tok toks g' :
  set_token_to_tokens g ty tok toks = Ok g' -> token g' = token g.
Proof.
  unfold set_token_to_tokens.
  destruct (token_to_tokens g !! ty); [|discriminate].
  intros [= <-]. reflexivity.
Qed.

Lemma delete_filter_token g ty e tok g' :
  delete_filter g ty e tok = Ok g' -> token g' = token g.
Proof.
  unfold delete_filter.
  destruct (filter_to_token g !! ty) as [f2t|]; [|discriminate].
  destruct (token_to_filter g !! ty) as [t2f|]; [|discriminate].
  destruct (f2t !! e); [|discriminate].
  destruct (t2f !! tok); [|discriminate].
  intros [= <-]. reflexivity.
Qed.

Lemma add_new_filter_step_token n ty st e st' :
  add_new_filter_step f_and f_or f_not f_eq_drop get_classifier n ty st e
  = Ok st' ->
  token (fl_generator st) <= token (fl_generator st').
Proof.
  unfold add_new_filter_step.
  destruct (has_nonempty_intersection f_and get_classifier e n);
    [|intros [= <-]; lia].
  destruct (filter_to_token (fl_generator st) !! ty) as [f2t|]; [|discriminate].
  destruct (f2t !! e) as [tok|]; [|discriminate].
  destruct (has_nonempty_intersection f_and get_classifier e (f_not n)).
  - destruct (delete_filter (fl_generator st) ty e tok) as [g1|] eqn:E1;
      [|discriminate]. simpl.
    destruct (add_new_token g1 (f_and e (f_not n)) ty) as [[t1 g2]|] eqn:E2;
      [|discriminate]. simpl.
    destruct (add_new_token g2 (f_and e n) ty) as [[t2 g3]|] eqn:E3;
      [|discriminate]. simpl.
    destruct (set_token_to_tokens g3 ty tok [t1; t2]) as [g4|] eqn:E4;
      [|discriminate]. simpl.
    intros [= <-]. simpl.
    apply delete_filter_token in E1. apply add_new_token_token in E2, E3.
    apply set_token_to_tokens_token in E4. lia.
  - simpl. intros [= <-]. simpl. lia.
Qed.

Lemma add_new_filter_loop_token n ty todo :
  forall st st',
    add_new_filter_loop f_and f_or f_not f_eq_drop get_classifier n ty todo st
    = Ok st' ->
    token (fl_generator st) <= token (fl_generator st').
Proof.
  induction todo as [|e rest IH]; intros st st'; simpl.
  - intros [= <-]. lia.
  - destruct (add_new_filter_step f_and f_or f_not f_eq_drop get_classifier
                n ty st e) as [st1|] eqn:E1; [|discriminate].
    simpl. intros E. apply add_new_filter_step_token in E1.
    apply IH in E. lia.
Qed.

Lemma add_new_filter_token g n ty t g' :
  add_new_filter f_and f_or f_not f_drop f_eq_drop get_classifier g n ty
  = Ok (t, g') ->
  token g < t <= token g'.
Proof.
  unfold add_new_filter.
  destruct (token_to_filter g !! ty) as [t2f|]; [|discriminate].
  destruct (add_new_filter_loop f_and f_or f_not f_eq_drop get_classifier
              n ty (map_to_list t2f).*2 (mk_filter_loop g f_drop []))
    as [st|] eqn:E; [|discriminate].
  apply add_new_filter_loop_token in E. simpl in E. cbn [rbind].
  pose proof (new_token_spec (fl_generator st)) as (Lt & _ & T & _).
  destruct (new_token (fl_generator st)) as [new g2]. simpl in Lt, T.
  destruct (f_eq_drop (diff_list st)); cbn [negb].
  { intros E'. apply add_new_token_token in E'. lia. }
  destruct (has_nonempty_intersection f_and get_classifier n
              (f_not (diff_list st))).
  - destruct (add_new_token g2 (f_and n (f_not (diff_list st))) ty)
      as [[t3 g3]|] eqn:E3; [|discriminate]. simpl.
    destruct (set_token_to_tokens g3 ty new
                (new_intersecting_tokens st ++ [t3])) as [g4|] eqn:E4;
      [|discriminate]. simpl.
    intros [= <- <-]. simpl.
    apply add_new_token_token in E3. apply set_token_to_tokens_token in E4.
    lia.
  - simpl.
    destruct (set_token_to_tokens g2 ty new
                (new_intersecting_tokens st ++ [])) as [g4|] eqn:E4;
      [|discriminate]. simpl.
    intros [= <- <-]. simpl. apply set_token_to_tokens_token in E4. lia.
Qed.

(** [get_token] never moves the counter back; the token it returns is the
    one recorded for the filter, the counter staying where it was, or a
    token above the old counter and not above the new one: a token that
    had not been handed out. *)
Theorem get_token_recorded_or_new g (pol : F) (tyo : option string) (t : Z)
  (g' : generator F) :
  well_formed g ->
  get_token f_and f_or f_not f_drop f_eq_drop get_classifier g pol tyo true
  = Ok (t, g') ->
  (keys g (toktype_or_default tyo) !! pol = Some t /\ token g' = token g) \/
  (keys g (toktype_or_default tyo) !! pol = None /\ token g < t <= token g').
Proof.
  intros Hwf. unfold get_token. set (ty := toktype_or_default tyo).
  destruct (ensure_toktype_spec g ty Hwf) as (_ & R1 & T1 & S1).
  destruct (S1 ty) as (Ek & _ & _).
  destruct (registered_keys _ _ R1) as (E & _ & _). rewrite E, Ek.
  destruct (keys g ty !! pol) as [t0|].
  - intros [= <- <-]. left. auto.
  - intros E'. apply add_new_filter_token in E'. right. split; [reflexivity|].
    lia.
Qed.

End TokenFacts.

(** [get_token_of_key] on the attributes after a first call. *)
Lemma get_token_of_key_witness :
  get_token TwoPackets.f_and TwoPackets.f_or TwoPackets.f_not
    TwoPackets.f_drop TwoPackets.f_eq_drop TwoPackets.get_classifier
    TwoPacketsRun.first_call (true, false) None true
  = Ok (49, TwoPacketsRun.first_call).
Proof.
  apply get_token_of_key.
  - left.
  - reflexivity.
Defined.

(** [get_token_recorded_or_new] at the first call on the cleared
    generator. *)
Lemma get_token_recorded_or_new_witness :
  (keys (@clear TwoPackets.filter _ _) (toktype_or_default None)
     !! (true, false) = Some 49 /\
   token TwoPacketsRun.first_call = token (@clear TwoPackets.filter _ _)) \/
  (keys (@clear TwoPackets.filter _ _) (toktype_or_default None)
     !! (true, false) = None /\
   token (@clear TwoPackets.filter _ _) < 49 <= token TwoPacketsRun.first_call).
Proof.
  apply (get_token_recorded_or_new TwoPackets.f_and TwoPackets.f_or
           TwoPackets.f_not TwoPackets.f_drop TwoPackets.f_eq_drop
           TwoPackets.get_classifier).
  - apply (gi_wf TwoPackets.sem clear (gen_inv_clear TwoPackets.sem)).
  - vm_compute. reflexivity.
Defined.

(** ** Evaluation and the capture store *)

Section EvalMore.
Variable vlan_encode : Map -> Map.
Variable vlan_encode_mod : ModMap -> ModMap.
Local Abbreviation eval := (eval vlan_encode vlan_encode_mod).
Local Abbreviation par_loop := (par_loop vlan_encode vlan_encode_mod).
Local Abbreviation seq_loop := (seq_loop vlan_encode vlan_encode_mod).

(** Evaluating a policy only adds captures to the buckets: the packets
    returned and the captures added are the same whatever the buckets
    held, nothing captured is lost, and the only exception an evaluation
    raises is [IndexError], whatever the buckets held. *)
Theorem eval_only_adds_captures (p : Policy) (pkt : Packet) (s : Store) :
  (forall o s', eval p pkt s = Ok (o, s') ->
     exists c, s' = c ∪ s /\ forall s2, eval p pkt s2 = Ok (o, c ∪ s2)) /\
  (forall e, eval p pkt s = Raise e ->
     e = IndexError /\ forall s2, eval p pkt s2 = Raise IndexError).
Proof.
  split.
  - intros o s' E. rewrite eval_run in E. unfold run in E.
    destruct (den (eval p pkt)) as [[o0 c]|] eqn:D; [|discriminate].
    injection E as <- <-. exists c. split; [reflexivity|].
    intros s2. rewrite eval_run, D. reflexivity.
  - intros e E. rewrite eval_run in E. unfold run in E.
    destruct (den (eval p pkt)) as [[o0 c]|] eqn:D; [discriminate|].
    injection E as <-. split; [reflexivity|].
    intros s2. rewrite eval_run, D. reflexivity.
Qed.

Lemma eval_each_returns (f : Packet -> M (gset Packet)) (l : list Packet) :
  (forall x s, exists o s', f x s = Ok (o, s')) ->
  forall acc s, exists o s', eval_each f l acc s = Ok (o, s').
Proof.
  intros Hf. induction l as [|x r IH]; intros acc s; simpl.
  - exists acc, s. reflexivity.
  - unfold bind. destruct (Hf x s) as (o & s' & ->). apply IH.
Qed.

Lemma par_loop_returns (pkt : Packet) (ps : list Policy) :
  Forall (fun q => forall pkt s, exists o s', eval q pkt s = Ok (o, s')) ps ->
  forall acc s, exists o s', par_loop pkt ps acc s = Ok (o, s').
Proof.
  induction 1 as [|q r Hq _ IH]; intros acc s; simpl.
  - exists acc, s. reflexivity.
  - unfold bind. destruct (Hq pkt s) as (o & s' & ->). apply IH.
Qed.

Lemma seq_loop_returns (ps : list Policy) :
  Forall (fun q => forall pkt s, exists o s', eval q pkt s = Ok (o, s')) ps ->
  forall prev s, exists o s', seq_loop ps prev s = Ok (o, s').
Proof.
  induction 1 as [|q r Hq _ IH]; intros prev s; simpl.
  - exists prev, s. reflexivity.
  - destruct (truthy prev); [|exists ∅, s; reflexivity].
    destruct (eq_identity q); [apply IH|].
    destruct (eq_drop q); [exists ∅, s; reflexivity|].
    unfold bind.
    destruct (eval_each_returns (eval q) (elements prev) Hq ∅ s)
      as (o & s' & ->). apply IH.
Qed.

Lemma Forall_negations_hold (P : Policy -> Prop) (ps : list Policy) :
  Forall (fun q => negations_hold q = true -> P q) ps ->
  forallb negations_hold ps = true -> Forall P ps.
Proof.
  induction 1 as [|q r Hq _ IH]; simpl; intros Hall; [constructor|].
  apply andb_true_iff in Hall as [H1 H2]. constructor; auto.
Qed.

(** Evaluation returns on every packet when no negation it reaches is
    empty: then no [eval] of the language raises. *)
Theorem eval_returns (p : Policy) :
  negations_hold p = true ->
  forall pkt s, exists o s', eval p pkt s = Ok (o, s').
Proof.
  induction p using Policy_nested_ind; intros Hn pkt s;
    try (eexists _, _; reflexivity).
  - destruct ps as [|q r]; [discriminate|]. simpl in Hn.
    inversion H as [|? ? Hq _]; subst. simpl. unfold bind.
    destruct (Hq Hn pkt s) as (o & s' & ->).
    destruct (truthy o); eexists _, _; reflexivity.
  - rewrite eval_parallel. apply par_loop_returns.
    apply (Forall_negations_hold _ _ H Hn).
  - rewrite eval_union. apply par_loop_returns.
    apply (Forall_negations_hold _ _ H Hn).
  - rewrite eval_sequential. apply seq_loop_returns.
    apply (Forall_negations_hold _ _ H Hn).
  - rewrite eval_intersection. apply seq_loop_returns.
    apply (Forall_negations_hold _ _ H Hn).
  - simpl. apply IHp3. exact Hn.
  - simpl in Hn. apply andb_true_iff in Hn as [Hn Hf].
    apply andb_true_iff in Hn as [Hc Ht]. simpl. unfold bind.
    destruct (IHp1 Hc pkt s) as (o & s' & ->).
    destruct (truthy o); [apply IHp2|apply IHp3]; assumption.
  - simpl. apply IHp. exact Hn.
  - simpl. apply IHp. exact Hn.
  - simpl. apply IHp. exact Hn.
  - simpl. apply IHp. exact Hn.
Qed.

(** ** Parallel composition *)

Lemma par_loop_acc (pkt : Packet) (ps : list Policy) :
  forall acc s,
    par_loop pkt ps acc s =
    bind (par_loop pkt ps ∅) (fun o => ret (acc ∪ o)) s.
Proof.
  induction ps as [|q r IH]; intros acc s; simpl.
  - unfold bind, ret. rewrite (right_id_L ∅ (∪)). reflexivity.
  - unfold bind. destruct (eval q pkt s) as [[o s1]|e]; [|reflexivity].
    rewrite (IH (acc ∪ o)), (IH (∅ ∪ o)). unfold bind, ret.
    destruct (par_loop pkt r ∅ s1) as [[o' s2]|e]; [|reflexivity].
    rewrite (left_id_L ∅ (∪)), (assoc_L (∪)). reflexivity.
Qed.

Lemma par_loop_app (pkt : Packet) (ps qs : list Policy) :
  forall acc s,
    par_loop pkt (ps ++ qs) acc s =
    bind (par_loop pkt ps acc) (par_loop pkt qs) s.
Proof.
  induction ps as [|q r IH]; intros acc s; simpl.
  - reflexivity.
  - unfold bind. destruct (eval q pkt s) as [[o s1]|e]; [|reflexivity].
    rewrite IH. reflexivity.
Qed.

Lemma eval_parallel_new (l : list Policy) (pkt : Packet) (s : Store) :
  eval (parallel_new l) pkt s = par_loop pkt l ∅ s.
Proof. destruct l; [reflexivity|apply eval_parallel]. Qed.

(** The policies a parallel composition takes from an operand. *)
Lemma eval_summand (p : Policy) (pkt : Packet) (s : Store) :
  par_loop pkt (match isinstance_parallel p with
                | Some ps => ps
                | None => [p]
                end) ∅ s = eval p pkt s.
Proof.
  destruct p; simpl; unfold bind, ret;
    try (match goal with
         | |- match ?m with _ => _ end = _ =>
             destruct m as [[o s1]|e]; [|reflexivity];
             rewrite (left_id_L ∅ (∪)); reflexivity
         end);
    try (rewrite (left_id_L ∅ (∪)); reflexivity).
  - symmetry. apply eval_parallel.
  - symmetry. apply eval_union.
Qed.

Lemma add_summands (p q : Policy) :
  add p q =
  parallel_new (match isinstance_parallel p with
                | Some ps => ps
                | None => [p]
                end ++
                match isinstance_parallel q with
                | Some qs => qs
                | None => [q]
                end).
Proof.
  unfold add. destruct (isinstance_parallel p), (isinstance_parallel q);
    reflexivity.
Qed.

(** Evaluating [p + q] on a packet is evaluating [p] and then [q] on it
    and uniting what they return: the same packets, the same captures, the
    same exception if there is one, whether or not an operand is itself a
    parallel composition that [+] flattens. *)
Theorem eval_add (p q : Policy) (pkt : Packet) (s : Store) :
  eval (add p q) pkt s =
  bind (eval p pkt) (fun o1 =>
  bind (eval q pkt) (fun o2 => ret (o1 ∪ o2))) s.
Proof.
  rewrite add_summands, eval_parallel_new, par_loop_app.
  unfold bind. rewrite eval_summand.
  destruct (eval p pkt s) as [[o1 s1]|e]; [|reflexivity].
  rewrite par_loop_acc. unfold bind, ret. rewrite eval_summand.
  reflexivity.
Qed.

(** ** Conditionals *)

Lemma union_again (a b s : Store) : a ∪ (b ∪ (a ∪ s)) = b ∪ (a ∪ s).
Proof.
  rewrite (assoc_L (∪) b a s), (comm_L (∪) b a), <- (assoc_L (∪) a b s).
  rewrite (assoc_L (∪) a a), (idemp_L (∪) a). reflexivity.
Qed.

Lemma filter_tree_isinstance_Filter (p : Policy) :
  filter_tree p = true -> isinstance_Filter p = true.
Proof. destruct p; simpl; intros Hf; try reflexivity; discriminate. Qed.

Lemma eval_if_derived (pred t f : Policy) (pkt : Packet) (s : Store) :
  filter_tree pred = true ->
  eval (if_ pred t f (add (rshift pred t) (rshift (invert pred) f))) pkt s =
  eval (add (rshift pred t) (rshift (invert pred) f)) pkt s.
Proof.
  intros Hf. rewrite eval_add.
  destruct (filter_tree_eval vlan_encode vlan_encode_mod pred Hf pkt ∅)
    as (o & c & E0 & Ho).
  assert (forall x, eval pred pkt x = Ok (o, c ∪ x)) as HP.
  { intros x. rewrite eval_run. unfold den. rewrite E0. reflexivity. }
  assert (forall x, eval (invert pred) pkt x =
                    Ok (if truthy o then ∅ else {[ pkt ]}, c ∪ x)) as HN.
  { intros x. unfold invert. simpl. unfold bind. rewrite HP.
    destruct (truthy o); reflexivity. }
  simpl. unfold bind. rewrite HP, eval_rshift. unfold kleisli, bind.
  rewrite HP.
  destruct Ho as [-> | ->].
  - rewrite truthy_singleton, elements_singleton_packet. simpl.
    unfold bind, ret. rewrite (eval_run _ _ t). unfold run.
    destruct (den (eval t pkt)) as [[ot ct]|]; [|reflexivity].
    rewrite eval_rshift. unfold kleisli, bind. rewrite HN.
    rewrite truthy_singleton, elements_empty. simpl. unfold ret.
    rewrite (left_id_L ∅ (∪)), (right_id_L ∅ (∪)), union_again.
    reflexivity.
  - rewrite truthy_empty, elements_empty. simpl. unfold ret.
    rewrite eval_rshift. unfold kleisli, bind. rewrite HN.
    rewrite truthy_empty, elements_singleton_packet. simpl.
    unfold bind, ret. rewrite !(eval_run _ _ f). unfold run.
    destruct (den (eval f pkt)) as [[o2 c2]|]; [|reflexivity].
    rewrite !(left_id_L ∅ (∪)), (assoc_L (∪) c c), (idemp_L (∪) c).
    reflexivity.
Qed.


(** ** Filters as a Boolean algebra *)

Local Abbreviation accepts := (accepts vlan_encode vlan_encode_mod).

(** What a filter does on a packet, whatever the store. *)
Lemma filter_eval_shape (p : Policy) (pkt : Packet) :
  filter_tree p = true ->
  exists o c, (forall x, eval p pkt x = Ok (o, c ∪ x)) /\
              ((o = {[ pkt ]} /\ accepts p pkt) \/
               (o = ∅ /\ ~ accepts p pkt)).
Proof.
  intros Hf.
  destruct (filter_tree_eval vlan_encode vlan_encode_mod p Hf pkt ∅)
    as (o & c & E0 & Ho).
  exists o, c. split.
  - intros x. rewrite eval_run. unfold den. rewrite E0. reflexivity.
  - unfold accepts. rewrite E0. simpl. destruct Ho as [-> | ->].
    + left. auto.
    + right. split; [reflexivity|]. intros [= E]; try (destruct (singleton_ne_empty pkt); symmetry; exact E).
Qed.

Lemma accepts_eq_identity (q : Policy) (pkt : Packet) :
  eq_identity q = true -> accepts q pkt.
Proof.
  unfold accepts.
  destruct q; simpl; try discriminate; intros E.
  - reflexivity.
  - apply bool_decide_eq_true in E. subst. rewrite match_eval_empty.
    reflexivity.
  - apply bool_decide_eq_true in E. subst. rewrite _match_eval_empty.
    reflexivity.
Qed.

Lemma not_accepts_eq_drop (q : Policy) (pkt : Packet) :
  eq_drop q = true -> ~ accepts q pkt.
Proof.
  unfold accepts. destruct q; simpl; try discriminate.
  all: intros _ [= E]; try (destruct (singleton_ne_empty pkt); symmetry; exact E).
Qed.

Lemma par_loop_filters_any (pkt : Packet) (fs : list Policy) :
  forallb filter_tree fs = true ->
  forall acc s,
  exists o c, par_loop pkt fs acc s = Ok (acc ∪ o, c) /\
              ((o = {[ pkt ]} /\ exists f, f ∈ fs /\ accepts f pkt) \/
               (o = ∅ /\ forall f, f ∈ fs -> ~ accepts f pkt)).
Proof.
  induction fs as [|q r IH]; simpl; intros Hall acc s.
  - exists ∅, s. unfold ret. rewrite (right_id_L ∅ (∪)).
    split; [reflexivity|]. right. split; [reflexivity|].
    intros f Hin. apply elem_of_nil in Hin. contradiction.
  - apply andb_true_iff in Hall as [Hq Hr].
    destruct (filter_eval_shape q pkt Hq) as (o & c & HP & Ho).
    unfold bind. rewrite HP.
    destruct (IH Hr (acc ∪ o) (c ∪ s)) as (o' & c' & E & Ho').
    rewrite E. exists (o ∪ o'), c'. rewrite (assoc_L (∪)).
    split; [reflexivity|].
    destruct Ho as [[-> Ha] | [-> Hn]].
    + left. split.
      * destruct Ho' as [[-> _] | [-> _]];
          [apply (idemp_L (∪))|apply (right_id_L ∅ (∪))].
      * exists q. split; [left|exact Ha].
    + rewrite (left_id_L ∅ (∪)).
      destruct Ho' as [[-> (f & Hin & Ha)] | [-> Hall]].
      * left. split; [reflexivity|]. exists f. split; [right|]; assumption.
      * right. split; [reflexivity|]. intros f Hin.
        apply elem_of_cons in Hin as [-> | Hin]; auto.
Qed.

Lemma seq_loop_filters_all (pkt : Packet) (fs : list Policy) :
  forallb filter_tree fs = true ->
  forall s,
  exists o c, seq_loop fs {[ pkt ]} s = Ok (o, c) /\
              ((o = {[ pkt ]} /\ forall f, f ∈ fs -> accepts f pkt) \/
               (o = ∅ /\ exists f, f ∈ fs /\ ~ accepts f pkt)).
Proof.
  induction fs as [|q r IH]; simpl; intros Hall s.
  - exists {[ pkt ]}, s. split; [reflexivity|]. left. split; [reflexivity|].
    intros f Hin. apply elem_of_nil in Hin. contradiction.
  - apply andb_true_iff in Hall as [Hq Hr]. rewrite truthy_singleton.
    destruct (eq_identity q) eqn:Ei.
    { destruct (IH Hr s) as (o & c & E & Ho). exists o, c.
      split; [exact E|]. destruct Ho as [[-> Ha] | [-> (f & Hin & Hn)]].
      - left. split; [reflexivity|]. intros f Hin.
        apply elem_of_cons in Hin as [-> | Hin];
          [apply accepts_eq_identity, Ei|apply Ha, Hin].
      - right. split; [reflexivity|]. exists f. split; [right|]; assumption. }
    destruct (eq_drop q) eqn:Ed.
    { exists ∅, s. split; [reflexivity|]. right. split; [reflexivity|].
      exists q. split; [left|apply not_accepts_eq_drop, Ed]. }
    destruct (filter_eval_shape q pkt Hq) as (o & c & HP & Ho).
    rewrite elements_singleton_packet. simpl. unfold bind. rewrite HP.
    unfold ret. rewrite (left_id_L ∅ (∪)).
    destruct Ho as [[-> Ha] | [-> Hn]].
    + destruct (IH Hr (c ∪ s)) as (o & c' & E & Ho). exists o, c'.
      split; [exact E|]. destruct Ho as [[-> Hall] | [-> (f & Hin & Hn)]].
      * left. split; [reflexivity|]. intros f Hin.
        apply elem_of_cons in Hin as [-> | Hin]; auto.
      * right. split; [reflexivity|]. exists f. split; [right|]; assumption.
    + rewrite seq_loop_empty. exists ∅, (c ∪ s). split; [reflexivity|].
      right. split; [reflexivity|]. exists q. split; [left|exact Hn].
Qed.

(** On a packet, the filter combinators are the Boolean operations on
    what their members accept: [~f] accepts when [f] does not, a union when
    some member does, an intersection when every member does, and
    [f1 - f2], which is built for any two filters, when [f1] does and [f2]
    does not. *)
Theorem filters_boolean_algebra (pkt : Packet) :
  (forall f, filter_tree f = true ->
     (accepts (invert f) pkt <-> ~ accepts f pkt)) /\
  (forall fs, forallb filter_tree fs = true ->
     (accepts (union fs) pkt <-> exists f, f ∈ fs /\ accepts f pkt)) /\
  (forall fs, forallb filter_tree fs = true ->
     (accepts (intersection fs) pkt <-> forall f, f ∈ fs -> accepts f pkt)) /\
  (forall f1 f2, filter_tree f1 = true -> filter_tree f2 = true ->
     exists d, difference_new f1 f2 = Ok d /\
               (accepts d pkt <-> accepts f1 pkt /\ ~ accepts f2 pkt)).
Proof.
  assert (forall f, filter_tree f = true ->
            (accepts (invert f) pkt <-> ~ accepts f pkt)) as Hneg.
  { intros f Hf. destruct (filter_eval_shape f pkt Hf) as (o & c & HP & Ho).
    unfold accepts at 1. unfold invert. simpl. unfold bind. rewrite HP.
    destruct Ho as [[-> Ha] | [-> Hn]].
    - rewrite truthy_singleton. simpl. split; [|tauto]. intros [= E]; try (destruct (singleton_ne_empty pkt); symmetry; exact E).
    - rewrite truthy_empty. simpl. tauto. }
  assert (forall fs, forallb filter_tree fs = true ->
            (accepts (intersection fs) pkt <->
             forall f, f ∈ fs -> accepts f pkt)) as Hint.
  { intros fs Hfs. unfold accepts at 1. rewrite eval_intersection.
    destruct (seq_loop_filters_all pkt fs Hfs ∅) as (o & c & E & Ho).
    rewrite E. simpl. destruct Ho as [[-> Ha] | [-> (f & Hin & Hn)]].
    - tauto.
    - split.
      + intros [= E']; try (destruct (singleton_ne_empty pkt); symmetry; exact E').
      + intros Hall. destruct (Hn (Hall f Hin)). }
  split; [exact Hneg|]. split; [|split; [exact Hint|]].
  - intros fs Hfs. unfold accepts at 1. rewrite eval_union.
    destruct (par_loop_filters_any pkt fs Hfs ∅ ∅) as (o & c & E & Ho).
    rewrite E. simpl. rewrite (left_id_L ∅ (∪)).
    destruct Ho as [[-> Ha] | [-> Hn]].
    + tauto.
    + split.
      * intros [= E']; try (destruct (singleton_ne_empty pkt); symmetry; exact E').
      * intros (f & Hin & Ha). destruct (Hn f Hin Ha).
  - intros f1 f2 Hf1 Hf2. unfold difference_new, Filter_and.
    rewrite (filter_tree_isinstance_Filter _ Hf1). simpl.
    eexists. split; [reflexivity|].
    change (accepts (difference f1 f2 (intersection [invert f2; f1])) pkt)
      with (accepts (intersection [invert f2; f1]) pkt).
    rewrite Hint by (simpl; rewrite Hf1, Hf2; reflexivity).
    split.
    + intros Hall. split; [apply Hall; right; left|].
      apply Hneg; [exact Hf2|]. apply Hall. left.
    + intros [H1 H2] f Hin. apply elem_of_cons in Hin as [-> | Hin].
      * apply Hneg; assumption.
      * apply list_elem_of_singleton in Hin as ->. exact H1.
Qed.

End EvalMore.

(** [eval_returns] at [xfwd(2)], on a packet that came in on port 1. *)
Lemma eval_returns_witness :
  exists o s',
    eval (fun m => m) (fun m => m) (xfwd_new (Some (VInt 2)))
      {[ "inport" := VInt 1 ]} ∅ = Ok (o, s').
Proof. apply eval_returns. reflexivity. Defined.

(** ** Replies and the life of a rule in a count bucket *)

Lemma reply_hit_set_counts (b : count_bucket) (p y : Z) (switch : Value)
  (f : flow_stat) :
  reply_hit (set_counts b p y) switch f = reply_hit b switch f.
Proof. reflexivity. Qed.

Lemma reply_total_set_counts (b : count_bucket) (p y : Z) (switch : Value)
  (counter : flow_stat -> Z) (l : list flow_stat) :
  reply_total (set_counts b p y) switch counter l =
  reply_total b switch counter l.
Proof. reflexivity. Qed.

Lemma set_counts_set_counts (b : count_bucket) (p y p' y' : Z) :
  set_counts (set_counts b p y) p' y' = set_counts b p' y'.
Proof. reflexivity. Qed.

(** The loop over a reply in which every entry has a match and none
    belongs to a rule that existed before the bucket: the counts of the
    entries that belong to a rule of the bucket are added up. *)
Lemma reply_loop_counts (switch : Value) (flow_stats : list flow_stat) :
  forall b,
    Forall (fun f => is_Some (fs_match f)) flow_stats ->
    no_existing_rule b switch flow_stats ->
    reply_loop switch flow_stats b =
    Returned
      (set_counts b
         (packet_count b + reply_total b switch fs_packet_count flow_stats)
         (byte_count b + reply_total b switch fs_byte_count flow_stats)).
Proof.
  induction flow_stats as [|f rest IH]; intros b Hm Hn.
  - simpl. unfold reply_total. simpl. rewrite !Z.add_0_r.
    destruct b; reflexivity.
  - inversion Hm as [|? ? [fm Hf] Hrest]; subst.
    assert (no_existing_rule b switch rest) as Hn'.
    { intros f' fm' st Hin. apply Hn. right. exact Hin. }
    cbn [reply_loop]. rewrite Hf. unfold stat_in_bucket.
    destruct (matches b !! mk_match_entry (<["switch" := switch]> fm)
                            (fs_priority f) (fs_cookie f)) as [st|] eqn:Ek.
    + assert (reply_hit b switch f = true) as Hh.
      { unfold reply_hit, stat_in_bucket. rewrite Hf, Ek.
        apply bool_decide_eq_true_2. eauto. }
      rewrite Ek, (Hn f fm st (list_elem_of_here _ _) Hf Ek).
      rewrite IH; [|exact Hrest|exact Hn'].
      rewrite !reply_total_set_counts, set_counts_set_counts.
      unfold reply_total. cbn [List.filter]. rewrite Hh. simpl.
      f_equal. f_equal; lia.
    + assert (reply_hit b switch f = false) as Hh.
      { unfold reply_hit, stat_in_bucket. rewrite Hf, Ek.
        apply bool_decide_eq_false_2. intros [x Hx]. discriminate. }
      rewrite IH; [|exact Hrest|exact Hn'].
      unfold reply_total. cbn [List.filter]. rewrite Hh. reflexivity.
Qed.

(** A reply from a switch with an outstanding query, in which every
    entry has a match and no entry belongs to a rule that existed before
    the bucket: the reported counts are the persistent counts plus the
    counts of the entries that belong to a rule of the bucket, the
    persistent counts and [matches] stay as they are, the first occurrence
    of the switch leaves [outstanding_switches], and the callbacks are
    called with the reported counts exactly when no switch is left
    outstanding. *)
Theorem handle_flow_stats_reply_counts (b : count_bucket) (switch : Value)
  (flow_stats : list flow_stat) :
  in_update b = false ->
  switch ∈ outstanding_switches b ->
  Forall (fun f => is_Some (fs_match f)) flow_stats ->
  no_existing_rule b switch flow_stats ->
  handle_flow_stats_reply b switch flow_stats =
  Returned
    (fire_callbacks
       (mk_count_bucket (matches b)
          (list_remove switch (outstanding_switches b))
          (packet_count_persistent b +
           reply_total b switch fs_packet_count flow_stats)
          (byte_count_persistent b +
           reply_total b switch fs_byte_count flow_stats)
          (packet_count_persistent b) (byte_count_persistent b)
          false (new_bucket b) (callbacks b) (fired b))).
Proof.
  intros Hu Hin Hm Hn. unfold handle_flow_stats_reply. rewrite Hu.
  rewrite bool_decide_eq_true_2 by exact Hin.
  rewrite reply_loop_counts; [|exact Hm|exact Hn].
  rewrite !reply_total_set_counts. unfold set_outstanding, set_counts. cbn.
  rewrite ?Hu. reflexivity.
Qed.

(** A reply from a switch that has no outstanding query is not read at
    all, not even for entries without a match: the reported counts are
    reset to the persistent counts, and the callbacks are called with them
    when no switch is outstanding.  While an update is in progress the
    call waits. *)
Theorem handle_flow_stats_reply_unexpected (b : count_bucket)
  (switch : Value) (flow_stats : list flow_stat) :
  (in_update b = true -> handle_flow_stats_reply b switch flow_stats = Waits) /\
  (in_update b = false -> switch ∉ outstanding_switches b ->
   handle_flow_stats_reply b switch flow_stats =
   Returned
     (fire_callbacks
        (set_counts b (packet_count_persistent b) (byte_count_persistent b)))).
Proof.
  split.
  - intros Hu. unfold handle_flow_stats_reply. rewrite Hu. reflexivity.
  - intros Hu Hn. unfold handle_flow_stats_reply. rewrite Hu.
    rewrite bool_decide_eq_false_2 by exact Hn. reflexivity.
Qed.

Lemma reply_loop_prefix (switch : Value) (l1 rest : list flow_stat) :
  forall b,
    Forall (fun f => is_Some (fs_match f)) l1 ->
    no_existing_rule b switch l1 ->
    reply_loop switch (l1 ++ rest) b =
    reply_loop switch rest
      (set_counts b
         (packet_count b + reply_total b switch fs_packet_count l1)
         (byte_count b + reply_total b switch fs_byte_count l1)).
Proof.
  induction l1 as [|f l1 IH]; intros b Hm Hn.
  - simpl. unfold reply_total. simpl. rewrite !Z.add_0_r.
    destruct b; reflexivity.
  - inversion Hm as [|? ? [fm Hf] Hrest]; subst.
    assert (no_existing_rule b switch l1) as Hn'.
    { intros f' fm' st Hin. apply Hn. right. exact Hin. }
    cbn [reply_loop app]. rewrite Hf. unfold stat_in_bucket.
    destruct (matches b !! mk_match_entry (<["switch" := switch]> fm)
                            (fs_priority f) (fs_cookie f)) as [st|] eqn:Ek.
    + assert (reply_hit b switch f = true) as Hh.
      { unfold reply_hit, stat_in_bucket. rewrite Hf, Ek.
        apply bool_decide_eq_true_2. eauto. }
      rewrite Ek, (Hn f fm st (list_elem_of_here _ _) Hf Ek).
      rewrite IH; [|exact Hrest|exact Hn'].
      rewrite !reply_total_set_counts, set_counts_set_counts.
      unfold reply_total. cbn [List.filter]. rewrite Hh. simpl.
      f_equal. f_equal; lia.
    + assert (reply_hit b switch f = false) as Hh.
      { unfold reply_hit, stat_in_bucket. rewrite Hf, Ek.
        apply bool_decide_eq_false_2. intros [x Hx]. discriminate. }
      rewrite IH; [|exact Hrest|exact Hn'].
      unfold reply_total. cbn [List.filter]. rewrite Hh. reflexivity.
Qed.

(** An entry without a match stops the reply with [RuntimeError]: the
    counts of the entries before it are already in the reported counts,
    the switch is still outstanding and no callback is called. *)
Theorem handle_flow_stats_reply_weird_entry (b : count_bucket)
  (switch : Value) (before after : list flow_stat) (f : flow_stat) :
  in_update b = false ->
  switch ∈ outstanding_switches b ->
  Forall (fun f => is_Some (fs_match f)) before ->
  no_existing_rule b switch before ->
  fs_match f = None ->
  handle_flow_stats_reply b switch (before ++ f :: after) =
  Raised RuntimeError
    (set_counts b
       (packet_count_persistent b +
        reply_total b switch fs_packet_count before)
       (byte_count_persistent b +
        reply_total b switch fs_byte_count before)).
Proof.
  intros Hu Hin Hm Hn Hf. unfold handle_flow_stats_reply. rewrite Hu.
  rewrite bool_decide_eq_true_2 by exact Hin.
  rewrite reply_loop_prefix; [|exact Hm|exact Hn].
  cbn [reply_loop]. rewrite Hf.
  rewrite !reply_total_set_counts. reflexivity.
Qed.

(** The life of a rule in a bucket.  [add_match] for a key that is
    present changes nothing, so it is idempotent and does not undo the mark
    of [delete_match]; [delete_match] for a key that is absent changes
    nothing.  For a key that is absent, with no update in progress:
    a flow-removed message right after [add_match] fails the assertion,
    and after [add_match] and [delete_match] it takes the entry out again
    and adds the counters of the message to the persistent counters, all
    else as it was before the rule was added. *)
Theorem rule_life (b : count_bucket) (m : gmap string Value)
  (priority version pc bc : Z) :
  (is_Some (matches b !! mk_match_entry m priority version) ->
   add_match b m priority version = b /\
   add_match (delete_match b m priority version) m priority version =
   delete_match b m priority version) /\
  add_match (add_match b m priority version) m priority version =
  add_match b m priority version /\
  (matches b !! mk_match_entry m priority version = None ->
   delete_match b m priority version = b) /\
  (in_update b = false ->
   matches b !! mk_match_entry m priority version = None ->
   handle_flow_removed (add_match b m priority version)
     m priority version pc bc
   = Raised AssertionError (add_match b m priority version) /\
   handle_flow_removed
     (delete_match (add_match b m priority version) m priority version)
     m priority version pc bc
   = Returned
       (set_persistent b (packet_count_persistent b + pc)
                         (byte_count_persistent b + bc))).
Proof.
  set (k := mk_match_entry m priority version).
  assert (forall b', is_Some (matches b' !! k) ->
                     add_match b' m priority version = b') as Hadd.
  { intros b' [st Hst]. unfold add_match. fold k. rewrite Hst. reflexivity. }
  split; [|split; [|split]].
  - intros [st Hst]. split; [apply Hadd; eauto|].
    apply Hadd. unfold delete_match. fold k. rewrite Hst. simpl.
    rewrite lookup_insert_eq. eauto.
  - apply Hadd. unfold add_match. fold k.
    destruct (matches b !! k) as [st|] eqn:E; [rewrite E; eauto|].
    simpl. rewrite lookup_insert_eq. eauto.
  - intros E. unfold delete_match. fold k. rewrite E. reflexivity.
  - intros Hu E. split.
    + unfold handle_flow_removed, add_match. fold k. rewrite E. simpl.
      rewrite Hu, lookup_insert_eq. reflexivity.
    + unfold handle_flow_removed, delete_match, add_match. fold k.
      rewrite E. simpl. rewrite lookup_insert_eq. simpl.
      rewrite Hu, lookup_insert_eq. simpl.
      rewrite insert_insert_eq, (delete_insert_id _ _ _ E).
      destruct b; reflexivity.
Qed.

Lemma no_existing_rule_example :
  no_existing_rule (bucket_with (mk_match_status false false)) (VInt 1)
    [reply_entry].
Proof.
  intros f fm st Hin Hf Hk.
  apply list_elem_of_singleton in Hin. subst f. simpl in Hf.
  injection Hf as <-. simpl in Hk.
  change (mk_match_entry (<["switch" := VInt 1]> ∅) 10 1)
    with rule_at_switch_1 in Hk.
  rewrite lookup_singleton_eq in Hk. injection Hk as <-. reflexivity.
Defined.

(** [handle_flow_stats_reply_counts] on the bucket of the example, with a
    rule installed after the bucket was created. *)
Lemma handle_flow_stats_reply_counts_witness :
  handle_flow_stats_reply (bucket_with (mk_match_status false false))
    (VInt 1) [reply_entry] =
  Returned
    (fire_callbacks
       (mk_count_bucket
          (matches (bucket_with (mk_match_status false false)))
          (list_remove (VInt 1)
             (outstanding_switches
                (bucket_with (mk_match_status false false))))
          (packet_count_persistent
             (bucket_with (mk_match_status false false)) +
           reply_total (bucket_with (mk_match_status false false)) (VInt 1)
             fs_packet_count [reply_entry])
          (byte_count_persistent
             (bucket_with (mk_match_status false false)) +
           reply_total (bucket_with (mk_match_status false false)) (VInt 1)
             fs_byte_count [reply_entry])
          (packet_count_persistent
             (bucket_with (mk_match_status false false)))
          (byte_count_persistent
             (bucket_with (mk_match_status false false)))
          false (new_bucket (bucket_with (mk_match_status false false)))
          (callbacks (bucket_with (mk_match_status false false)))
          (fired (bucket_with (mk_match_status false false))))).
Proof.
  apply handle_flow_stats_reply_counts.
  - reflexivity.
  - left.
  - constructor; [simpl; eauto|constructor].
  - exact no_existing_rule_example.
Defined.

(** [handle_flow_stats_reply_weird_entry]: the entry of the example
    followed by an entry without a match. *)
Lemma handle_flow_stats_reply_weird_entry_witness :
  handle_flow_stats_reply (bucket_with (mk_match_status false false))
    (VInt 1) ([reply_entry] ++ mk_flow_stat None 10 1 3 30 :: []) =
  Raised RuntimeError
    (set_counts (bucket_with (mk_match_status false false))
       (packet_count_persistent
          (bucket_with (mk_match_status false false)) +
        reply_total (bucket_with (mk_match_status false false)) (VInt 1)
          fs_packet_count [reply_entry])
       (byte_count_persistent
          (bucket_with (mk_match_status false false)) +
        reply_total (bucket_with (mk_match_status false false)) (VInt 1)
          fs_byte_count [reply_entry])).
Proof.
  apply handle_flow_stats_reply_weird_entry.
  - reflexivity.
  - left.
  - constructor; [simpl; eauto|constructor].
  - exact no_existing_rule_example.
  - reflexivity.
Defined.

(** ** Forwarding *)

Section Forwarding.
Variable vlan_encode : Map -> Map.
Variable vlan_encode_mod : ModMap -> ModMap.
Local Abbreviation eval := (eval vlan_encode vlan_encode_mod).

Lemma modify_eval_outport (a : Value) (pkt : Packet) :
  modify_eval vlan_encode_mod {[ "outport" := Some a ]} pkt =
  {[ <["outport" := a]> pkt ]}.
Proof.
  unfold modify_eval, _modify_eval.
  rewrite translate_virtual_fields_compilable.
  - unfold modifymany. rewrite map_fold_singleton. reflexivity.
  - intros f [x Hx]. apply lookup_singleton_Some in Hx as [<- _].
    reflexivity.
Qed.

Lemma match_eval_inport (a : Value) (pkt : Packet) :
  match_eval vlan_encode {[ "inport" := Some (PExact a) ]} pkt =
  if bool_decide (pkt !! "inport" = Some a) then {[ pkt ]} else ∅.
Proof.
  unfold match_eval. rewrite translate_virtual_fields_compilable.
  - unfold _match_eval. rewrite map_to_list_singleton. cbn [_match_loop].
    assert (field_ok pkt "inport" (Some (PExact a)) =
            bool_decide (pkt !! "inport" = Some a)) as ->; [|reflexivity].
    apply eq_true_iff_eq. rewrite field_ok_spec, bool_decide_eq_true. split.
    + intros (v & Hv & Hne). apply value_ne_exact in Hne. subst. exact Hv.
    + intros Hv. exists a. split; [exact Hv|]. apply value_ne_exact.
      reflexivity.
  - intros f [x Hx]. apply lookup_singleton_Some in Hx as [<- _].
    reflexivity.
Qed.

(** [fwd(a)] returns the packet with [outport] set to [a], and [xfwd(a)]
    does the same unless the packet came in on port [a], in which case it
    returns nothing: a packet is never sent back out of the port it came in
    on.  Neither captures anything nor raises. *)
Theorem eval_fwd_xfwd (a : Value) (pkt : Packet) (s : Store) :
  eval (fwd_new (Some a)) pkt s = Ok ({[ <["outport" := a]> pkt ]}, s) /\
  (pkt !! "inport" = Some a ->
   eval (xfwd_new (Some a)) pkt s = Ok (∅, s)) /\
  (pkt !! "inport" <> Some a ->
   eval (xfwd_new (Some a)) pkt s = Ok ({[ <["outport" := a]> pkt ]}, s)).
Proof.
  assert (eval (fwd_new (Some a)) pkt s =
          Ok ({[ <["outport" := a]> pkt ]}, s)) as Hfwd.
  { simpl. unfold ret. rewrite modify_eval_outport. reflexivity. }
  split; [exact Hfwd|].
  assert (forall x, eval (xfwd_new (Some a)) x s =
            kleisli (eval (invert (match_ {[ "inport" := Some (PExact a) ]})))
                    (eval (fwd_new (Some a))) x s) as Hx.
  { intros x. unfold xfwd_new.
    change (eval (xfwd (Some a) ?q) x s) with (eval q x s).
    apply eval_rshift. }
  split; intros Hin; rewrite Hx; unfold kleisli, invert; simpl;
    unfold bind, ret; rewrite match_eval_inport.
  - rewrite bool_decide_eq_true_2 by exact Hin.
    rewrite truthy_singleton, elements_empty. reflexivity.
  - rewrite bool_decide_eq_false_2 by exact Hin.
    rewrite truthy_empty, elements_singleton_packet. simpl.
    unfold bind, ret. rewrite modify_eval_outport.
    rewrite (left_id_L ∅ (∪)). reflexivity.
Qed.

End Forwarding.

(** ** The laws of the two compositions *)

Section CompositionLaws.
Variable vlan_encode : Map -> Map.
Variable vlan_encode_mod : ModMap -> ModMap.
Local Abbreviation eval := (eval vlan_encode vlan_encode_mod).
Local Abbreviation seq_loop := (seq_loop vlan_encode vlan_encode_mod).

Lemma truthy_false (A : gset Packet) : truthy A = false -> A = ∅.
Proof.
  unfold truthy. intros E. apply bool_decide_eq_false in E.
  destruct (decide (A = ∅)) as [Ha|Hn]; [exact Ha|contradiction].
Qed.

Lemma seq_loop_identity (prev : gset Packet) (s : Store) :
  seq_loop [identity] prev s = ret prev s.
Proof.
  simpl. destruct (truthy prev) eqn:E; [reflexivity|].
  rewrite (truthy_false _ E). reflexivity.
Qed.

Lemma seq_loop_drop (prev : gset Packet) (s : Store) :
  seq_loop [drop] prev s = ret ∅ s.
Proof. simpl. destruct (truthy prev); reflexivity. Qed.

Lemma seq_loop_operands_new (l : list Policy) (prev : gset Packet)
  (s : Store) :
  seq_loop (operand_policies (sequential_new l)) prev s = seq_loop l prev s.
Proof.
  destruct l as [|q r]; [apply seq_loop_identity|reflexivity].
Qed.

Lemma eval_rshift_loop (p q : Policy) (pkt : Packet) (s : Store) :
  eval (rshift p q) pkt s =
  seq_loop (operand_policies p ++ operand_policies q) {[ pkt ]} s.
Proof. rewrite rshift_operands. apply eval_sequential_new. Qed.

Lemma bind_ret {A : Type} (m : M A) (s : Store) : bind m ret s = m s.
Proof. unfold bind, ret. destruct (m s) as [[a s']|e]; reflexivity. Qed.

(** [>>] is associative, [identity] is its unit on both sides, [drop]
    absorbs on the left without evaluating the right operand, and
    [p >> drop] evaluates [p], for its captures and its exceptions, and
    returns nothing. *)
Theorem rshift_laws (p q r : Policy) (pkt : Packet) (s : Store) :
  eval (rshift (rshift p q) r) pkt s = eval (rshift p (rshift q r)) pkt s /\
  eval (rshift identity p) pkt s = eval p pkt s /\
  eval (rshift p identity) pkt s = eval p pkt s /\
  eval (rshift drop p) pkt s = Ok (∅, s) /\
  eval (rshift p drop) pkt s = bind (eval p pkt) (fun _ => ret ∅) s.
Proof.
  split; [|split; [|split; [|split]]].
  - rewrite !eval_rshift_loop, !rshift_operands, !seq_loop_app.
    transitivity (seq_loop ((operand_policies p ++ operand_policies q) ++
                            operand_policies r) {[ pkt ]} s).
    + rewrite seq_loop_app. apply bind_ext; [|reflexivity].
      intros s'. apply seq_loop_operands_new.
    + rewrite <- (assoc_L (++)), seq_loop_app.
      apply bind_ext; [reflexivity|]. intros a s'. symmetry.
      apply seq_loop_operands_new.
  - rewrite eval_rshift_loop. simpl. rewrite truthy_singleton.
    apply eval_operand.
  - rewrite eval_rshift_loop.
    change (operand_policies identity) with [identity].
    rewrite seq_loop_app. rewrite <- (bind_ret (eval p pkt) s).
    apply bind_ext; [intros s'; apply eval_operand|].
    intros a s'. apply seq_loop_identity.
  - rewrite eval_rshift_loop. simpl. rewrite truthy_singleton. reflexivity.
  - rewrite eval_rshift_loop.
    change (operand_policies drop) with [drop].
    rewrite seq_loop_app.
    apply bind_ext; [intros s'; apply eval_operand|].
    intros a s'. apply seq_loop_drop.
Qed.

(** What [p + q] amounts to, from what [p] and [q] amount to. *)
Lemma eval_add_run (p q : Policy) (pkt : Packet) (s : Store) :
  eval (add p q) pkt s =
  match den (eval p pkt), den (eval q pkt) with
  | Some (o1, c1), Some (o2, c2) => Ok (o1 ∪ o2, c2 ∪ (c1 ∪ s))
  | _, _ => Raise IndexError
  end.
Proof.
  rewrite add_summands, eval_parallel_new, par_loop_app.
  unfold bind. rewrite eval_summand, eval_run. unfold run.
  destruct (den (eval p pkt)) as [[o1 c1]|]; [|reflexivity].
  rewrite par_loop_acc. unfold bind, ret. rewrite eval_summand, eval_run.
  unfold run. destruct (den (eval q pkt)) as [[o2 c2]|]; reflexivity.
Qed.

Lemma union_swap (a b s : Store) : a ∪ (b ∪ s) = b ∪ (a ∪ s).
Proof.
  rewrite !(assoc_L (∪)), (comm_L (∪) a b). reflexivity.
Qed.


End CompositionLaws.

(** ** Prefixes are nested or apart *)

Lemma block_nested (h1 h2 k1 k2 x : Z) :
  0 <= h2 <= h1 ->
  2 ^ h1 * k1 <= x <= 2 ^ h1 * k1 + (2 ^ h1 - 1) ->
  2 ^ h2 * k2 <= x <= 2 ^ h2 * k2 + (2 ^ h2 - 1) ->
  2 ^ h1 * k1 <= 2 ^ h2 * k2 /\
  2 ^ h2 * k2 + (2 ^ h2 - 1) <= 2 ^ h1 * k1 + (2 ^ h1 - 1).
Proof.
  intros Hh H1 H2.
  assert (2 ^ h1 = 2 ^ h2 * 2 ^ (h1 - h2)) as E.
  { rewrite <- Z.pow_add_r by lia. f_equal. lia. }
  assert (0 < 2 ^ h2) by (apply Z.pow_pos_nonneg; lia).
  assert (0 < 2 ^ (h1 - h2)) by (apply Z.pow_pos_nonneg; lia).
  rewrite E in *. set (A := 2 ^ h2) in *. set (D := 2 ^ (h1 - h2)) in *.
  assert (D * k1 <= k2) by nia.
  assert (k2 < D * k1 + D) by nia.
  split; nia.
Qed.

(** Two networks that hold a common address are nested. *)
Lemma networks_nested (a1 len1 a2 len2 x : Z) :
  0 <= a1 < 2 ^ 32 -> 0 <= len1 <= 32 ->
  0 <= a2 < 2 ^ 32 -> 0 <= len2 <= 32 ->
  net_contains_addr (mkNet a1 len1) x = true ->
  net_contains_addr (mkNet a2 len2) x = true ->
  net_contains (mkNet a1 len1) (mkNet a2 len2) = true \/
  net_contains (mkNet a2 len2) (mkNet a1 len1) = true.
Proof.
  intros Ha1 Hl1 Ha2 Hl2. unfold net_contains_addr, net_contains.
  rewrite !andb_true_iff, !Z.leb_le.
  rewrite !network_shift, !broadcast_shift by assumption.
  intros H1 H2.
  destruct (Z_le_gt_dec len1 len2) as [Hle|Hgt].
  - left. apply (block_nested (32 - len1) (32 - len2) _ _ x); lia.
  - right. apply (block_nested (32 - len2) (32 - len1) _ _ x); lia.
Qed.

Lemma IPv4Network_valid (p : Pattern) (n : IPv4Net) :
  IPv4Network p = Ok n ->
  exists a len, n = mkNet a len /\ 0 <= a < 2 ^ 32 /\ 0 <= len <= 32.
Proof.
  destruct p as [[[| |a]|a len]|]; simpl; try discriminate.
  - destruct ((0 <=? a) && (a <? 2 ^ 32)) eqn:E; [|discriminate].
    intros [= <-]. apply andb_true_iff in E as [E1 E2].
    apply Z.leb_le in E1. apply Z.ltb_lt in E2.
    exists a, 32. split; [reflexivity|]. lia.
  - destruct ((0 <=? a) && (a <? 2 ^ 32) && (0 <=? len) && (len <=? 32))
      eqn:E; [|discriminate].
    intros [= <-]. apply andb_true_iff in E as [E E4].
    apply andb_true_iff in E as [E E3].
    apply andb_true_iff in E as [E1 E2].
    apply Z.leb_le in E1, E3, E4. apply Z.ltb_lt in E2.
    exists a, len. split; [reflexivity|]. lia.
Qed.

(** ** [intersect] returns [drop] for matches that are apart *)

(** No packet is kept by both of two matches that are in conflict at a
    field. *)
Lemma conflict_apart (m1 m2 : Map) (f : string) (pkt : Packet) :
  plain_shared m1 m2 -> conflict_at m1 m2 f ->
  ~ (keeps m1 pkt /\ keeps m2 pkt).
Proof.
  intros Hplain [Hs Hc] [K1 K2].
  pose proof Hs as [[p1 Hp1] [p2 Hp2]].
  unfold keeps in K1, K2. rewrite _match_eval_field_ok in K1, K2.
  specialize (K1 f p1 Hp1). specialize (K2 f p2 Hp2).
  rewrite (lookup_total_correct _ _ _ Hp1),
    (lookup_total_correct _ _ _ Hp2) in Hc.
  destruct (is_ip f) eqn:Ef.
  - destruct Hc as (n1 & n2 & E1 & E2 & C1 & C2).
    apply (field_ok_network pkt f p1 n1 E1) in K1 as (x & Hx & I1).
    apply (field_ok_network pkt f p2 n2 E2) in K2 as (x' & Hx' & I2).
    rewrite Hx in Hx'. injection Hx' as <-.
    destruct (IPv4Network_valid _ _ E1) as (a1 & l1 & -> & Ha1 & Hl1).
    destruct (IPv4Network_valid _ _ E2) as (a2 & l2 & -> & Ha2 & Hl2).
    destruct (networks_nested a1 l1 a2 l2 x Ha1 Hl1 Ha2 Hl2 I1 I2);
      congruence.
  - destruct (Hplain f Ef Hs) as [P1 P2].
    rewrite (lookup_total_correct _ _ _ Hp1) in P1.
    rewrite (lookup_total_correct _ _ _ Hp2) in P2.
    apply field_ok_spec in K1. apply field_ok_spec in K2.
    destruct p1 as [[u1|a1 l1]|], p2 as [[u2|a2 l2]|];
      try contradiction.
    + destruct K1 as (v & Hv & N1). destruct K2 as (v' & Hv' & N2).
      rewrite Hv in Hv'. injection Hv' as <-.
      apply value_ne_exact in N1, N2. congruence.
    + destruct K1 as (v & Hv & _). congruence.
    + destruct K2 as (v & Hv & _). congruence.
Qed.

Section MatchAnd.
Variable vlan_encode : Map -> Map.
Variable vlan_encode_mod : ModMap -> ModMap.
Local Abbreviation accepts := (accepts vlan_encode vlan_encode_mod).

Lemma accepts_match (m : Map) (pkt : Packet) :
  (forall f, is_Some (m !! f) -> is_compilable f = true) ->
  accepts (match_ m) pkt <-> keeps m pkt.
Proof.
  intros Hc. unfold accepts, keeps. simpl. unfold match_eval.
  rewrite (translate_virtual_fields_compilable _ _ Hc). split.
  - intros [= E]. exact E.
  - intros ->. reflexivity.
Qed.

(** [m1 & m2] for two matches is one match, or [drop]: what [intersect]
    returns; and it accepts a packet exactly when the intersection of the
    two matches, which [&] builds for other filters, accepts it.  The
    shared address fields hold prefixes or addresses, the other shared
    fields plain values, and the fields are compilable headers. *)
Theorem match_and_intersection (m1 m2 : Map) :
  cidr_shared m1 m2 -> plain_shared m1 m2 ->
  (forall f, is_Some (m1 !! f) \/ is_Some (m2 !! f) ->
             is_compilable f = true) ->
  exists r,
    match_and m1 (match_ m2) = Ok r /\
    (r = drop \/ exists d, r = match_ d) /\
    forall pkt,
      accepts r pkt <-> accepts (intersection [match_ m1; match_ m2]) pkt.
Proof.
  intros Hcidr Hplain Hcomp.
  assert (forall pkt, accepts (intersection [match_ m1; match_ m2]) pkt <->
                      keeps m1 pkt /\ keeps m2 pkt) as Hint.
  { intros pkt.
    destruct (seq_loop_filters_all vlan_encode vlan_encode_mod pkt
                [match_ m1; match_ m2] eq_refl ∅) as (o & c & E & Ho).
    unfold accepts at 1. rewrite eval_intersection, E. simpl.
    rewrite <- !accepts_match
      by (intros f Hf; apply Hcomp; auto).
    destruct Ho as [[-> Ha] | [-> (q & Hin & Hn)]].
    - split; [intros _|reflexivity].
      split; apply Ha; [left|right; left].
    - split.
      + intros [= E']; try (destruct (singleton_ne_empty pkt); symmetry; exact E').
      + intros [H1 H2]. exfalso. apply Hn.
        apply elem_of_cons in Hin as [-> | Hin]; [exact H1|].
        apply list_elem_of_singleton in Hin as ->. exact H2. }
  unfold match_and. simpl.
  destruct (intersect_cases m1 m2 Hcidr) as [[E [f Hc]]|(d & E & _)].
  - exists drop. split; [exact E|]. split; [left; reflexivity|].
    intros pkt. rewrite Hint. split.
    + intros [= E']; try (destruct (singleton_ne_empty pkt); symmetry; exact E').
    + intros HK. destruct (conflict_apart m1 m2 f pkt Hplain Hc HK).
  - exists (match_ d). split; [exact E|]. split; [right; eauto|].
    intros pkt. rewrite Hint, accepts_match.
    + apply (intersect_matches m1 m2 d Hcidr E).
    + intros g Hg. apply Hcomp.
      apply (intersect_fields m1 m2 d g Hcidr E Hg).
Qed.

End MatchAnd.

(** [match_and_intersection] at the third scenario of the specification:
    [srcip=10.0.0.0/8] and [srcip=10.1.0.0/16]. *)
Lemma match_and_intersection_witness :
  exists r,
    match_and {[ "srcip" := Some (PNet (ip24 10 0 0 0) 8) ]}
      (match_ {[ "srcip" := Some (PNet (ip24 10 1 0 0) 16) ]}) = Ok r /\
    (r = drop \/ exists d, r = match_ d) /\
    forall pkt,
      accepts (fun m => m) (fun m => m) r pkt <->
      accepts (fun m => m) (fun m => m)
        (intersection
           [match_ {[ "srcip" := Some (PNet (ip24 10 0 0 0) 8) ]};
            match_ {[ "srcip" := Some (PNet (ip24 10 1 0 0) 16) ]}]) pkt.
Proof.
  apply match_and_intersection.
  - exact cidr_shared_scenario_3.
  - intros f Hf [[p1 H1] _].
    apply lookup_singleton_Some in H1 as [<- _]. discriminate Hf.
  - intros f [[p H1]|[p H1]];
      apply lookup_singleton_Some in H1 as [<- _]; reflexivity.
Defined.

(** ** [match.covers] *)

(** Networks that are equal for ipaddr hold the same addresses. *)
Lemma net_ne_false (a1 len1 a2 len2 : Z) :
  0 <= a1 < 2 ^ 32 -> 0 <= len1 <= 32 ->
  0 <= a2 < 2 ^ 32 -> 0 <= len2 <= 32 ->
  net_ne (mkNet a1 len1) (mkNet a2 len2) = false ->
  net_contains (mkNet a1 len1) (mkNet a2 len2) = true.
Proof.
  intros Ha1 Hl1 Ha2 Hl2 E. unfold net_ne in E.
  apply negb_false_iff, andb_true_iff in E as [En Em].
  apply Z.eqb_eq in En, Em.
  assert (len1 = len2) as <-.
  { unfold netmask, hostmask in Em. cbn [net_prefixlen] in Em.
    apply (f_equal (Z.lxor (Z.ones 32))) in Em.
    rewrite <- !Z.lxor_assoc, !Z.lxor_nilpotent, !Z.lxor_0_l in Em.
    rewrite !Z.ones_equiv in Em.
    assert (2 ^ (32 - len1) = 2 ^ (32 - len2)) as Ep by lia.
    apply Z.pow_inj_r in Ep; lia. }
  unfold net_contains. rewrite andb_true_iff, !Z.leb_le.
  rewrite network_shift in En by assumption.
  rewrite (network_shift a2) in En by assumption.
  rewrite !network_shift, !broadcast_shift by assumption. lia.
Qed.

(** What the loop of [covers] has checked when it answers [True]. *)
Lemma covers_loop_true (items : list (string * Pattern)) (other_map : Map) :
  covers_loop items other_map = Ok true ->
  forall f v, (f, v) ∈ items ->
    if is_ip f then
      exists nv no, IPv4Network v = Ok nv /\
                    IPv4Network (other_map !!! f) = Ok no /\
                    net_contains nv no = true
    else v = other_map !!! f.
Proof.
  induction items as [|[g w] rest IH]; intros E f v Hin.
  - apply elem_of_nil in Hin. contradiction.
  - cbn [covers_loop] in E.
    assert (covers_loop rest other_map = Ok true /\
            (if is_ip g then
               exists nv no, IPv4Network w = Ok nv /\
                             IPv4Network (other_map !!! g) = Ok no /\
                             net_contains nv no = true
             else w = other_map !!! g)) as [Hrest Hg].
    { destruct (is_ip g).
      - destruct (IPv4Network w) as [nv|] eqn:Ev; [|discriminate].
        destruct (IPv4Network (other_map !!! g)) as [no|] eqn:Eo;
          [|discriminate].
        simpl in E.
        destruct (IPv4Network_valid _ _ Ev) as (a1 & l1 & -> & Ha1 & Hl1).
        destruct (IPv4Network_valid _ _ Eo) as (a2 & l2 & -> & Ha2 & Hl2).
        destruct (net_ne (mkNet a1 l1) (mkNet a2 l2)) eqn:En.
        + destruct (net_contains (mkNet a1 l1) (mkNet a2 l2)) eqn:Ec;
            [|discriminate].
          split; [exact E|]. eauto.
        + split; [exact E|]. eexists _, _. split; [reflexivity|].
          split; [reflexivity|]. apply net_ne_false; assumption.
      - unfold py_ne in E.
        destruct (bool_decide (w <> other_map !!! g)) eqn:Eb; [discriminate|].
        split; [exact E|]. apply bool_decide_eq_false in Eb.
        destruct (decide (w = other_map !!! g)); [assumption|contradiction]. }
    apply elem_of_cons in Hin as [[= -> ->]|Hin]; [exact Hg|].
    apply (IH Hrest f v Hin).
Qed.

(** [covers] is sound: when [m1.covers(m2)] answers [True] for two
    matches, every packet that [m2] keeps is kept by [m1]. *)
Theorem covers_sound (m1 m2 : Map) (pkt : Packet) :
  covers m1 m2 = Ok true -> keeps m2 pkt -> keeps m1 pkt.
Proof.
  unfold covers, keeps. intros E K2.
  rewrite _match_eval_field_ok in K2. apply _match_eval_field_ok.
  intros f p Hf.
  destruct (bool_decide (m2 = ∅)) eqn:E2; simpl in E.
  { destruct (0 <? Z.of_nat (size m1)) eqn:Es; [discriminate|].
    apply Z.ltb_ge in Es.
    assert (m1 = ∅) as -> by (apply map_size_empty_iff; lia).
    rewrite lookup_empty in Hf. discriminate. }
  destruct (bool_decide (dom m1 ∖ dom m2 ≠ ∅)) eqn:Ed; [discriminate|].
  apply bool_decide_eq_false in Ed.
  assert (is_Some (m2 !! f)) as [p2 Hp2].
  { apply elem_of_dom. destruct (decide (f ∈ dom m2)) as [Hin|Hn]; [exact Hin|].
    exfalso. apply Ed. intros Hempty.
    assert (f ∈ dom m1 ∖ dom m2) as Hd.
    { apply elem_of_difference. split; [apply elem_of_dom; eauto|exact Hn]. }
    rewrite Hempty in Hd. apply elem_of_empty in Hd. exact Hd. }
  specialize (K2 f p2 Hp2).
  pose proof (covers_loop_true _ _ E f p) as Hc.
  rewrite (lookup_total_correct _ _ _ Hp2) in Hc.
  specialize (Hc (proj2 (elem_of_map_to_list m1 f p) Hf)).
  destruct (is_ip f).
  - destruct Hc as (nv & no & Ev & Eo & Hcont).
    apply (field_ok_network pkt f p2 no Eo) in K2 as (x & Hx & Hin).
    apply (field_ok_network pkt f p nv Ev). exists x. split; [exact Hx|].
    apply (net_contains_addr_mono no nv x Hcont Hin).
  - subst p. exact K2.
Qed.

(** [covers_sound] at the third scenario of the specification: the
    prefix [10.0.0.0/8] covers [10.1.0.0/16]. *)
Lemma covers_sound_witness :
  keeps {[ "srcip" := Some (PNet (ip24 10 0 0 0) 8) ]}
        {[ "srcip" := VIP (ip24 10 1 2 3) ]}.
Proof.
  apply (covers_sound _ {[ "srcip" := Some (PNet (ip24 10 1 0 0) 16) ]}).
  - unfold covers.
    rewrite bool_decide_eq_false_2.
    2:{ intros E. apply (f_equal (fun m => m !! "srcip")) in E.
        rewrite lookup_singleton_eq, lookup_empty in E. discriminate. }
    cbn [andb].
    rewrite bool_decide_eq_false_2.
    2:{ intros Hn. apply Hn. rewrite !dom_singleton_L.
        apply difference_diag_L. }
    rewrite map_to_list_singleton. cbn [covers_loop].
    rewrite lookup_total_singleton. vm_compute. reflexivity.
  - apply _match_eval_field_ok. intros f p Hf.
    apply lookup_singleton_Some in Hf as [<- <-].
    unfold field_ok. rewrite lookup_singleton_eq. vm_compute. reflexivity.
Defined.

(** ** Path queries stitched into a forwarding policy *)

Section Stitch.
Variable vlan_encode : Map -> Map.
Variable vlan_encode_mod : ModMap -> ModMap.
Local Abbreviation eval := (eval vlan_encode vlan_encode_mod).
Local Abbreviation captures_only :=
  (captures_only vlan_encode vlan_encode_mod).

Lemma den_add (a b : Policy) (pkt : Packet) :
  den (eval (add a b) pkt) =
  match den (eval a pkt), den (eval b pkt) with
  | Some (o1, c1), Some (o2, c2) => Some (o1 ∪ o2, c2 ∪ c1)
  | _, _ => None
  end.
Proof.
  unfold den at 1. rewrite eval_add_run.
  destruct (den (eval a pkt)) as [[o1 c1]|]; [|reflexivity].
  destruct (den (eval b pkt)) as [[o2 c2]|]; [|reflexivity].
  rewrite (right_id_L ∅ (∪)). reflexivity.
Qed.

Lemma eval_each_captures_only (p : Policy) (l : list Packet) :
  captures_only p ->
  forall acc s, exists s', eval_each (eval p) l acc s = Ok (acc, s').
Proof.
  intros Hp. induction l as [|x r IH]; intros acc s; simpl.
  - exists s. reflexivity.
  - unfold bind. destruct (Hp x s) as (s' & ->).
    rewrite (right_id_L ∅ (∪)). apply IH.
Qed.

(** A policy followed by a bucket only captures, when the policy
    returns. *)
Lemma captures_only_bucket (p q : Policy) (b : nat) :
  (forall pkt s, exists o s', eval p pkt s = Ok (o, s')) ->
  q = FwdBucket b \/ q = PathBucket b \/ q = CountBucket b ->
  captures_only (rshift p q).
Proof.
  intros Hp Hq pkt s. rewrite eval_rshift. unfold kleisli, bind.
  destruct (Hp pkt s) as (o & s1 & ->).
  apply eval_each_captures_only. intros x s2.
  destruct Hq as [-> | [-> | ->]]; eexists; reflexivity.
Qed.

(** Stitching path queries into a forwarding policy does not change the
    packets that come out: when the counting and end-of-path fragments
    only capture and the egress filter returns, the stitched policy
    returns on every packet what [tagging >> fwding] returns on it, and
    raises when that raises. *)
Theorem stitch_forwards (egress fwding tagging untagging counting endpath
  dropping : Policy) :
  captures_only counting -> captures_only endpath ->
  (forall pkt s, exists o s', eval egress pkt s = Ok (o, s')) ->
  forall pkt s,
    output (eval (stitch egress fwding tagging untagging counting endpath
                    dropping) pkt s) =
    output (eval (rshift tagging fwding) pkt s).
Proof.
  intros Hc He Hg pkt s. unfold stitch.
  set (A := rshift tagging fwding).
  rewrite eval_add_run, den_add, (eval_run _ _ A). unfold run.
  destruct (den (eval A pkt)) as [[oa ca]|] eqn:DA; [|reflexivity].
  assert (forall x, eval A pkt x = Ok (oa, ca ∪ x)) as HA.
  { intros x. rewrite eval_run, DA. reflexivity. }
  assert (den (eval counting pkt) = Some (∅, d_cap (den (eval counting pkt))))
    as ->.
  { unfold den. destruct (Hc pkt ∅) as (s' & ->). reflexivity. }
  assert (exists c, den (eval (rshift (rshift A (DynamicFilter egress))
                                 endpath) pkt) = Some (∅, c)) as [c ->].
  { unfold den. rewrite eval_rshift. unfold kleisli, bind.
    rewrite eval_rshift. unfold kleisli, bind. rewrite HA.
    destruct (eval_each_returns (eval (DynamicFilter egress)) (elements oa)
                Hg ∅ (ca ∪ ∅))
      as (o2 & s2 & ->).
    destruct (eval_each_captures_only endpath (elements o2) He ∅ s2)
      as (s3 & ->).
    eauto. }
  simpl. rewrite !(right_id_L ∅ (∪)). reflexivity.
Qed.

End Stitch.

(** [stitch_forwards] with a forwarding policy that sends every packet
    out of port 2 and a counting fragment that captures every packet. *)
Lemma stitch_forwards_witness :
  output
    (eval (fun m => m) (fun m => m)
       (stitch drop (fwd_new (Some (VInt 2))) identity identity
          (rshift (match_ ∅) (FwdBucket 0)) drop drop)
       ∅ ∅) =
  output
    (eval (fun m => m) (fun m => m)
       (rshift identity (fwd_new (Some (VInt 2)))) ∅ ∅).
Proof.
  apply stitch_forwards.
  - apply (captures_only_bucket _ _ _ _ 0); [|left; reflexivity].
    intros pkt s. eexists _, _. reflexivity.
  - intros pkt s. eexists. reflexivity.
  - intros pkt s. eexists _, _. reflexivity.
Defined.

Section PathListFacts.
Context {Pth : Type}.
Variable re_equals : string -> string -> bool.
Variable re_belongs_to : string -> string -> bool.
Variable re_has_nonempty_intersection : string -> string -> bool.

Local Abbreviation append_re_turn :=
  (append_re_turn re_equals re_belongs_to re_has_nonempty_intersection).
Local Abbreviation append_re_loop :=
  (append_re_loop re_equals re_belongs_to re_has_nonempty_intersection).
Local Abbreviation append_re_without_intersection :=
  (append_re_without_intersection re_equals re_belongs_to
     re_has_nonempty_intersection).

Lemma paths_kept_refl (st : path_lists Pth) : paths_kept st st.
Proof. intros i ps E. exists ps. split; [exact E | reflexivity]. Qed.

Lemma paths_kept_trans (a b c : path_lists Pth) :
  paths_kept a b -> paths_kept b c -> paths_kept a c.
Proof.
  intros Hab Hbc i ps E. destruct (Hab i ps E) as (ps1 & E1 & S1).
  destruct (Hbc i ps1 E1) as (ps2 & E2 & S2).
  exists ps2. split; [exact E2 | etransitivity; eassumption].
Qed.

Lemma paths_kept_listed (p : Pth) (a b : path_lists Pth) :
  paths_kept a b -> listed p a -> listed p b.
Proof.
  intros Hab (i & ps & E & Hin). destruct (Hab i ps E) as (ps' & E' & S).
  exists i, ps'. split; [exact E' | apply S, Hin].
Qed.

Lemma paths_kept_insert (st : path_lists Pth) (res : list string) (i : nat)
  (ps : list Pth) (p : Pth) :
  paths_list st !! i = Some ps ->
  paths_kept st (mk_path_lists res (<[i := (ps ++ [p])%list]> (paths_list st))).
Proof.
  intros E j qs Ej. cbn [paths_list]. destruct (decide (i = j)) as [<- | Hn].
  - rewrite list_lookup_insert_eq by (apply lookup_lt_is_Some_1; eauto).
    rewrite E in Ej. injection Ej as <-. eexists. split; [reflexivity|].
    apply list_subseteq_app_l. reflexivity.
  - rewrite list_lookup_insert_ne by exact Hn. exists qs.
    split; [exact Ej | reflexivity].
Qed.

Lemma paths_kept_append (st : path_lists Pth) (res : list string)
  (ps : list Pth) :
  paths_kept st (mk_path_lists res (paths_list st ++ [ps])).
Proof.
  intros j qs Ej. cbn [paths_list]. exists qs.
  split; [apply lookup_app_l_Some, Ej | reflexivity].
Qed.

Lemma listed_insert (st : path_lists Pth) (res : list string) (i : nat)
  (ps : list Pth) (p : Pth) :
  paths_list st !! i = Some ps ->
  listed p (mk_path_lists res (<[i := (ps ++ [p])%list]> (paths_list st))).
Proof.
  intros E. exists i, (ps ++ [p])%list. cbn [paths_list]. split.
  - apply list_lookup_insert_eq, lookup_lt_is_Some_1. eauto.
  - apply elem_of_app. right. apply list_elem_of_here.
Qed.

Lemma listed_append (st : path_lists Pth) (res : list string)
  (ps : list Pth) (p : Pth) :
  p ∈ ps -> listed p (mk_path_lists res (paths_list st ++ [ps])).
Proof.
  intros Hin. exists (length (paths_list st)), ps. cbn [paths_list].
  split; [apply list_lookup_middle; reflexivity | exact Hin].
Qed.

(** What a turn, and the loop, keep: the lists stay paired and do not get
    shorter, no path is taken off an entry, and the new path is listed as
    soon as the call has left or [diff_re_list] is not empty. *)
Definition turn_keeps (p : Pth) (st : path_lists Pth) (t : turn Pth) : Prop :=
  match t with
  | Leaves st' =>
      paired st' /\ (length (re_list st) <= length (re_list st'))%nat /\
      paths_kept st st' /\ listed p st'
  | Goes_on st' diff' =>
      paired st' /\ (length (re_list st) <= length (re_list st'))%nat /\
      paths_kept st st' /\ (diff' <> [] -> listed p st')
  end.

Lemma append_re_turn_keeps (new_re : string) (p : Pth) (i : nat)
  (st : path_lists Pth) (diff : list string) :
  paired st -> (i < length (re_list st))%nat ->
  (diff <> [] -> listed p st) ->
  exists t, append_re_turn new_re p i st diff = Ok t /\ turn_keeps p st t.
Proof.
  intros Hp Hi Hd. unfold append_re_turn, append_re_turn.
  destruct (lookup_lt_is_Some_2 _ _ Hi) as [e Ee]. rewrite Ee.
  assert (i < length (paths_list st))%nat as Hi' by (rewrite <- Hp; exact Hi).
  destruct (lookup_lt_is_Some_2 _ _ Hi') as [ps Eps]. rewrite Eps.
  destruct (re_equals e new_re); [|destruct (re_belongs_to e new_re);
    [|destruct (re_has_nonempty_intersection e new_re)]];
    eexists; (split; [reflexivity|]); cbn [turn_keeps].
  - repeat split.
    + unfold paired. cbn [re_list paths_list]. rewrite length_insert. exact Hp.
    + reflexivity.
    + apply paths_kept_insert, Eps.
    + apply listed_insert, Eps.
  - repeat split.
    + unfold paired. cbn [re_list paths_list]. rewrite length_insert. exact Hp.
    + reflexivity.
    + apply paths_kept_insert, Eps.
    + intros _. apply listed_insert, Eps.
  - repeat split.
    + unfold paired. cbn [re_list paths_list].
      rewrite !length_app, length_insert, Hp. reflexivity.
    + cbn [re_list]. rewrite length_app, length_insert. lia.
    + apply paths_kept_append.
    + intros _. apply listed_append. apply elem_of_app. right.
      apply list_elem_of_here.
  - repeat split.
    + exact Hp.
    + reflexivity.
    + apply paths_kept_refl.
    + exact Hd.
Qed.

Lemma append_re_loop_keeps (new_re : string) (p : Pth) (indices : list nat) :
  forall (st : path_lists Pth) (diff : list string),
    paired st -> Forall (fun i => (i < length (re_list st))%nat) indices ->
    (diff <> [] -> listed p st) ->
    exists t, append_re_loop new_re p indices st diff = Ok t /\
              turn_keeps p st t.
Proof.
  induction indices as [|i rest IH]; intros st diff Hp Hi Hd.
  - eexists. split; [reflexivity|]. cbn [turn_keeps].
    repeat split; [exact Hp | reflexivity | apply paths_kept_refl | exact Hd].
  - apply Forall_cons in Hi as [Hi Hr].
    destruct (append_re_turn_keeps new_re p i st diff Hp Hi Hd)
      as (t & Et & Kt).
    cbn [append_re_loop]. rewrite Et. cbn [rbind].
    destruct t as [st1 | st1 diff1]; cbn [turn_keeps] in Kt.
    + eexists. split; [reflexivity|]. exact Kt.
    + destruct Kt as (Hp1 & Hl1 & Hk1 & Hd1).
      destruct (IH st1 diff1 Hp1) as (t & Et2 & Kt2).
      * eapply Forall_impl; [exact Hr|]. intros j Hj. simpl in Hj. lia.
      * exact Hd1.
      * exists t. split; [exact Et2|].
        destruct t as [st2 | st2 diff2]; cbn [turn_keeps] in *;
          destruct Kt2 as (Hp2 & Hl2 & Hk2 & Hd2);
          (repeat split; [exact Hp2 | lia |
             eapply paths_kept_trans; eassumption | exact Hd2]).
Qed.

(** [append_re_without_intersection] on paired lists does not raise.  It
    leaves the lists paired and not shorter, takes no path off an entry,
    and lists the new path for at least one entry, whatever it returns;
    when it returns [True] the last entry is new and lists that path
    alone. *)
Theorem append_re_without_intersection_keeps (st : path_lists Pth)
  (new_re : string) (p : Pth) :
  paired st ->
  exists b st',
    append_re_without_intersection st new_re p = Ok (b, st') /\
    paired st' /\
    (length (re_list st) <= length (re_list st'))%nat /\
    paths_kept st st' /\
    listed p st' /\
    (b = true ->
     (length (re_list st) < length (re_list st'))%nat /\
     last (paths_list st') = Some [p]).
Proof.
  intros Hp. unfold append_re_without_intersection,
    append_re_without_intersection.
  destruct (append_re_loop_keeps new_re p (seq 0 (length (re_list st))) st []
              Hp) as (t & Et & Kt).
  { apply Forall_forall. intros i Hi. apply elem_of_seq in Hi. lia. }
  { intros Hn. destruct Hn. reflexivity. }
  rewrite Et. cbn [rbind].
  destruct t as [st1 | st1 diff1]; cbn [turn_keeps] in Kt;
    destruct Kt as (Hp1 & Hl1 & Hk1 & Hd1).
  - exists false, st1. split; [reflexivity|].
    repeat split; try assumption; discriminate.
  - assert (forall e, paired (mk_path_lists (re_list st1 ++ [e])
                               (paths_list st1 ++ [[p]]))) as Hpa.
    { intros e. unfold paired. cbn [re_list paths_list].
      rewrite !length_app, Hp1. reflexivity. }
    assert (forall e, let st' := mk_path_lists (re_list st1 ++ [e])
                                   (paths_list st1 ++ [[p]]) in
              paired st' /\
              (length (re_list st) <= length (re_list st'))%nat /\
              paths_kept st st' /\ listed p st' /\
              (true = true ->
               (length (re_list st) < length (re_list st'))%nat /\
               last (paths_list st') = Some [p])) as Hnew.
    { intros e st'. subst st'. split; [apply Hpa|].
      cbn [re_list paths_list]. rewrite length_app. cbn [length].
      split; [lia|]. split.
      - eapply paths_kept_trans; [exact Hk1 | apply paths_kept_append].
      - split.
        + apply listed_append, list_elem_of_here.
        + intros _. split; [lia | apply last_snoc]. }
    destruct diff1 as [|first others].
    + eexists _, _. split; [reflexivity | apply Hnew].
    + destruct (re_belongs_to new_re (join_alternatives first others));
        cbn [negb].
      * exists false, st1. split; [reflexivity|].
        repeat split; try assumption; try discriminate.
        apply Hd1. discriminate.
      * eexists _, _. split; [reflexivity | apply Hnew].
Qed.

End PathListFacts.

(** [append_re_without_intersection_keeps] for one listed expression that
    overlaps the new one. *)
Lemma append_re_without_intersection_keeps_witness :
  let st := mk_path_lists ["a*"] [[1%nat]] in
  paired st /\
  exists b st',
    append_re_without_intersection String.eqb (fun _ _ => false)
      (fun _ _ => true) st "ab" 2%nat = Ok (b, st') /\
    paired st' /\
    (length (re_list st) <= length (re_list st'))%nat /\
    paths_kept st st' /\
    listed 2%nat st' /\
    (b = true ->
     (length (re_list st) < length (re_list st'))%nat /\
     last (paths_list st') = Some [2%nat]).
Proof.
  split; [reflexivity|].
  apply append_re_without_intersection_keeps. reflexivity.
Defined.
